(** * Nonogram solver: line deducers, propagation passes and the solve loop

    A shallow embedding of the Python package [nonogram] (with the
    validator module of the same repository) and the properties of its
    line deducers and of its propagation loop.

    Python integers are unbounded, so they are modelled by [Z].  Python
    lists are modelled by [list]; a subscript that Python rejects with
    [IndexError] is modelled by [None] in the [option] monad. *)

From Stdlib Require Import ZArith List Bool Lia Sorted Permutation.
Import ListNotations.
Open Scope Z_scope.

(* ================================================================== *)
(** * Part I.  The embedding                                           *)
(* ================================================================== *)

(** ** Python built-ins used by the sources *)

(** [len(l)] *)
Definition len {A : Type} (l : list A) : Z := Z.of_nat (length l).

(** [sum(l)] *)
Definition sum (l : list Z) : Z := fold_left Z.add l 0.

(** [range(lo, hi)]: the integers [lo, lo+1, ..., hi-1], empty when
    [hi <= lo]. *)
Definition range (lo hi : Z) : list Z :=
  map (fun n => lo + Z.of_nat n) (seq 0 (Z.to_nat (hi - lo))).

(** [[v] * n]: [n] copies of [v], the empty list when [n <= 0]. *)
Definition replicate {A : Type} (v : A) (n : Z) : list A :=
  repeat v (Z.to_nat n).

(** Python normalises a negative subscript [i] to [len(l) + i]; what is
    then outside [0 .. len(l)-1] raises [IndexError]. *)
Definition norm_index {A : Type} (l : list A) (i : Z) : option nat :=
  let j := if i <? 0 then len l + i else i in
  if (0 <=? j) && (j <? len l) then Some (Z.to_nat j) else None.

(** [l[i]] *)
Definition getitem {A : Type} (l : list A) (i : Z) : option A :=
  match norm_index l i with
  | Some n => nth_error l n
  | None => None
  end.

Fixpoint update_nth {A : Type} (l : list A) (n : nat) (v : A) : list A :=
  match l, n with
  | [], _ => []
  | _ :: t, O => v :: t
  | h :: t, S m => h :: update_nth t m v
  end.

(** [l[i] = v] *)
Definition setitem {A : Type} (l : list A) (i : Z) (v : A) : option (list A) :=
  match norm_index l i with
  | Some n => Some (update_nth l n v)
  | None => None
  end.

(** Slice bounds: a negative bound counts from the end, and both bounds
    are clamped to [0 .. len(l)]. *)
Definition norm_bound {A : Type} (l : list A) (i : Z) : nat :=
  let j := if i <? 0 then len l + i else i in
  Z.to_nat (Z.min (Z.max j 0) (len l)).

(** [l[lo:hi]] *)
Definition slice {A : Type} (l : list A) (lo hi : Z) : list A :=
  let a := norm_bound l lo in
  let b := norm_bound l hi in
  firstn (b - a) (skipn a l).

(** [l[lo:hi] = v] *)
Definition set_slice {A : Type} (l : list A) (lo hi : Z) (v : list A) : list A :=
  let a := norm_bound l lo in
  let b := norm_bound l hi in
  firstn a l ++ v ++ skipn (Nat.max a b) l.

(** [sorted(set(l))] on integers: insertion into an ascending list that
    never stores an element twice. *)
Fixpoint insert_unique (x : Z) (l : list Z) : list Z :=
  match l with
  | [] => [x]
  | y :: t =>
      if x <? y then x :: l
      else if x =? y then l
      else y :: insert_unique x t
  end.

Definition sorted_set (l : list Z) : list Z :=
  fold_right insert_unique [] l.

(** A subscript that is in bounds by construction of the loop around it
    is read through [item], which has no error case to propagate. *)
Definition item (l : list Z) (i : Z) : Z :=
  match getitem l i with
  | Some v => v
  | None => 0
  end.

(** The error monad of [IndexError]. *)
Definition bind {A B : Type} (m : option A) (f : A -> option B) : option B :=
  match m with
  | Some a => f a
  | None => None
  end.

Notation "x <- m ;; k" := (bind m (fun x => k))
  (at level 61, m at next level, right associativity).
Notation "' pat <- m ;; k" := (bind m (fun x => match x with pat => k end))
  (at level 61, pat pattern, m at next level, right associativity).

(** [for x in xs: body], threading the loop state [s]; an exception in
    the body leaves the loop. *)
Fixpoint for_each {A S : Type} (xs : list A) (body : A -> S -> option S)
  (s : S) : option S :=
  match xs with
  | [] => Some s
  | x :: t => s' <- body x s ;; for_each t body s'
  end.

(** ** nonogram/dto.py *)

Record NonogramPuzzle : Type := mkPuzzle {
  size : Z;
  rows : list (list Z);
  cols : list (list Z)
}.

(** The working grid: [-1] unknown, [0] empty, [1] filled. *)
Definition Grid : Type := list (list Z).

(** ** nonogram/strategies/overlap.py *)

(** The prefix-sum table [pref] of [overlap_fill_line]:
    [pref = [0] * (k + 1)], then [pref[i] = pref[i-1] + runs[i-1]] for
    [i] in [range(1, k + 1)]. *)
Definition prefix_sums (runs : list Z) : list Z :=
  let k := len runs in
  fold_left
    (fun pref i =>
       update_nth pref (Z.to_nat i) (item pref (i - 1) + item runs (i - 1)))
    (range 1 (k + 1))
    (replicate 0 (k + 1)).

(** One iteration of the loop over the runs of [overlap_fill_line]. *)
Definition overlap_step (length : Z) (runs pref : list Z) (k S : Z)
  (forced : list Z) (i : Z) : list Z :=
  let r := item runs i in
  let overlap_len := r - S in
  if overlap_len <=? 0 then forced
  else
    let earliest_start := item pref i + i in
    let latest_start := length - ((item pref k - item pref i) + (k - 1 - i)) in
    let start := latest_start in
    let end_ := earliest_start + r - 1 in
    if start <=? end_ then forced ++ range start (end_ + 1) else forced.

Definition overlap_fill_line (length : Z) (runs : list Z) : list Z :=
  match runs with
  | [] => []
  | _ :: _ =>
      let k := len runs in
      let req := sum runs + (k - 1) in
      let S := length - req in
      if S <? 0 then []
      else
        let pref := prefix_sums runs in
        let forced :=
          fold_left (overlap_step length runs pref k S) (range 0 k) [] in
        sorted_set forced
  end.

(** One grid cell: [grid[r][c]] and [grid[r][c] = v].  The rows of the
    working grid are distinct list objects (the solver builds each row
    afresh), so a write to one row leaves the others alone. *)
Definition get_cell (grid : Grid) (r c : Z) : option Z :=
  row <- getitem grid r ;; getitem row c.

Definition set_cell (grid : Grid) (r c v : Z) : option Grid :=
  row <- getitem grid r ;;
  row' <- setitem row c v ;;
  setitem grid r row'.

(** The loop state of a pass: the flag [changed] and the grid. *)
Definition PassState : Type := (bool * Grid)%type.

(** [if grid[r][c] == -1: grid[r][c] = 1; changed = True] *)
Definition overlap_mark (r c : Z) (s : PassState) : option PassState :=
  let '(changed, grid) := s in
  v <- get_cell grid r c ;;
  if v =? -1 then
    grid' <- set_cell grid r c 1 ;; Some (true, grid')
  else Some (changed, grid).

Definition overlap_row (puzzle : NonogramPuzzle) (r : Z) (s : PassState)
  : option PassState :=
  runs <- getitem (rows puzzle) r ;;
  let forced := overlap_fill_line (size puzzle) runs in
  for_each forced (fun c => overlap_mark r c) s.

Definition overlap_col (puzzle : NonogramPuzzle) (c : Z) (s : PassState)
  : option PassState :=
  runs <- getitem (cols puzzle) c ;;
  let forced := overlap_fill_line (size puzzle) runs in
  for_each forced (fun i => overlap_mark i c) s.

Definition apply_overlap_pass (puzzle : NonogramPuzzle) (grid : Grid)
  : option PassState :=
  let N := size puzzle in
  s1 <- for_each (range 0 N) (overlap_row puzzle) (false, grid) ;;
  for_each (range 0 N) (overlap_col puzzle) s1.

(** ** nonogram/strategies/possibilities.py *)

(** [ok_block]'s loop: [False] at the first known-empty cell. *)
Fixpoint no_known_empty (known : list Z) (idxs : list Z) : option bool :=
  match idxs with
  | [] => Some true
  | i :: t =>
      k <- getitem known i ;;
      if k =? 0 then Some false else no_known_empty known t
  end.

Definition ok_block (length : Z) (known : list Z) (start size : Z)
  : option bool :=
  if (start <? 0) || (start + size >? length) then Some false
  else no_known_empty known (range start (start + size)).

(** [all(known[i] == -1 or known[i] == line[i] for i in ...)], stopping
    at the first index that fails. *)
Fixpoint all_consistent (known line : list Z) (idxs : list Z) : option bool :=
  match idxs with
  | [] => Some true
  | i :: t =>
      k <- getitem known i ;;
      if k =? -1 then all_consistent known line t
      else
        v <- getitem line i ;;
        if k =? v then all_consistent known line t else Some false
  end.

Definition consistent_fill (length : Z) (known line : list Z) : option bool :=
  all_consistent known line (range 0 length).

(** The scan for a known-filled cell left uncovered before the next
    search cursor: [ok] stays [True] unless some [known[i] == 1] meets
    [line[i] != 1]. *)
Fixpoint known_filled_covered (known line : list Z) (idxs : list Z)
  : option bool :=
  match idxs with
  | [] => Some true
  | i :: t =>
      k <- getitem known i ;;
      if k =? 1 then
        v <- getitem line i ;;
        if negb (v =? 1) then Some false
        else known_filled_covered known line t
      else known_filled_covered known line t
  end.

(** [for i in range(position, position + run): line[i] = 1] *)
Definition write_block (line : list Z) (position run : Z) : option (list Z) :=
  for_each (range position (position + run)) (fun i l => setitem l i 1) line.

(** The state threaded through [place]: the patterns yielded so far and
    the shared scratch list [line], which every placement writes into
    and restores. *)
Definition PlaceState : Type := (list (list Z) * list Z)%type.

(** [place(run_idx, pos)].  The recursion goes from run [run_idx] to run
    [run_idx + 1] and stops at the last run; [depth] bounds it by the
    number of runs still to place. *)
Fixpoint place (depth : nat) (length : Z) (runs known : list Z)
  (run_idx pos : Z) (s : PlaceState) : option PlaceState :=
  match depth with
  | O => None
  | S depth' =>
      run <- getitem runs run_idx ;;
      let remaining :=
        sum (slice runs run_idx (len runs)) + (len runs - 1 - run_idx) in
      let max_start := length - remaining in
      for_each (range pos (max_start + 1))
        (fun position s =>
           let '(out, line) := s in
           okb <- ok_block length known position run ;;
           if okb then
             let old := slice line position (position + run) in
             line <- write_block line position run ;;
             let index_after_run := position + run in
             let next_pos := index_after_run + 1 in
             s' <-
               (if run_idx + 1 =? len runs then
                  c <- consistent_fill length known line ;;
                  Some (if c then out ++ [line] else out, line)
                else
                  gap_known_filled <-
                    (if index_after_run <? length then
                       k <- getitem known index_after_run ;; Some (k =? 1)
                     else Some false) ;;
                  if gap_known_filled then Some (out, line)
                  else
                    '(gap_old, line) <-
                      (if position + run <? length then
                         g <- getitem line index_after_run ;;
                         line' <- setitem line index_after_run 0 ;;
                         Some (Some g, line')
                       else Some (None, line)) ;;
                    ok <- known_filled_covered known line
                            (range pos (next_pos - 1)) ;;
                    '(out, line) <-
                      (if ok
                       then place depth' length runs known
                              (run_idx + 1) next_pos (out, line)
                       else Some (out, line)) ;;
                    line <-
                      (if index_after_run <? length then
                         match gap_old with
                         | Some g => setitem line index_after_run g
                         | None => Some line
                         end
                       else Some line) ;;
                    Some (out, line)) ;;
             let '(out, line) := s' in
             Some (out, set_slice line position index_after_run old)
           else Some (out, line))
        s
  end.

(** The generator, as the list of the patterns it yields in order. *)
Definition _enumerate_line_patterns (length : Z) (runs known : list Z)
  : option (list (list Z)) :=
  match runs with
  | [] =>
      if forallb (fun k => (k =? 0) || (k =? -1)) known
      then Some [replicate 0 length]
      else Some []
  | _ :: _ =>
      let line := replicate 0 length in
      _ <- (if 0 >? length then
              k <- getitem known 0 ;; Some (k =? 1)
            else Some false) ;;
      '(out, _) <- place (List.length runs) length runs known 0 0 ([], line) ;;
      Some out
  end.

(** [for i, v in enumerate(pattern): if v == 1: ones_count[i] += 1] *)
Fixpoint count_ones_from (i : Z) (pattern : list Z) (ones_count : list Z)
  : option (list Z) :=
  match pattern with
  | [] => Some ones_count
  | v :: t =>
      ones_count' <-
        (if v =? 1 then
           n <- getitem ones_count i ;; setitem ones_count i (n + 1)
         else Some ones_count) ;;
      count_ones_from (i + 1) t ones_count'
  end.

Definition deduce_from_possibilities (length : Z) (runs known : list Z)
  : option (list Z * list Z) :=
  patterns <- _enumerate_line_patterns length runs known ;;
  match patterns with
  | [] => Some ([], [])
  | _ :: _ =>
      let len_patterns := len patterns in
      ones_count <-
        for_each patterns (count_ones_from 0) (replicate 0 length) ;;
      let must_fill :=
        filter (fun i => item ones_count i =? len_patterns) (range 0 length) in
      let must_empty :=
        filter (fun i => item ones_count i =? 0) (range 0 length) in
      Some (must_fill, must_empty)
  end.

(** ** nanogram/validator.py, which the solver imports as
    [nonogram.validator] *)

(** The loop of [_line_groups_of_ones]: [run] is the length of the block
    being read, [groups] the blocks closed so far. *)
Fixpoint groups_loop (line : list Z) (run : Z) (groups : list Z) : list Z :=
  match line with
  | [] => if run =? 0 then groups else groups ++ [run]
  | v :: t =>
      if v =? 1 then groups_loop t (run + 1) groups
      else if run =? 0 then groups_loop t run groups
      else groups_loop t 0 (groups ++ [run])
  end.

Definition _line_groups_of_ones (line : list Z) : list Z :=
  groups_loop line 0 [].

Definition is_line_fully_known (line : list Z) : bool :=
  forallb (fun v => (v =? 0) || (v =? 1)) line.

Definition list_Z_eqb (a b : list Z) : bool :=
  if list_eq_dec Z.eq_dec a b then true else false.

Definition does_line_satisfy_clues (line runs : list Z) : bool :=
  if negb (is_line_fully_known line) then false
  else list_Z_eqb (_line_groups_of_ones line) runs.

Definition is_grid_complete (state : Grid) : bool :=
  forallb is_line_fully_known state.

(** [[state[r][c] for r in range(n)]] *)
Fixpoint column_of (state : Grid) (c : Z) (idxs : list Z) : option (list Z) :=
  match idxs with
  | [] => Some []
  | r :: t =>
      v <- get_cell state r c ;;
      col <- column_of state c t ;;
      Some (v :: col)
  end.

(** [for r, runs in enumerate(puzzle.rows)]: [False] at the first row
    that misses its clue. *)
Fixpoint rows_satisfied (state : Grid) (r : Z) (clues : list (list Z))
  : option bool :=
  match clues with
  | [] => Some true
  | runs :: t =>
      row <- getitem state r ;;
      if negb (does_line_satisfy_clues row runs) then Some false
      else rows_satisfied state (r + 1) t
  end.

Fixpoint cols_satisfied (n : Z) (state : Grid) (c : Z) (clues : list (list Z))
  : option bool :=
  match clues with
  | [] => Some true
  | runs :: t =>
      col <- column_of state c (range 0 n) ;;
      if negb (does_line_satisfy_clues col runs) then Some false
      else cols_satisfied n state (c + 1) t
  end.

Definition is_puzzle_solved (puzzle : NonogramPuzzle) (state : Grid)
  : option bool :=
  if negb (is_grid_complete state) then Some false
  else
    rows_ok <- rows_satisfied state 0 (rows puzzle) ;;
    if negb rows_ok then Some false
    else
      cols_ok <- cols_satisfied (size puzzle) state 0 (cols puzzle) ;;
      if negb cols_ok then Some false else Some true.

(** *** The reports of failing rows and columns *)

(** The loop of [validate_rows] over [enumerate(puzzle.rows)]; [bad]
    holds the indices appended so far. *)
Fixpoint validate_rows_loop (state : Grid) (r : Z) (clues : list (list Z))
  (bad : list Z) : option (list Z) :=
  match clues with
  | [] => Some bad
  | runs :: t =>
      row <- getitem state r ;;
      if is_line_fully_known row && negb (does_line_satisfy_clues row runs)
      then validate_rows_loop state (r + 1) t (bad ++ [r])
      else validate_rows_loop state (r + 1) t bad
  end.

Definition validate_rows (puzzle : NonogramPuzzle) (state : Grid)
  : option (list Z) :=
  validate_rows_loop state 0 (rows puzzle) [].

(** The loop of [validate_cols] over [enumerate(puzzle.cols)]. *)
Fixpoint validate_cols_loop (n : Z) (state : Grid) (c : Z)
  (clues : list (list Z)) (bad : list Z) : option (list Z) :=
  match clues with
  | [] => Some bad
  | runs :: t =>
      col <- column_of state c (range 0 n) ;;
      if is_line_fully_known col && negb (does_line_satisfy_clues col runs)
      then validate_cols_loop n state (c + 1) t (bad ++ [c])
      else validate_cols_loop n state (c + 1) t bad
  end.

Definition validate_cols (puzzle : NonogramPuzzle) (state : Grid)
  : option (list Z) :=
  validate_cols_loop (size puzzle) state 0 (cols puzzle) [].

(** ** nanogram/printer.py *)

(** [symbols.get(v, "?")] with [symbols = {1: "█", 0: " ", -1: "·"}]:
    the text of one cell.  A Python string is modelled as the list of
    its code points: U+2588 is the full block, U+0020 the space, U+00B7
    the middle dot and U+003F the question mark. *)
Definition symbol (v : Z) : list Z :=
  if v =? 1 then [9608]
  else if v =? 0 then [32]
  else if v =? -1 then [183]
  else [63].

(** [print_grid]: the lines written to standard output, one [print]
    per row, each the join of the row's symbols. *)
Definition print_grid (grid : Grid) : list (list Z) :=
  map (fun row => concat (map symbol row)) grid.

(** ** nonogram/solver.py *)

(** [if grid[r][c] != v: grid[r][c] = v; changed = True] *)
Definition possibility_mark (v r c : Z) (s : PassState) : option PassState :=
  let '(changed, grid) := s in
  x <- get_cell grid r c ;;
  if negb (x =? v) then
    grid' <- set_cell grid r c v ;; Some (true, grid')
  else Some (changed, grid).

Definition possibility_row (puzzle : NonogramPuzzle) (r : Z) (s : PassState)
  : option PassState :=
  let '(changed, grid) := s in
  known <- getitem grid r ;;
  runs <- getitem (rows puzzle) r ;;
  '(mf, me) <- deduce_from_possibilities (size puzzle) runs known ;;
  s1 <- for_each mf (fun c => possibility_mark 1 r c) (changed, grid) ;;
  for_each me (fun c => possibility_mark 0 r c) s1.

Definition possibility_col (puzzle : NonogramPuzzle) (c : Z) (s : PassState)
  : option PassState :=
  let '(changed, grid) := s in
  known <- column_of grid c (range 0 (size puzzle)) ;;
  runs <- getitem (cols puzzle) c ;;
  '(mf, me) <- deduce_from_possibilities (size puzzle) runs known ;;
  s1 <- for_each mf (fun i => possibility_mark 1 i c) (changed, grid) ;;
  for_each me (fun i => possibility_mark 0 i c) s1.

Definition apply_possibility_pass (puzzle : NonogramPuzzle) (grid : Grid)
  : option PassState :=
  s1 <- for_each (range 0 (size puzzle)) (possibility_row puzzle)
          (false, grid) ;;
  for_each (range 0 (size puzzle)) (possibility_col puzzle) s1.

(** How a run of the solver ends: it returns, an [IndexError] escapes,
    or the [while] loop is still going when the round budget is spent. *)
Inductive outcome (A : Type) : Type :=
| Returned (a : A)
| Raised
| Unfinished.

Arguments Returned {A} a.
Arguments Raised {A}.
Arguments Unfinished {A}.

(** One round of the loop body after the solved test: the overlap pass,
    then the possibility pass; [changed] is the disjunction of what the
    two passes report. *)
Definition propagation_round (puzzle : NonogramPuzzle) (state : Grid)
  : option PassState :=
  '(c1, state1) <- apply_overlap_pass puzzle state ;;
  '(c2, state2) <- apply_possibility_pass puzzle state1 ;;
  Some (c1 || c2, state2).

(** [while changed: ...], entered with [changed = True]; [rounds] is the
    number of iterations the loop may still start. *)
Fixpoint solve_loop (rounds : nat) (puzzle : NonogramPuzzle) (state : Grid)
  : outcome Grid :=
  match rounds with
  | O => Unfinished
  | S rounds' =>
      match is_puzzle_solved puzzle state with
      | None => Raised
      | Some true => Returned state
      | Some false =>
          match propagation_round puzzle state with
          | None => Raised
          | Some (changed, state') =>
              if changed then solve_loop rounds' puzzle state'
              else Returned state'
          end
      end
  end.

(** What a call of [solve_nonogram] shows: the flag it prints after
    ["Puzzle solved: "] and the grid it returns.  The function has one
    [return] statement, [return state]; it has no path that returns
    Python's [None]. *)
Record SolveOutput : Type := mkOutput {
  printed_solved : bool;
  result : Grid
}.

(** [[[-1] * size for _ in range(size)]] *)
Definition initial_state (n : Z) : Grid :=
  map (fun _ => replicate (-1) n) (range 0 n).

Definition solve_nonogram (rounds : nat) (puzzle : NonogramPuzzle)
  : outcome SolveOutput :=
  match solve_loop rounds puzzle (initial_state (size puzzle)) with
  | Returned state =>
      match is_puzzle_solved puzzle state with
      | Some b => Returned (mkOutput b state)
      | None => Raised
      end
  | Raised => Raised
  | Unfinished => Unfinished
  end.

(* ================================================================== *)
(** * Part II.  Specification vocabulary                               *)
(* ================================================================== *)

(** Earliest start of run [i]: the lengths of the runs before it plus
    one gap cell for each of them. *)
Definition earliestStart (runs : list Z) (i : nat) : Z :=
  sum (firstn i runs) + Z.of_nat i.

(** Latest start of run [i]: the line's length minus the runs from [i]
    on and the gaps among them. *)
Definition latestStart (length : Z) (runs : list Z) (i : nat) : Z :=
  length - (sum (skipn i runs) + (len runs - 1 - Z.of_nat i)).

(** The slack of a clue in a line. *)
Definition slack (length : Z) (runs : list Z) : Z :=
  length - (sum runs + len runs - 1).

(** All fillings of [n] cells by the runs [rs], as the spec words them:
    the runs appear in order, each a block of filled cells of its
    length, at least one empty cell between two consecutive runs, and no
    separator needed before the first run or after the last.  [off] is
    the number of empty cells in front of the first run. *)
Fixpoint fillings (rs : list Z) (n : Z) : list (list Z) :=
  match rs with
  | [] => [replicate 0 n]
  | r :: rs' =>
      flat_map
        (fun off =>
           map (fun q => replicate 0 off ++ replicate 1 r ++ q)
             (match rs' with
              | [] => [replicate 0 (n - off - r)]
              | _ :: _ => map (cons 0) (fillings rs' (n - off - r - 1))
              end))
        (range 0 (n - (sum rs + (len rs - 1)) + 1))
  end.

(** A 0/1 line [p] agrees with the knowledge vector [known]: wherever
    [known] is not [-1], [p] holds the same value. *)
Definition agrees (known p : list Z) : bool :=
  forallb (fun i => (item known i =? -1) || (item known i =? item p i))
    (range 0 (len known)).

(** The three cell states. *)
Definition cell_state (v : Z) : Prop := v = -1 \/ v = 0 \/ v = 1.

(** A cell of a pattern: empty or filled. *)
Definition bit (v : Z) : Prop := v = 0 \/ v = 1.

(** A legal pattern of a line, in the spec's words: a 0/1 line of the
    line's length whose maximal filled blocks, read in order, are the
    runs; it fills no cell the line marks Empty and fills every cell the
    line marks Filled. *)
Definition legal_pattern (length : Z) (runs known p : list Z) : Prop :=
  len p = length /\ Forall bit p /\
  _line_groups_of_ones p = runs /\
  forall i, 0 <= i < length ->
    (item known i = 0 -> item p i = 0) /\ (item known i = 1 -> item p i = 1).

(** Position [j] is filled in pattern [p]. *)
Definition filled_at (p : list Z) (j : Z) : bool :=
  (0 <=? j) && (item p j =? 1).

(** In how many of the patterns position [j] is filled. *)
Definition fill_count (patterns : list (list Z)) (j : Z) : Z :=
  len (filter (fun p => filled_at p j) patterns).

(** The subscripts [idxs] are in the bounds of [l]. *)
Definition in_bounds (l : list Z) (idxs : list Z) : Prop :=
  Forall (fun i => 0 <= i < len l) idxs.

(** The cell in row [i], column [j] of a grid, by position. *)
Definition cell (g : Grid) (i j : nat) : option Z :=
  match nth_error g i with
  | Some row => nth_error row j
  | None => None
  end.

(** The number of unknown cells of a grid. *)
Definition unknowns (g : Grid) : nat :=
  list_sum (map (fun row => count_occ Z.eq_dec row (-1)) g).

(** Every cell of the grid holds a cell state. *)
Definition grid_states (g : Grid) : Prop := Forall (Forall cell_state) g.

(** From [g] to [g'] every decided cell is still decided. *)
Definition keeps_decided (g g' : Grid) : Prop :=
  forall i j v, cell g i j = Some v -> bit v ->
    exists v', cell g' i j = Some v' /\ bit v'.

(** From [g] to [g'] every cell keeps its value or goes from unknown to
    empty or filled. *)
Definition only_decides (g g' : Grid) : Prop :=
  forall i j v, cell g i j = Some v ->
    cell g' i j = Some v \/
    (v = -1 /\ (cell g' i j = Some 0 \/ cell g' i j = Some 1)).

(** A grid of [n] rows of [n] cells. *)
Definition square (n : Z) (g : Grid) : Prop :=
  len g = n /\ Forall (fun row => len row = n) g.

(** From pass state [s] to [s']: cells only go from unknown to decided,
    the cells stay cell states, no unknown cell is added, and the flag
    [changed] is raised only when an unknown cell was decided. *)
Definition advance (s s' : PassState) : Prop :=
  only_decides (snd s) (snd s') /\
  grid_states (snd s') /\
  (unknowns (snd s') <= unknowns (snd s))%nat /\
  (fst s' = true ->
   fst s = true \/ (unknowns (snd s') < unknowns (snd s))%nat).

(** A puzzle as the data model has it: a size that is not negative, one
    clue per row and per column, and run lengths of at least one. *)
Definition valid_puzzle (puzzle : NonogramPuzzle) : Prop :=
  0 <= size puzzle /\
  len (rows puzzle) = size puzzle /\
  len (cols puzzle) = size puzzle /\
  Forall (Forall (fun r => 1 <= r)) (rows puzzle) /\
  Forall (Forall (fun r => 1 <= r)) (cols puzzle).

(** A working grid of the puzzle: [n] rows of [n] cell states. *)
Definition working_grid (n : Z) (g : Grid) : Prop :=
  square n g /\ grid_states g.

(** All 0/1 lines of [n] cells. *)
Fixpoint bit_lines (n : nat) : list (list Z) :=
  match n with
  | O => [[]]
  | S k => flat_map (fun l => [0 :: l; 1 :: l]) (bit_lines k)
  end.

(** All grids of [m] rows taken from [lines]. *)
Fixpoint grids_of (lines : list (list Z)) (m : nat) : list Grid :=
  match m with
  | O => [[]]
  | S k => flat_map (fun g => map (fun l => l :: g) lines) (grids_of lines k)
  end.

(** The validator accepts the grid. *)
Definition solves (puzzle : NonogramPuzzle) (g : Grid) : bool :=
  match is_puzzle_solved puzzle g with
  | Some true => true
  | _ => false
  end.

(** A puzzle on which propagation leaves every cell unknown: two
    diagonal fillings fit its clues. *)
Definition ambiguous_puzzle : NonogramPuzzle :=
  mkPuzzle 2 [[1]; [1]] [[1]; [1]].

(** A puzzle with one solution that propagation does not reach. *)
Definition guess_puzzle : NonogramPuzzle :=
  mkPuzzle 4 [[]; []; [2]; [1; 1]] [[1]; [1]; [1]; [1]].

Definition guess_solution : Grid :=
  [[0; 0; 0; 0]; [0; 0; 0; 0]; [0; 1; 1; 0]; [1; 0; 0; 1]].

(** A puzzle whose clues fit no line: every clue asks for three cells
    in a line of two. *)
Definition oversized_puzzle : NonogramPuzzle :=
  mkPuzzle 2 [[3]; [3]] [[3]; [3]].

(** A puzzle whose first row must be filled while its columns must be
    empty. *)
Definition clashing_puzzle : NonogramPuzzle :=
  mkPuzzle 2 [[2]; []] [[]; []].

(** From pass state [s] to [s'] the flag [changed] is still down only
    if nothing was written. *)
Definition quiet (s s' : PassState) : Prop := fst s' = false -> s' = s.

(** Row [r] of the grid, by position. *)
Definition row_at (g : Grid) (r : nat) : option (list Z) := nth_error g r.

(** Column [c] of the first [n] rows of the grid, by position. *)
Definition col_at (n : Z) (g : Grid) (c : nat) : option (list Z) :=
  column_of g (Z.of_nat c) (range 0 n).

(** A line meets a clue: its cells are 0 or 1 and its maximal filled
    blocks, read in order, are the runs. *)
Definition meets (line runs : list Z) : Prop :=
  Forall bit line /\ _line_groups_of_ones line = runs.

(** A solution of the puzzle: a grid of [size] rows of [size] cells that
    the validator accepts. *)
Definition solution (puzzle : NonogramPuzzle) (S : Grid) : Prop :=
  square (size puzzle) S /\ is_puzzle_solved puzzle S = Some true.

(** Grid [g] does not contradict grid [S]: every cell of [g] is unknown
    or holds what [S] holds there. *)
Definition compatible (g S : Grid) : Prop :=
  forall i j v, cell g i j = Some v -> v = -1 \/ cell S i j = Some v.

(** The common shape of the two report loops of the validator: read
    line [r], test it against its clue, append [r] when it fails. *)
Fixpoint report_loop (read : Z -> option (list Z)) (r : Z)
  (clues : list (list Z)) (bad : list Z) : option (list Z) :=
  match clues with
  | [] => Some bad
  | runs :: t =>
      line <- read r ;;
      if is_line_fully_known line && negb (does_line_satisfy_clues line runs)
      then report_loop read (r + 1) t (bad ++ [r])
      else report_loop read (r + 1) t bad
  end.

(** The common shape of the two clue loops of [is_puzzle_solved]. *)
Fixpoint satisfied_loop (read : Z -> option (list Z)) (r : Z)
  (clues : list (list Z)) : option bool :=
  match clues with
  | [] => Some true
  | runs :: t =>
      line <- read r ;;
      if negb (does_line_satisfy_clues line runs) then Some false
      else satisfied_loop read (r + 1) t
  end.

(** The state of a pass does not contradict the grid [S] and is a
    working grid of [n] rows. *)
Definition sound_state (n : Z) (S : Grid) (s : PassState) : Prop :=
  compatible (snd s) S /\ working_grid n (snd s).

(** From [g] to [g'] the unknown cells that [T] picks are filled and
    every other cell, present or missing, is as it was. *)
Definition fills (T : nat -> nat -> Prop) (g g' : Grid) : Prop :=
  forall i j,
    (cell g i j = None -> cell g' i j = None) /\
    forall v, cell g i j = Some v ->
      (v = -1 /\ T i j /\ cell g' i j = Some 1) \/
      (~ (v = -1 /\ T i j) /\ cell g' i j = Some v).

(** Cell (i, j) is forced by the overlap rule: the clue of its row
    forces position [j], or the clue of its column forces position
    [i]. *)
Definition overlap_forced (puzzle : NonogramPuzzle) (i j : nat) : Prop :=
  (exists runs, nth_error (rows puzzle) i = Some runs /\
     In (Z.of_nat j) (overlap_fill_line (size puzzle) runs)) \/
  (exists runs, nth_error (cols puzzle) j = Some runs /\
     In (Z.of_nat i) (overlap_fill_line (size puzzle) runs)).

(** The binomial coefficient, by Pascal's rule: the number of ways to
    choose [k] out of [n]. *)
Fixpoint choose (n k : nat) : nat :=
  match n, k with
  | _, O => 1
  | O, S _ => 0
  | S n', S k' => choose n' k' + choose n' k
  end.

(* ================================================================== *)
(** * Part III.  Properties                                            *)
(* ================================================================== *)

(** ** Facts about the Python built-ins *)

Section Builtins.

Lemma sum_acc (l : list Z) (a : Z) : fold_left Z.add l a = a + sum l.
Proof.
  unfold sum. revert a.
  induction l as [|x l IH]; intros a; simpl; [lia|].
  rewrite (IH (a + x)), (IH x). lia.
Qed.

Lemma sum_nil : sum [] = 0.
Proof. reflexivity. Qed.

Lemma sum_cons (x : Z) (l : list Z) : sum (x :: l) = x + sum l.
Proof. unfold sum at 1. simpl. apply sum_acc. Qed.

Lemma sum_app (l1 l2 : list Z) : sum (l1 ++ l2) = sum l1 + sum l2.
Proof.
  induction l1 as [|x l1 IH]; cbn [app]; [rewrite sum_nil; lia|].
  rewrite !sum_cons, IH. lia.
Qed.

Lemma sum_firstn_skipn (n : nat) (l : list Z) :
  sum (firstn n l) + sum (skipn n l) = sum l.
Proof. rewrite <- sum_app, firstn_skipn. reflexivity. Qed.

Lemma len_nonneg {A : Type} (l : list A) : 0 <= len l.
Proof. unfold len. lia. Qed.

Lemma len_cons {A : Type} (x : A) (l : list A) : len (x :: l) = len l + 1.
Proof. unfold len. simpl length. lia. Qed.

Lemma len_app {A : Type} (l1 l2 : list A) : len (l1 ++ l2) = len l1 + len l2.
Proof. unfold len. rewrite length_app. lia. Qed.

Lemma range_nil (lo hi : Z) : hi <= lo -> range lo hi = [].
Proof.
  intros H. unfold range. replace (Z.to_nat (hi - lo)) with O by lia.
  reflexivity.
Qed.

Lemma range_cons (lo hi : Z) : lo < hi -> range lo hi = lo :: range (lo + 1) hi.
Proof.
  intros H. unfold range.
  replace (Z.to_nat (hi - lo)) with (S (Z.to_nat (hi - (lo + 1)))) by lia.
  simpl. f_equal; [lia|].
  rewrite <- seq_shift, map_map. apply map_ext. intros n. lia.
Qed.

Lemma range_snoc (lo hi : Z) : lo <= hi -> range lo (hi + 1) = range lo hi ++ [hi].
Proof.
  intros H. unfold range.
  replace (Z.to_nat (hi + 1 - lo)) with (Z.to_nat (hi - lo) + 1)%nat by lia.
  rewrite seq_app, map_app. simpl. do 2 f_equal. lia.
Qed.

Lemma In_range (lo hi i : Z) : In i (range lo hi) <-> lo <= i < hi.
Proof.
  unfold range. rewrite in_map_iff. split.
  - intros (n & <- & Hn). apply in_seq in Hn. lia.
  - intros H. exists (Z.to_nat (i - lo)). split; [lia|].
    apply in_seq. lia.
Qed.

Lemma length_range (lo hi : Z) : length (range lo hi) = Z.to_nat (hi - lo).
Proof. unfold range. rewrite length_map, length_seq. reflexivity. Qed.

Lemma range_split (lo mid hi : Z) :
  lo <= mid <= hi -> range lo hi = range lo mid ++ range mid hi.
Proof.
  intros H. remember (Z.to_nat (mid - lo)) as n eqn:Hn.
  revert lo H Hn. induction n as [|n IH]; intros lo H Hn.
  - replace mid with lo by lia. rewrite (range_nil lo lo) by lia. reflexivity.
  - rewrite (range_cons lo hi), (range_cons lo mid) by lia.
    simpl. f_equal. apply IH; lia.
Qed.

Lemma length_replicate {A : Type} (v : A) (n : Z) :
  length (replicate v n) = Z.to_nat n.
Proof. unfold replicate. apply repeat_length. Qed.

Lemma norm_index_in {A : Type} (l : list A) (i : Z) :
  0 <= i < len l -> norm_index l i = Some (Z.to_nat i).
Proof.
  intros H. unfold norm_index.
  destruct (Z.ltb_spec i 0); [lia|].
  destruct (Z.leb_spec 0 i); [|lia].
  destruct (Z.ltb_spec i (len l)); [|lia].
  reflexivity.
Qed.

Lemma getitem_in {A : Type} (l : list A) (i : Z) :
  0 <= i < len l -> getitem l i = nth_error l (Z.to_nat i).
Proof. intros H. unfold getitem. rewrite norm_index_in by assumption. reflexivity. Qed.

Lemma getitem_nth (l : list Z) (i : Z) (d : Z) :
  0 <= i < len l -> getitem l i = Some (nth (Z.to_nat i) l d).
Proof.
  intros H. rewrite getitem_in by assumption.
  apply nth_error_nth'. unfold len in H. lia.
Qed.

Lemma item_nth (l : list Z) (i : Z) (d : Z) :
  0 <= i < len l -> item l i = nth (Z.to_nat i) l d.
Proof. intros H. unfold item. rewrite (getitem_nth l i d) by assumption. reflexivity. Qed.

Lemma setitem_in {A : Type} (l : list A) (i : Z) (v : A) :
  0 <= i < len l -> setitem l i v = Some (update_nth l (Z.to_nat i) v).
Proof. intros H. unfold setitem. rewrite norm_index_in by assumption. reflexivity. Qed.

Lemma norm_index_bound {A : Type} (l : list A) (i : Z) (n : nat) :
  norm_index l i = Some n -> (n < length l)%nat.
Proof.
  unfold norm_index, len. intros H.
  destruct (Z.ltb_spec i 0);
    match type of H with (if ?c then _ else _) = _ =>
      destruct c eqn:E; [|discriminate] end;
    apply andb_true_iff in E; destruct E as [E1 E2];
    apply Z.leb_le in E1; apply Z.ltb_lt in E2;
    injection H as <-; lia.
Qed.

Lemma length_update_nth {A : Type} (l : list A) (n : nat) (v : A) :
  length (update_nth l n v) = length l.
Proof.
  revert n. induction l as [|h t IH]; intros [|n]; simpl; auto.
Qed.

Lemma nth_error_update_nth {A : Type} (l : list A) (n m : nat) (v : A) :
  nth_error (update_nth l n v) m =
  if Nat.eqb n m then (if Nat.ltb n (length l) then Some v else None)
  else nth_error l m.
Proof.
  revert n m. induction l as [|h t IH]; intros n m.
  - destruct n, m; simpl; try reflexivity.
    destruct (Nat.eqb n m); reflexivity.
  - destruct n as [|n], m as [|m]; simpl; try reflexivity.
    rewrite IH. destruct (Nat.eqb n m); [|reflexivity].
    change (S n <? S (length t))%nat with (n <? length t)%nat. reflexivity.
Qed.

Lemma nth_update_nth (l : list Z) (n m : nat) (v d : Z) :
  nth m (update_nth l n v) d =
  if Nat.eqb n m then (if Nat.ltb n (length l) then v else d) else nth m l d.
Proof.
  revert n m. induction l as [|h t IH]; intros n m.
  - destruct n, m; simpl; try reflexivity.
    destruct (Nat.eqb n m); reflexivity.
  - destruct n as [|n], m as [|m]; simpl; try reflexivity.
    rewrite IH. destruct (Nat.eqb n m); [|reflexivity].
    change (S n <? S (length t))%nat with (n <? length t)%nat. reflexivity.
Qed.

Lemma insert_unique_In (x y : Z) (l : list Z) :
  In y (insert_unique x l) <-> y = x \/ In y l.
Proof.
  induction l as [|h t IH]; simpl.
  - intuition.
  - destruct (Z.ltb_spec x h); simpl; [intuition|].
    destruct (Z.eqb_spec x h); simpl; [subst; intuition|].
    rewrite IH. intuition.
Qed.

Lemma insert_unique_sorted (x : Z) (l : list Z) :
  StronglySorted Z.lt l -> StronglySorted Z.lt (insert_unique x l).
Proof.
  induction l as [|h t IH]; intros Hs; simpl.
  - constructor; constructor.
  - inversion Hs as [|? ? Ht Hall]; subst.
    destruct (Z.ltb_spec x h).
    + constructor; [assumption|].
      constructor; [assumption|].
      rewrite Forall_forall in *. intros z Hz. specialize (Hall z Hz). lia.
    + destruct (Z.eqb_spec x h); [assumption|].
      constructor; [auto|].
      rewrite Forall_forall in *. intros z Hz.
      apply insert_unique_In in Hz. destruct Hz as [->|Hz]; [lia|auto].
Qed.

Lemma sorted_set_In (l : list Z) (x : Z) : In x (sorted_set l) <-> In x l.
Proof.
  induction l as [|h t IH]; simpl; [tauto|].
  rewrite insert_unique_In, IH. intuition.
Qed.

Lemma sorted_set_sorted (l : list Z) : StronglySorted Z.lt (sorted_set l).
Proof.
  induction l as [|h t IH]; simpl; [constructor|].
  apply insert_unique_sorted. assumption.
Qed.

End Builtins.

(** ** The overlap deducer of one line *)

Lemma sum_firstn_succ (l : list Z) (j : nat) :
  (j < length l)%nat ->
  sum (firstn (S j) l) = sum (firstn j l) + nth j l 0.
Proof.
  revert j. induction l as [|r t IH]; intros j Hj; simpl in Hj; [lia|].
  destruct j as [|j].
  - simpl. rewrite sum_cons, !sum_nil. lia.
  - rewrite !firstn_cons. change (nth (S j) (r :: t) 0) with (nth j t 0).
    rewrite !sum_cons, IH by lia. lia.
Qed.

Section OverlapLine.

Variable L : Z.
Variable runs : list Z.

Lemma item_of_nat (l : list Z) (i : nat) :
  (i < length l)%nat -> item l (Z.of_nat i) = nth i l 0.
Proof.
  intros H. rewrite (item_nth l _ 0) by (unfold len; lia).
  rewrite Nat2Z.id. reflexivity.
Qed.

(** The table built by the prefix loop after its first [j] iterations. *)
Lemma prefix_loop_invariant (j : nat) :
  (j <= length runs)%nat ->
  let pref :=
    fold_left
      (fun pref i =>
         update_nth pref (Z.to_nat i) (item pref (i - 1) + item runs (i - 1)))
      (range 1 (Z.of_nat j + 1))
      (replicate 0 (len runs + 1)) in
  length pref = S (length runs) /\
  forall m, (m <= j)%nat -> nth m pref 0 = sum (firstn m runs).
Proof.
  induction j as [|j IH]; intros Hj; cbv zeta.
  - rewrite range_nil by lia. simpl. split.
    + rewrite length_replicate. unfold len. lia.
    + intros m Hm. replace m with O by lia. unfold replicate.
      replace (Z.to_nat (len runs + 1)) with (S (length runs))
        by (unfold len; lia).
      reflexivity.
  - replace (Z.of_nat (S j) + 1) with ((Z.of_nat j + 1) + 1) by lia.
    rewrite range_snoc by lia. rewrite fold_left_app. cbn [fold_left].
    destruct (IH ltac:(lia)) as [Hlen Hnth]. cbv zeta in Hlen, Hnth.
    set (pref := fold_left _ (range 1 (Z.of_nat j + 1)) _) in *.
    split; [rewrite length_update_nth; exact Hlen|].
    intros m Hm. rewrite nth_update_nth.
    replace (Z.of_nat j + 1 - 1) with (Z.of_nat j) by lia.
    replace (Z.to_nat (Z.of_nat j + 1)) with (S j) by lia.
    destruct (Nat.eqb_spec (S j) m) as [<-|Hne].
    + destruct (Nat.ltb_spec (S j) (length pref)); [|lia].
      rewrite !item_of_nat by lia. rewrite Hnth by lia.
      symmetry. apply sum_firstn_succ. lia.
    + apply Hnth. lia.
Qed.

Lemma prefix_sums_spec (i : nat) :
  (i <= length runs)%nat ->
  item (prefix_sums runs) (Z.of_nat i) = sum (firstn i runs).
Proof.
  intros Hi. unfold prefix_sums.
  destruct (prefix_loop_invariant (length runs) (Nat.le_refl _)) as [Hlen Hnth].
  cbv zeta in Hlen, Hnth. fold (len runs) in Hlen, Hnth.
  rewrite item_of_nat by (rewrite Hlen; lia).
  apply Hnth. exact Hi.
Qed.

(** Membership in the list accumulated by the loop over the runs. *)
Lemma overlap_loop_In (pref : list Z) (k S : Z) (idxs acc : list Z) (x : Z) :
  In x (fold_left (overlap_step L runs pref k S) idxs acc) <->
  In x acc \/
  exists i, In i idxs /\ item runs i - S > 0 /\
    L - ((item pref k - item pref i) + (k - 1 - i)) <= x
      <= item pref i + i + item runs i - 1.
Proof.
  revert acc. induction idxs as [|i t IH]; intros acc; cbn [fold_left].
  - split; [auto|]. intros [H|(i & [] & _)]. exact H.
  - rewrite IH. unfold overlap_step.
    destruct (Z.leb_spec (item runs i - S) 0) as [Hov|Hov].
    + split.
      * intros [H|(j & Hj & H)]; [auto|].
        right. exists j. split; [right; exact Hj|exact H].
      * intros [H|(j & [<-|Hj] & H)]; [auto|lia|].
        right. exists j. split; assumption.
    + match goal with |- context [if ?c then _ else _] => destruct c eqn:E end.
      * rewrite in_app_iff, In_range. apply Z.leb_le in E. split.
        -- intros [[H|H]|(j & Hj & H)]; [auto| |].
           ++ right. exists i. split; [left; reflexivity|]. lia.
           ++ right. exists j. split; [right; exact Hj|exact H].
        -- intros [H|(j & [<-|Hj] & H)]; [auto| |].
           ++ left. right. lia.
           ++ right. exists j. split; assumption.
      * apply Z.leb_gt in E. split.
        -- intros [H|(j & Hj & H)]; [auto|].
           right. exists j. split; [right; exact Hj|exact H].
        -- intros [H|(j & [<-|Hj] & H)]; [auto|lia|].
           right. exists j. split; assumption.
Qed.

End OverlapLine.

(** What [overlap_fill_line] returns for a non-empty run list. *)
Lemma overlap_fill_line_members (L : Z) (runs : list Z) :
  runs <> [] ->
  (0 <= slack L runs ->
     StronglySorted Z.lt (overlap_fill_line L runs) /\
     forall x, In x (overlap_fill_line L runs) <->
       exists i, (i < length runs)%nat /\
         nth i runs 0 - slack L runs > 0 /\
         latestStart L runs i <= x <= earliestStart runs i + nth i runs 0 - 1)
  /\ (slack L runs < 0 -> overlap_fill_line L runs = []).
Proof.
  intros Hne. destruct runs as [|r0 rest] eqn:Eruns; [congruence|].
  rewrite <- Eruns in *. clear Hne.
  assert (Hof : overlap_fill_line L runs =
                if L - (sum runs + (len runs - 1)) <? 0 then []
                else sorted_set
                       (fold_left
                          (overlap_step L runs (prefix_sums runs) (len runs)
                             (L - (sum runs + (len runs - 1))))
                          (range 0 (len runs)) [])).
  { rewrite Eruns. reflexivity. }
  rewrite Hof. clear Hof Eruns r0 rest.
  unfold slack.
  replace (L - (sum runs + len runs - 1)) with (L - (sum runs + (len runs - 1)))
    by lia.
  set (S := L - (sum runs + (len runs - 1))).
  split.
  - intros HS. destruct (Z.ltb_spec S 0); [lia|].
    split; [apply sorted_set_sorted|].
    intros x. rewrite sorted_set_In, overlap_loop_In.
    assert (Hk : item (prefix_sums runs) (len runs) = sum runs).
    { unfold len. rewrite prefix_sums_spec by lia.
      rewrite firstn_all. reflexivity. }
    split.
    + intros [[]|(i & Hi & Hov & Hx)].
      apply In_range in Hi. exists (Z.to_nat i).
      assert (Hi' : (Z.to_nat i < length runs)%nat) by (unfold len in Hi; lia).
      replace i with (Z.of_nat (Z.to_nat i)) in Hov, Hx by lia.
      rewrite (item_of_nat runs) in Hov, Hx by exact Hi'.
      rewrite Hk, prefix_sums_spec in Hx by lia.
      pose proof (sum_firstn_skipn (Z.to_nat i) runs) as Hsplit.
      unfold latestStart, earliestStart.
      split; [exact Hi'|]. split; [exact Hov|]. lia.
    + intros (i & Hi & Hov & Hx). right. exists (Z.of_nat i).
      rewrite In_range, (item_of_nat runs), Hk, prefix_sums_spec by lia.
      pose proof (sum_firstn_skipn i runs) as Hsplit.
      unfold latestStart, earliestStart in Hx. unfold len.
      split; [lia|]. split; [exact Hov|]. unfold len in Hx. lia.
  - intros HS. destruct (Z.ltb_spec S 0); [reflexivity|lia].
Qed.

(** C4.  For a non-empty run list, [overlap_fill_line] returns, when the
    slack [S] is not negative, the ascending duplicate-free list whose
    members are exactly the cells of the ranges
    [latestStart i .. earliestStart i + runs[i] - 1] of the runs [i]
    with [runs[i] - S > 0]; and it returns the empty list when [S < 0]. *)
Theorem overlap_fill_line_spec (L : Z) (runs : list Z) :
  runs <> [] ->
  (0 <= slack L runs ->
     StronglySorted Z.lt (overlap_fill_line L runs) /\
     forall x, In x (overlap_fill_line L runs) <->
       exists i, (i < length runs)%nat /\
         nth i runs 0 - slack L runs > 0 /\
         latestStart L runs i <= x <= earliestStart runs i + nth i runs 0 - 1)
  /\ (slack L runs < 0 -> overlap_fill_line L runs = []).
Proof. exact (overlap_fill_line_members L runs). Qed.

(** The clue [[3, 1]] in a line of five cells: a non-empty run list with
    slack zero. *)
Lemma overlap_fill_line_spec_witness :
  (0 <= slack 5 [3; 1] ->
     StronglySorted Z.lt (overlap_fill_line 5 [3; 1]) /\
     forall x, In x (overlap_fill_line 5 [3; 1]) <->
       exists i, (i < length [3; 1])%nat /\
         nth i [3; 1] 0 - slack 5 [3; 1] > 0 /\
         latestStart 5 [3; 1] i <= x
           <= earliestStart [3; 1] i + nth i [3; 1] 0 - 1)
  /\ (slack 5 [3; 1] < 0 -> overlap_fill_line 5 [3; 1] = []).
Proof.
  apply (overlap_fill_line_spec 5 [3; 1]). discriminate.
Defined.

(** ** List surgery behind the scratch line of [place] *)

Section ListSurgery.

Context {A : Type}.

Lemma getitem_middle (a c : list A) (x : A) :
  getitem (a ++ x :: c) (len a) = Some x.
Proof.
  rewrite getitem_in.
  - unfold len. rewrite Nat2Z.id. rewrite nth_error_app2 by lia.
    rewrite Nat.sub_diag. reflexivity.
  - unfold len. rewrite length_app. simpl. lia.
Qed.

Lemma update_nth_middle (a c : list A) (x v : A) :
  update_nth (a ++ x :: c) (length a) v = a ++ v :: c.
Proof. induction a as [|h a IH]; simpl; [reflexivity|]. rewrite IH. reflexivity. Qed.

Lemma setitem_middle (a c : list A) (x v : A) :
  setitem (a ++ x :: c) (len a) v = Some (a ++ v :: c).
Proof.
  rewrite setitem_in.
  - unfold len. rewrite Nat2Z.id, update_nth_middle. reflexivity.
  - unfold len. rewrite length_app. simpl. lia.
Qed.

Lemma norm_bound_in (l : list A) (i : Z) :
  0 <= i <= len l -> norm_bound l i = Z.to_nat i.
Proof.
  intros H. unfold norm_bound. destruct (Z.ltb_spec i 0); lia.
Qed.

Lemma slice_middle (a b c : list A) :
  slice (a ++ b ++ c) (len a) (len a + len b) = b.
Proof.
  unfold slice.
  rewrite !norm_bound_in by (rewrite !len_app; pose proof (len_nonneg a);
    pose proof (len_nonneg b); pose proof (len_nonneg c); lia).
  unfold len. rewrite Nat2Z.id.
  replace (Z.to_nat (Z.of_nat (length a) + Z.of_nat (length b)) - length a)%nat
    with (length b) by lia.
  rewrite skipn_app, skipn_all, Nat.sub_diag. simpl.
  rewrite firstn_app, firstn_all, Nat.sub_diag. simpl. apply app_nil_r.
Qed.

Lemma set_slice_middle (a b c v : list A) :
  set_slice (a ++ b ++ c) (len a) (len a + len b) v = a ++ v ++ c.
Proof.
  unfold set_slice.
  rewrite !norm_bound_in by (rewrite !len_app; pose proof (len_nonneg a);
    pose proof (len_nonneg b); pose proof (len_nonneg c); lia).
  unfold len. rewrite Nat2Z.id.
  replace (Nat.max (length a) (Z.to_nat (Z.of_nat (length a) + Z.of_nat (length b))))
    with (length a + length b)%nat by lia.
  rewrite firstn_app, firstn_all, Nat.sub_diag. simpl. rewrite app_nil_r.
  do 2 f_equal.
  rewrite app_assoc, skipn_app, skipn_all2 by (rewrite length_app; lia).
  rewrite length_app, Nat.sub_diag. reflexivity.
Qed.

Lemma replicate_add (v : A) (m n : Z) :
  0 <= m -> 0 <= n -> replicate v (m + n) = replicate v m ++ replicate v n.
Proof.
  intros Hm Hn. unfold replicate. rewrite Z2Nat.inj_add by assumption.
  apply repeat_app.
Qed.

Lemma replicate_succ (v : A) (n : Z) :
  0 <= n -> replicate v (n + 1) = v :: replicate v n.
Proof.
  intros Hn. unfold replicate.
  replace (Z.to_nat (n + 1)) with (S (Z.to_nat n)) by lia. reflexivity.
Qed.

Lemma len_replicate (v : A) (n : Z) : 0 <= n -> len (replicate v n) = n.
Proof. intros H. unfold len. rewrite length_replicate. lia. Qed.

End ListSurgery.

Lemma write_block_middle (a b c : list Z) :
  write_block (a ++ b ++ c) (len a) (len b) =
  Some (a ++ replicate 1 (len b) ++ c).
Proof.
  unfold write_block. revert a.
  induction b as [|x b IH]; intros a.
  - rewrite range_nil by (unfold len; simpl; lia). reflexivity.
  - rewrite range_cons by (rewrite len_cons; pose proof (len_nonneg b); lia).
    cbn [for_each app]. rewrite setitem_middle. cbn [bind].
    specialize (IH (a ++ [1])).
    rewrite len_app in IH. change (len [1]) with 1 in IH.
    rewrite <- !app_assoc in IH. cbn [app] in IH.
    rewrite len_cons. replace (len a + (len b + 1)) with (len a + 1 + len b) by lia.
    rewrite IH. rewrite replicate_succ by apply len_nonneg. reflexivity.
Qed.

(** ** The three scans of [place] on subscripts that are in bounds *)

Section Scans.

Variable known : list Z.

Lemma in_bounds_range (l : list Z) (lo hi : Z) :
  0 <= lo -> hi <= len l -> in_bounds l (range lo hi).
Proof.
  intros Hlo Hhi. apply Forall_forall. intros i Hi. apply In_range in Hi. lia.
Qed.

Lemma getitem_item (l : list Z) (i : Z) :
  0 <= i < len l -> getitem l i = Some (item l i).
Proof.
  intros H. unfold item. rewrite (getitem_nth l i 0) by assumption. reflexivity.
Qed.

Lemma no_known_empty_spec (idxs : list Z) :
  in_bounds known idxs ->
  no_known_empty known idxs =
  Some (forallb (fun i => negb (item known i =? 0)) idxs).
Proof.
  induction idxs as [|i t IH]; intros Hb; [reflexivity|].
  inversion Hb as [|? ? Hi Ht]; subst.
  cbn [no_known_empty forallb]. rewrite getitem_item by assumption. cbn [bind].
  destruct (item known i =? 0); [reflexivity|]. exact (IH Ht).
Qed.

Lemma all_consistent_spec (line idxs : list Z) :
  in_bounds known idxs -> in_bounds line idxs ->
  all_consistent known line idxs =
  Some (forallb (fun i => (item known i =? -1) || (item known i =? item line i))
          idxs).
Proof.
  induction idxs as [|i t IH]; intros Hk Hl; [reflexivity|].
  inversion Hk as [|? ? Hi Ht]; subst. inversion Hl as [|? ? Hi' Ht']; subst.
  cbn [all_consistent forallb]. rewrite getitem_item by assumption. cbn [bind].
  destruct (item known i =? -1); cbn [orb]; [exact (IH Ht Ht')|].
  rewrite getitem_item by assumption. cbn [bind].
  destruct (item known i =? item line i); [exact (IH Ht Ht')|reflexivity].
Qed.

Lemma known_filled_covered_spec (line idxs : list Z) :
  in_bounds known idxs -> in_bounds line idxs ->
  known_filled_covered known line idxs =
  Some (forallb (fun i => negb (item known i =? 1) || (item line i =? 1)) idxs).
Proof.
  induction idxs as [|i t IH]; intros Hk Hl; [reflexivity|].
  inversion Hk as [|? ? Hi Ht]; subst. inversion Hl as [|? ? Hi' Ht']; subst.
  cbn [known_filled_covered forallb]. rewrite getitem_item by assumption.
  cbn [bind].
  destruct (item known i =? 1); cbn [negb orb]; [|exact (IH Ht Ht')].
  rewrite getitem_item by assumption. cbn [bind].
  destruct (item line i =? 1); cbn [negb]; [exact (IH Ht Ht')|reflexivity].
Qed.

Lemma consistent_fill_spec (line : list Z) :
  len line = len known ->
  consistent_fill (len known) known line = Some (agrees known line).
Proof.
  intros Hlen. unfold consistent_fill, agrees. apply all_consistent_spec.
  - apply in_bounds_range; lia.
  - apply in_bounds_range; lia.
Qed.

Lemma agrees_spec (p : list Z) :
  agrees known p = true <->
  forall i, 0 <= i < len known ->
    item known i = -1 \/ item known i = item p i.
Proof.
  unfold agrees. rewrite forallb_forall. split.
  - intros H i Hi. specialize (H i (proj2 (In_range _ _ _) Hi)).
    apply orb_true_iff in H. destruct H as [H|H]; apply Z.eqb_eq in H; auto.
  - intros H i Hi. apply In_range in Hi. apply orb_true_iff.
    destruct (H i Hi) as [E|E]; [left|right]; apply Z.eqb_eq; exact E.
Qed.

End Scans.

(** ** Reading cells of a line given in pieces *)

Section Pieces.

Lemma item_app_l (a b : list Z) (j : Z) :
  0 <= j < len a -> item (a ++ b) j = item a j.
Proof.
  intros H. rewrite (item_nth (a ++ b) j 0), (item_nth a j 0).
  - apply app_nth1. unfold len in H. lia.
  - exact H.
  - rewrite len_app. pose proof (len_nonneg b). lia.
Qed.

Lemma item_out (a : list Z) (j : Z) : len a <= j -> item a j = 0.
Proof.
  intros H. unfold item, getitem, norm_index.
  pose proof (len_nonneg a).
  destruct (Z.ltb_spec j 0); [lia|].
  destruct (Z.leb_spec 0 j); [|lia].
  destruct (Z.ltb_spec j (len a)); [lia|]. reflexivity.
Qed.

Lemma item_app_r (a b : list Z) (j : Z) :
  len a <= j -> item (a ++ b) j = item b (j - len a).
Proof.
  intros H. pose proof (len_nonneg a).
  destruct (Z_lt_le_dec (j - len a) (len b)) as [Hlt|Hge].
  - rewrite (item_nth (a ++ b) j 0), (item_nth b (j - len a) 0).
    + rewrite app_nth2 by (unfold len in *; lia).
      f_equal. unfold len. lia.
    + lia.
    + rewrite len_app. lia.
  - rewrite !item_out; [reflexivity|lia|rewrite len_app; lia].
Qed.

Lemma item_replicate (v : Z) (n j : Z) :
  0 <= j < n -> item (replicate v n) j = v.
Proof.
  intros H. rewrite (item_nth _ j 0) by (rewrite len_replicate; lia).
  unfold replicate. apply nth_repeat_lt. lia.
Qed.

Lemma item_cons_0 (x : Z) (l : list Z) : item (x :: l) 0 = x.
Proof. reflexivity. Qed.

(** A line made of a prefix, [off] empty cells, a block of [r] filled
    cells and a tail: what it holds in each part. *)
Lemma item_pieces_front (pre q : list Z) (off r j : Z) :
  0 <= off -> len pre <= j < len pre + off ->
  item (pre ++ replicate 0 off ++ replicate 1 r ++ q) j = 0.
Proof.
  intros Hoff Hj. rewrite item_app_r by lia.
  rewrite item_app_l by (rewrite len_replicate; lia).
  apply item_replicate. lia.
Qed.

Lemma item_pieces_block (pre q : list Z) (off r j : Z) :
  0 <= off -> 0 <= r -> len pre + off <= j < len pre + off + r ->
  item (pre ++ replicate 0 off ++ replicate 1 r ++ q) j = 1.
Proof.
  intros Hoff Hr Hj. rewrite item_app_r by lia.
  rewrite item_app_r by (rewrite len_replicate; lia).
  rewrite len_replicate by lia.
  rewrite item_app_l by (rewrite len_replicate; lia).
  apply item_replicate. lia.
Qed.

Lemma item_pieces_gap (pre q : list Z) (off r x : Z) :
  0 <= off -> 0 <= r ->
  item (pre ++ replicate 0 off ++ replicate 1 r ++ x :: q) (len pre + off + r) = x.
Proof.
  intros Hoff Hr. pose proof (len_nonneg pre).
  rewrite item_app_r by lia.
  rewrite item_app_r by (rewrite len_replicate; lia).
  rewrite len_replicate by lia.
  rewrite item_app_r by (rewrite len_replicate; lia).
  rewrite len_replicate by lia.
  replace (len pre + off + r - len pre - off - r) with 0 by lia.
  reflexivity.
Qed.

Lemma sum_ge_len (l : list Z) : Forall (fun r => 1 <= r) l -> len l <= sum l.
Proof.
  induction 1 as [|r t Hr Ht IH]; [unfold len; rewrite sum_nil; simpl; lia|].
  rewrite len_cons, sum_cons. lia.
Qed.

Lemma slice_to_end {A : Type} (l : list A) (i : nat) :
  (i <= length l)%nat -> slice l (Z.of_nat i) (len l) = skipn i l.
Proof.
  intros H. unfold slice.
  rewrite !norm_bound_in by (unfold len; lia).
  unfold len. rewrite !Nat2Z.id.
  apply firstn_all2. rewrite length_skipn. lia.
Qed.

Lemma skipn_uncons (l : list Z) (i : nat) :
  (i < length l)%nat ->
  exists r rest, skipn i l = r :: rest /\ skipn (S i) l = rest /\
    getitem l (Z.of_nat i) = Some r /\
    len l = Z.of_nat i + 1 + len rest.
Proof.
  revert i. induction l as [|h t IH]; intros i Hi; simpl in Hi; [lia|].
  destruct i as [|i].
  - exists h, t. repeat split. rewrite len_cons. lia.
  - destruct (IH i ltac:(lia)) as (r & rest & E1 & E2 & E3 & E4).
    exists r, rest. split; [exact E1|]. split; [exact E2|]. split.
    + rewrite getitem_in by (rewrite len_cons; unfold len; lia).
      rewrite getitem_in in E3 by (unfold len; lia).
      rewrite Nat2Z.id in *. exact E3.
    + rewrite len_cons, E4. lia.
Qed.

Lemma filter_none {A : Type} (f : A -> bool) (l : list A) :
  (forall x, In x l -> f x = false) -> filter f l = [].
Proof.
  induction l as [|x t IH]; intros H; [reflexivity|].
  simpl. rewrite (H x) by (left; reflexivity).
  apply IH. intros y Hy. apply H. right. exact Hy.
Qed.

Lemma filter_map_flat_map {A B C : Type} (f : C -> bool) (h : B -> C)
  (k : A -> list B) (xs : list A) :
  filter f (map h (flat_map k xs)) =
  flat_map (fun x => filter f (map h (k x))) xs.
Proof.
  induction xs as [|x t IH]; [reflexivity|].
  simpl. rewrite map_app, filter_app, IH. reflexivity.
Qed.

Lemma range_shift (lo hi : Z) : range lo hi = map (Z.add lo) (range 0 (hi - lo)).
Proof.
  unfold range. rewrite map_map. rewrite Z.sub_0_r.
  apply map_ext. intros n. lia.
Qed.

Lemma flat_map_map {A B C : Type} (f : A -> B) (g : B -> list C) (l : list A) :
  flat_map g (map f l) = flat_map (fun x => g (f x)) l.
Proof.
  induction l as [|x t IH]; [reflexivity|]. simpl. rewrite IH. reflexivity.
Qed.

Lemma for_each_yield {X : Type} (xs : list X)
  (body : X -> PlaceState -> option PlaceState)
  (g : X -> list (list Z)) (line : list Z) :
  (forall x, In x xs ->
     forall out, body x (out, line) = Some (out ++ g x, line)) ->
  forall out, for_each xs body (out, line) = Some (out ++ flat_map g xs, line).
Proof.
  induction xs as [|x t IH]; intros Hbody out.
  - simpl. rewrite app_nil_r. reflexivity.
  - cbn [for_each flat_map]. rewrite Hbody by (left; reflexivity). cbn [bind].
    rewrite IH by (intros y Hy; apply Hbody; right; exact Hy).
    rewrite app_assoc. reflexivity.
Qed.

End Pieces.

(** ** The generator yields exactly the agreeing fillings *)

Lemma write_block_at (a b c : list Z) (p r : Z) :
  len a = p -> len b = r ->
  write_block (a ++ b ++ c) p r = Some (a ++ replicate 1 r ++ c).
Proof. intros <- <-. apply write_block_middle. Qed.

Lemma slice_at {A : Type} (a b c : list A) (p r : Z) :
  len a = p -> len b = r -> slice (a ++ b ++ c) p (p + r) = b.
Proof. intros <- <-. apply slice_middle. Qed.

Lemma set_slice_at {A : Type} (a b c v : list A) (p r : Z) :
  len a = p -> len b = r -> set_slice (a ++ b ++ c) p (p + r) v = a ++ v ++ c.
Proof. intros <- <-. apply set_slice_middle. Qed.

Lemma getitem_at {A : Type} (a c : list A) (x : A) (p : Z) :
  len a = p -> getitem (a ++ x :: c) p = Some x.
Proof. intros <-. apply getitem_middle. Qed.

Lemma setitem_at {A : Type} (a c : list A) (x v : A) (p : Z) :
  len a = p -> setitem (a ++ x :: c) p v = Some (a ++ v :: c).
Proof. intros <-. apply setitem_middle. Qed.

Lemma consistent_fill_at (L : Z) (known line : list Z) :
  len known = L -> len line = L ->
  consistent_fill L known line = Some (agrees known line).
Proof. intros <- H. apply consistent_fill_spec. exact H. Qed.

Lemma item_pieces_gap_at (pre q : list Z) (off r x j : Z) :
  0 <= off -> 0 <= r -> j = len pre + off + r ->
  item (pre ++ replicate 0 off ++ replicate 1 r ++ x :: q) j = x.
Proof. intros Hoff Hr ->. apply item_pieces_gap; assumption. Qed.

Section PlaceRefines.

Variable L : Z.
Variables runs known : list Z.
Hypothesis Hknown : len known = L.
Hypothesis Hruns : Forall (fun r => 1 <= r) runs.

Lemma place_refines (depth : nat) :
  forall (i : nat) (pos : Z) (out : list (list Z)) (pre : list Z),
    (i < length runs)%nat -> depth = (length runs - i)%nat ->
    0 <= pos <= L -> len pre = pos ->
    place depth L runs known (Z.of_nat i) pos
      (out, pre ++ replicate 0 (L - pos)) =
    Some (out ++ filter (agrees known)
                   (map (app pre) (fillings (skipn i runs) (L - pos))),
          pre ++ replicate 0 (L - pos)).
Proof.
  induction depth as [|depth IH]; intros i pos out pre Hi Hd Hpos Hpre; [lia|].
  destruct (skipn_uncons runs i Hi) as (r & rest & Esk & Esk' & Eget & Elen).
  assert (Hall : Forall (fun r => 1 <= r) (r :: rest)).
  { rewrite <- Esk. apply Forall_forall. intros x Hx.
    rewrite Forall_forall in Hruns. apply Hruns.
    rewrite <- (firstn_skipn i runs). apply in_or_app. right. exact Hx. }
  inversion Hall as [|? ? Hr Hrest]; subst x l.
  pose proof (sum_ge_len rest Hrest) as Hsum.
  pose proof (len_nonneg rest) as Hlrest.
  cbn [place]. rewrite Eget. cbn [bind].
  rewrite slice_to_end by lia. rewrite Esk.
  replace (len runs - 1 - Z.of_nat i) with (len (r :: rest) - 1)
    by (rewrite len_cons; lia).
  set (rem := sum (r :: rest) + (len (r :: rest) - 1)).
  assert (Hrem : rem = r + sum rest + len rest).
  { unfold rem. rewrite sum_cons, len_cons. lia. }
  rewrite for_each_yield with
    (g := fun position =>
            filter (agrees known)
              (map (app pre)
                 (map (fun q => replicate 0 (position - pos) ++ replicate 1 r ++ q)
                    (match rest with
                     | [] => [replicate 0 (L - pos - (position - pos) - r)]
                     | _ :: _ =>
                         map (cons 0)
                           (fillings rest (L - pos - (position - pos) - r - 1))
                     end)))).
  - f_equal. f_equal. f_equal.
    cbn [fillings]. fold rem.
    rewrite filter_map_flat_map.
    rewrite (range_shift pos), flat_map_map.
    replace (L - rem + 1 - pos) with (L - pos - rem + 1) by lia.
    apply flat_map_ext. intros off.
    replace (pos + off - pos) with off by lia. reflexivity.
  - intros position Hposn out'. apply In_range in Hposn.
    set (off := position - pos).
    assert (Hoff : 0 <= off) by lia.
    assert (Hfit : position + r + sum rest + len rest <= L) by lia.
    assert (Eline : pre ++ replicate 0 (L - pos) =
                    (pre ++ replicate 0 off) ++ replicate 0 r ++
                    replicate 0 (L - position - r)).
    { rewrite <- app_assoc. f_equal. rewrite <- !replicate_add by lia.
      f_equal. lia. }
    rewrite Eline.
    set (a := pre ++ replicate 0 off).
    assert (Ha : len a = position)
      by (unfold a; rewrite len_app, len_replicate; lia).
    assert (Hb : len (replicate 0 r) = r) by (apply len_replicate; lia).
    assert (Hb1 : len (replicate 1 r) = r) by (apply len_replicate; lia).
    unfold ok_block.
    destruct (Z.ltb_spec position 0); [lia|].
    destruct (Z.gtb_spec (position + r) L); [lia|]. cbn [orb].
    rewrite no_known_empty_spec by (apply in_bounds_range; lia).
    cbn [bind].
    destruct (forallb _ (range position (position + r))) eqn:Eok.
    2: { rewrite filter_none; [rewrite app_nil_r; reflexivity|].
         intros p Hp. apply in_map_iff in Hp. destruct Hp as (q' & <- & Hq').
         apply in_map_iff in Hq'. destruct Hq' as (q & <- & _).
         destruct (agrees known _) eqn:Eag; [|reflexivity]. exfalso.
         apply not_true_iff_false in Eok. apply Eok.
         apply forallb_forall. intros j Hj. apply In_range in Hj.
         pose proof (proj1 (agrees_spec known _) Eag j ltac:(lia)) as Hag.
         rewrite item_pieces_block in Hag by (fold off; lia).
         apply negb_true_iff. apply Z.eqb_neq. lia. }
    rewrite (write_block_at a _ _ position r Ha Hb). cbn [bind].
    rewrite (slice_at a _ _ position r Ha Hb).
    assert (Hrestore :
      set_slice (a ++ replicate 1 r ++ replicate 0 (L - position - r))
        position (position + r) (replicate 0 r) =
      a ++ replicate 0 r ++ replicate 0 (L - position - r))
      by (apply set_slice_at; assumption).
    assert (Hlenline :
      len (a ++ replicate 1 r ++ replicate 0 (L - position - r)) = L)
      by (rewrite !len_app, Ha, Hb1, len_replicate; lia).
    destruct rest as [|r' rest'].
    + (* the last run *)
      change (len (@nil Z)) with 0 in Elen.
      destruct (Z.eqb_spec (Z.of_nat i + 1) (len runs)); [|lia].
      rewrite (consistent_fill_at L known _ Hknown Hlenline). cbn [bind].
      rewrite Hrestore. cbn [map filter].
      replace (pre ++ replicate 0 off ++ replicate 1 r ++
               replicate 0 (L - pos - off - r))
        with (a ++ replicate 1 r ++ replicate 0 (L - position - r)).
      2: { unfold a. rewrite <- app_assoc. do 3 f_equal. unfold off. f_equal. lia. }
      destruct (agrees known _); [reflexivity|].
      rewrite app_nil_r. reflexivity.
    + (* a run with more runs after it *)
      pose proof (Forall_inv Hrest) as Hr'. pose proof (Forall_inv_tail Hrest) as Hrest'.
      cbv beta in Hr'.
      rewrite sum_cons, len_cons in Hfit.
      pose proof (sum_ge_len rest' Hrest') as Hsum'.
      pose proof (len_nonneg rest') as Hlrest'.
      rewrite len_cons in Elen.
      destruct (Z.eqb_spec (Z.of_nat i + 1) (len runs)); [lia|].
      destruct (Z.ltb_spec (position + r) L); [|lia].
      rewrite getitem_item by lia. cbn [bind].
      set (c' := replicate 0 (L - position - r - 1)).
      set (line1 := a ++ replicate 1 r ++ replicate 0 (L - position - r)) in *.
      assert (Eform : line1 = (a ++ replicate 1 r) ++ 0 :: c').
      { unfold line1, c'. rewrite <- app_assoc. do 2 f_equal.
        rewrite <- replicate_succ by lia. f_equal. lia. }
      assert (Har : len (a ++ replicate 1 r) = position + r)
        by (rewrite len_app, Ha, Hb1; reflexivity).
      assert (Hg : getitem line1 (position + r) = Some 0)
        by (rewrite Eform; apply getitem_at; exact Har).
      assert (Hs : setitem line1 (position + r) 0 = Some line1)
        by (rewrite Eform; apply setitem_at; exact Har).
      assert (Hcand : forall p,
        In p (map (app pre)
                (map (fun q : list Z => replicate 0 off ++ replicate 1 r ++ q)
                   (map (cons 0)
                      (fillings (r' :: rest') (L - pos - off - r - 1))))) ->
        exists q, p = pre ++ replicate 0 off ++ replicate 1 r ++ 0 :: q).
      { intros p Hp. apply in_map_iff in Hp. destruct Hp as (q' & <- & Hq').
        apply in_map_iff in Hq'. destruct Hq' as (q & <- & Hq).
        apply in_map_iff in Hq. destruct Hq as (q0 & <- & _).
        exists q0. reflexivity. }
      destruct (Z.eqb_spec (item known (position + r)) 1) as [Egap|Egap].
      { (* the gap cell is known filled *)
        cbn [bind]. rewrite Hrestore.
        rewrite filter_none; [rewrite app_nil_r; reflexivity|].
        intros p Hp. destruct (Hcand p Hp) as (q & ->).
        destruct (agrees known _) eqn:Eag; [|reflexivity]. exfalso.
        pose proof (proj1 (agrees_spec known _) Eag (position + r) ltac:(lia))
          as Hag.
        rewrite item_pieces_gap_at in Hag by (unfold off; lia). lia. }
      rewrite Hg. cbn [bind]. rewrite Hs. cbn [bind].
      replace (position + r + 1 - 1) with (position + r) by lia.
      rewrite known_filled_covered_spec
        by (apply in_bounds_range; rewrite ?Hlenline; lia).
      cbn [bind].
      destruct (forallb _ (range pos (position + r))) eqn:Ecov.
      2: { (* a known-filled cell is left uncovered *)
        cbn [bind]. rewrite Hs. cbn [bind]. rewrite Hrestore.
        rewrite filter_none; [rewrite app_nil_r; reflexivity|].
        intros p Hp. destruct (Hcand p Hp) as (q & ->).
        destruct (agrees known _) eqn:Eag; [|reflexivity]. exfalso.
        apply not_true_iff_false in Ecov. apply Ecov.
        apply forallb_forall. intros j Hj. apply In_range in Hj.
        apply orb_true_iff.
        destruct (Z_lt_le_dec j position) as [Hlt|Hge].
        - left. apply negb_true_iff, Z.eqb_neq.
          pose proof (proj1 (agrees_spec known _) Eag j ltac:(lia)) as Hag.
          rewrite item_pieces_front in Hag by (unfold off; lia). lia.
        - right. apply Z.eqb_eq. unfold line1.
          rewrite item_app_r by lia.
          rewrite item_app_l by (rewrite Hb1; lia).
          apply item_replicate. lia. }
      (* the rest of the runs, placed from the cell after the gap *)
      set (pre' := pre ++ replicate 0 off ++ replicate 1 r ++ [0]).
      assert (Hpre' : len pre' = position + r + 1).
      { unfold pre'. rewrite !len_app, Hb1, len_replicate by lia.
        change (len [0]) with 1. unfold off. lia. }
      assert (Eline1 : line1 = pre' ++ replicate 0 (L - (position + r + 1))).
      { rewrite Eform. unfold a, pre', c'. rewrite <- !app_assoc. cbn [app].
        do 4 f_equal. f_equal. lia. }
      replace (Z.of_nat i + 1) with (Z.of_nat (S i)) by lia.
      rewrite Eline1 at 1.
      assert (Hi' : (S i < length runs)%nat) by (unfold len in Elen; lia).
      rewrite (IH (S i) (position + r + 1) out' pre') by (try assumption; lia).
      cbn [bind]. rewrite <- Eline1. rewrite Hs. cbn [bind]. rewrite Hrestore.
      rewrite Esk'. do 3 f_equal. rewrite !map_map.
      replace (L - pos - off - r - 1) with (L - (position + r + 1))
        by (unfold off; lia).
      f_equal. apply map_ext. intros q. unfold pre'.
      rewrite <- !app_assoc. reflexivity.
Qed.

End PlaceRefines.

Lemma all_zero_agrees (known : list Z) :
  forallb (fun k => (k =? 0) || (k =? -1)) known =
  agrees known (replicate 0 (len known)).
Proof.
  apply eq_true_iff_eq. rewrite forallb_forall, agrees_spec. split.
  - intros H i Hi. rewrite (item_replicate 0 _ i Hi).
    assert (Hin : In (item known i) known).
    { rewrite (item_nth known i 0) by exact Hi. apply nth_In.
      unfold len in Hi. lia. }
    specialize (H _ Hin). apply orb_true_iff in H.
    destruct H as [H|H]; apply Z.eqb_eq in H; auto.
  - intros H k Hk. destruct (In_nth _ _ 0 Hk) as (n & Hn & <-).
    assert (Hi : 0 <= Z.of_nat n < len known) by (unfold len; lia).
    specialize (H _ Hi). rewrite (item_replicate 0 _ _ Hi) in H.
    rewrite (item_nth known _ 0), Nat2Z.id in H by exact Hi.
    apply orb_true_iff. destruct H as [H|H]; [right|left]; apply Z.eqb_eq; exact H.
Qed.

(** The generator refines the spec's fillings: on a knowledge vector of
    the line's length and positive run lengths it raises nothing and
    yields, in order, the fillings that agree with the knowledge. *)
Lemma enumerate_refines (L : Z) (runs known : list Z) :
  len known = L -> Forall (fun r => 1 <= r) runs ->
  _enumerate_line_patterns L runs known =
  Some (filter (agrees known) (fillings runs L)).
Proof.
  intros Hknown Hruns. unfold _enumerate_line_patterns.
  destruct runs as [|r0 rest] eqn:Eruns.
  - rewrite all_zero_agrees, Hknown. cbn [fillings filter].
    destruct (agrees known (replicate 0 L)); reflexivity.
  - rewrite <- Eruns in *.
    pose proof (len_nonneg known) as Hnn.
    destruct (Z.gtb_spec 0 L); [lia|]. cbn [bind].
    pose proof (place_refines L runs known Hknown Hruns (length runs) O 0 [] [])
      as Hp.
    cbn [app Z.of_nat] in Hp. rewrite Z.sub_0_r in Hp.
    rewrite Hp; [|rewrite Eruns; simpl; lia|lia|lia|reflexivity].
    cbn [bind app skipn]. f_equal. f_equal.
    apply map_id.
Qed.

(** ** The blocks of a filling *)

Section Blocks.

Lemma groups_loop_acc (line : list Z) (run : Z) (groups : list Z) :
  groups_loop line run groups = groups ++ groups_loop line run [].
Proof.
  revert run groups. induction line as [|v t IH]; intros run groups.
  - simpl. destruct (run =? 0); [rewrite app_nil_r|]; reflexivity.
  - cbn [groups_loop]. destruct (v =? 1); [apply IH|].
    destruct (run =? 0); [apply IH|].
    rewrite (IH 0 (groups ++ [run])), (IH 0 ([] ++ [run])).
    rewrite <- app_assoc. reflexivity.
Qed.

Lemma groups_loop_zeros (n : Z) (l : list Z) :
  groups_loop (replicate 0 n ++ l) 0 [] = groups_loop l 0 [].
Proof.
  unfold replicate. induction (Z.to_nat n) as [|k IH]; [reflexivity|].
  simpl. exact IH.
Qed.

Lemma groups_loop_ones (n : Z) (l : list Z) (run : Z) :
  0 <= n ->
  groups_loop (replicate 1 n ++ l) run [] = groups_loop l (run + n) [].
Proof.
  intros Hn. rewrite <- (Z2Nat.id n Hn) at 2. unfold replicate.
  revert run. induction (Z.to_nat n) as [|k IH]; intros run.
  - simpl. f_equal. lia.
  - cbn [repeat app groups_loop]. change (1 =? 1) with true. cbn iota.
    rewrite IH. f_equal. lia.
Qed.

Lemma groups_loop_close (l : list Z) (run : Z) :
  run <> 0 -> groups_loop (0 :: l) run [] = run :: groups_loop l 0 [].
Proof.
  intros H. cbn [groups_loop]. change (0 =? 1) with false. cbn iota.
  destruct (Z.eqb_spec run 0); [contradiction|].
  rewrite groups_loop_acc. reflexivity.
Qed.

Lemma groups_all_zeros (n : Z) : _line_groups_of_ones (replicate 0 n) = [].
Proof.
  unfold _line_groups_of_ones.
  rewrite <- (app_nil_r (replicate 0 n)), groups_loop_zeros. reflexivity.
Qed.

(** A cell value of a pattern: [0] or [1]. *)
Lemma Forall_replicate {A : Type} (P : A -> Prop) (v : A) (n : Z) :
  P v -> Forall P (replicate v n).
Proof.
  intros H. unfold replicate. induction (Z.to_nat n); simpl; constructor; auto.
Qed.

Lemma fillings_elim (r : Z) (rest : list Z) (n : Z) (q : list Z) :
  In q (fillings (r :: rest) n) ->
  exists off t,
    0 <= off <= n - (sum (r :: rest) + (len (r :: rest) - 1)) /\
    q = replicate 0 off ++ replicate 1 r ++ t /\
    match rest with
    | [] => t = replicate 0 (n - off - r)
    | _ :: _ => exists q', t = 0 :: q' /\ In q' (fillings rest (n - off - r - 1))
    end.
Proof.
  cbn [fillings]. intros H. apply in_flat_map in H.
  destruct H as (off & Hoff & Hq). apply In_range in Hoff.
  apply in_map_iff in Hq. destruct Hq as (t & <- & Ht).
  exists off, t. split; [lia|]. split; [reflexivity|].
  destruct rest as [|r' rest'].
  - destruct Ht as [<-|[]]. reflexivity.
  - apply in_map_iff in Ht. destruct Ht as (q' & <- & Hq').
    exists q'. split; [reflexivity|exact Hq'].
Qed.

Lemma fillings_sound (rs : list Z) :
  Forall (fun r => 1 <= r) rs ->
  forall (n : Z) (q : list Z), 0 <= n -> In q (fillings rs n) ->
    len q = n /\ Forall bit q /\
    _line_groups_of_ones q = rs.
Proof.
  induction 1 as [|r rest Hr Hrest IH]; intros n q Hn Hq.
  - destruct Hq as [<-|[]]. split; [apply len_replicate; exact Hn|].
    split; [apply Forall_replicate; unfold bit; auto|apply groups_all_zeros].
  - destruct (fillings_elim _ _ _ _ Hq) as (off & t & Hoff & -> & Ht).
    rewrite sum_cons, len_cons in Hoff.
    pose proof (sum_ge_len rest Hrest) as Hsum.
    pose proof (len_nonneg rest) as Hlen.
    unfold _line_groups_of_ones.
    rewrite groups_loop_zeros, groups_loop_ones by lia.
    rewrite !len_app, !len_replicate by lia.
    rewrite !Forall_app.
    destruct rest as [|r' rest'].
    + subst t. rewrite sum_nil in Hoff. change (len (@nil Z)) with 0 in Hoff.
      rewrite len_replicate by lia.
      split; [lia|]. split.
      * repeat split; apply Forall_replicate; unfold bit; auto.
      * destruct (Z.eq_dec (n - off - r) 0) as [E|E].
        -- rewrite E. simpl. destruct (Z.eqb_spec r 0); [lia|reflexivity].
        -- replace (n - off - r) with (n - off - r - 1 + 1) by lia.
           rewrite replicate_succ by lia.
           rewrite groups_loop_close by lia.
           fold (_line_groups_of_ones (replicate 0 (n - off - r - 1))).
           rewrite groups_all_zeros. f_equal; lia.
    + destruct Ht as (q' & -> & Hq').
      rewrite sum_cons, len_cons in Hoff, Hsum.
      pose proof (len_nonneg rest') as Hlen'.
      destruct (IH (n - off - r - 1) q' ltac:(lia) Hq') as (Hl & Hb & Hg).
      rewrite len_cons, Hl. split; [lia|]. split.
      * repeat split; try (apply Forall_replicate; unfold bit; auto).
        constructor; unfold bit; auto.
      * rewrite groups_loop_close by lia.
        fold (_line_groups_of_ones q'). rewrite Hg. f_equal; lia.
Qed.

Lemma fillings_overlap (rs : list Z) :
  Forall (fun r => 1 <= r) rs ->
  forall (n : Z) (q : list Z), In q (fillings rs n) ->
  forall (i : nat) (x : Z), (i < length rs)%nat ->
    latestStart n rs i <= x <= earliestStart rs i + nth i rs 0 - 1 ->
    0 <= x /\ item q x = 1.
Proof.
  induction 1 as [|r rest Hr Hrest IH]; intros n q Hq i x Hi Hx;
    [simpl in Hi; lia|].
  destruct (fillings_elim _ _ _ _ Hq) as (off & t & Hoff & -> & Ht).
  unfold latestStart, earliestStart in Hx.
  destruct i as [|i].
  - cbn [skipn firstn nth] in Hx. rewrite sum_nil in Hx.
    change (Z.of_nat 0) with 0 in Hx.
    split; [lia|].
    apply (item_pieces_block [] t off r x); [lia|lia|].
    change (len (@nil Z)) with 0. lia.
  - cbn [skipn nth] in Hx. rewrite firstn_cons, sum_cons, len_cons in Hx.
    simpl in Hi.
    destruct rest as [|r' rest']; [simpl in Hi; lia|].
    destruct Ht as (q' & -> & Hq').
    specialize (IH (n - off - r - 1) q' Hq' i (x - (off + r + 1)) ltac:(lia)).
    unfold latestStart, earliestStart in IH.
    destruct IH as [Hx0 Hitem]; [lia|].
    split; [lia|].
    rewrite item_app_r by (rewrite len_replicate; lia).
    rewrite len_replicate by lia.
    rewrite item_app_r by (rewrite len_replicate; lia).
    rewrite len_replicate by lia.
    change (0 :: q') with ([0] ++ q').
    rewrite item_app_r by (change (len [0]) with 1; lia).
    change (len [0]) with 1.
    replace (x - off - r - 1) with (x - (off + r + 1)) by lia. exact Hitem.
Qed.

End Blocks.

(** ** Every line with the right blocks is a filling *)

Section Completeness.

Lemma bits_decompose (q : list Z) :
  Forall bit q ->
  q = replicate 0 (len q) \/
  exists off k t, 0 <= off /\ 1 <= k /\
    q = replicate 0 off ++ replicate 1 k ++ t /\
    (t = [] \/ exists t', t = 0 :: t').
Proof.
  induction 1 as [|v q Hv Hq IH].
  - left. reflexivity.
  - rewrite len_cons. destruct Hv as [->| ->].
    + destruct IH as [IH|(off & k & t & Hoff & Hk & E & Ht)].
      * left. rewrite replicate_succ by apply len_nonneg. f_equal. exact IH.
      * right. exists (off + 1), k, t. split; [lia|]. split; [exact Hk|].
        split; [|exact Ht]. rewrite replicate_succ by lia. rewrite E. reflexivity.
    + right. destruct IH as [IH|(off & k & t & Hoff & Hk & E & Ht)].
      * exists 0, 1, q. split; [lia|]. split; [lia|]. split; [reflexivity|].
        destruct q as [|w q']; [left; reflexivity|right].
        rewrite len_cons, replicate_succ in IH by apply len_nonneg.
        injection IH as -> _. exists q'. reflexivity.
      * destruct (Z.eq_dec off 0) as [->|Hne].
        -- exists 0, (k + 1), t. split; [lia|]. split; [lia|].
           split; [|exact Ht]. rewrite replicate_succ by lia.
           rewrite E. reflexivity.
        -- exists 0, 1, q. split; [lia|]. split; [lia|].
           split; [reflexivity|]. right.
           replace off with (off - 1 + 1) in E by lia.
           rewrite replicate_succ in E by lia. cbn [app] in E.
           eexists. exact E.
Qed.

Lemma groups_decomposed (off k : Z) (t : list Z) :
  0 <= off -> 1 <= k ->
  _line_groups_of_ones (replicate 0 off ++ replicate 1 k ++ t) =
  match t with
  | [] => [k]
  | v :: t' => if v =? 1 then groups_loop t k []
               else k :: _line_groups_of_ones t'
  end.
Proof.
  intros Hoff Hk. unfold _line_groups_of_ones.
  rewrite groups_loop_zeros, groups_loop_ones by lia. cbn [Z.add].
  destruct t as [|v t'].
  - simpl. destruct (Z.eqb_spec k 0); [lia|reflexivity].
  - destruct (v =? 1) eqn:Ev; [reflexivity|].
    cbn [groups_loop]. rewrite Ev.
    destruct (Z.eqb_spec k 0); [lia|].
    rewrite groups_loop_acc. reflexivity.
Qed.

Lemma no_groups_all_zeros (q : list Z) :
  Forall bit q ->
  _line_groups_of_ones q = [] -> q = replicate 0 (len q).
Proof.
  intros Hb Hg. destruct (bits_decompose q Hb)
    as [E|(off & k & t & Hoff & Hk & E & Ht)]; [exact E|].
  rewrite E, groups_decomposed in Hg by assumption.
  destruct Ht as [->|(t' & ->)]; [discriminate|].
  change (0 =? 1) with false in Hg. discriminate.
Qed.

Lemma fillings_need_room (r : Z) (rest : list Z) (n : Z) (q : list Z) :
  In q (fillings (r :: rest) n) ->
  sum (r :: rest) + (len (r :: rest) - 1) <= n.
Proof.
  intros H. destruct (fillings_elim _ _ _ _ H) as (off & t & Hoff & _). lia.
Qed.

Lemma fillings_intro (r : Z) (rest : list Z) (n off : Z) (t : list Z) :
  0 <= off <= n - (sum (r :: rest) + (len (r :: rest) - 1)) ->
  match rest with
  | [] => t = replicate 0 (n - off - r)
  | _ :: _ => exists q', t = 0 :: q' /\ In q' (fillings rest (n - off - r - 1))
  end ->
  In (replicate 0 off ++ replicate 1 r ++ t) (fillings (r :: rest) n).
Proof.
  intros Hoff Ht. cbn [fillings]. apply in_flat_map. exists off.
  split; [apply In_range; lia|].
  apply in_map_iff. exists t. split; [reflexivity|].
  destruct rest as [|r' rest'].
  - left. symmetry. exact Ht.
  - destruct Ht as (q' & -> & Hq'). apply in_map. exact Hq'.
Qed.

Lemma fillings_complete (rs : list Z) :
  Forall (fun r => 1 <= r) rs ->
  forall q : list Z,
    Forall bit q ->
    _line_groups_of_ones q = rs ->
    In q (fillings rs (len q)).
Proof.
  induction 1 as [|r rest Hr Hrest IH]; intros q Hb Hg.
  - left. symmetry. apply no_groups_all_zeros; assumption.
  - destruct (bits_decompose q Hb)
      as [E|(off & k & t & Hoff & Hk & E & Ht)].
    + rewrite E, groups_all_zeros in Hg. discriminate.
    + rewrite E in Hg. rewrite groups_decomposed in Hg by assumption.
      assert (Hbt : Forall bit t).
      { rewrite E in Hb. rewrite !Forall_app in Hb. tauto. }
      assert (Hlen : len q = off + k + len t).
      { rewrite E, !len_app, !len_replicate by lia. lia. }
      rewrite E at 1. rewrite Hlen.
      destruct Ht as [->|(t' & ->)].
      * injection Hg as <- <-. apply fillings_intro.
        -- rewrite sum_cons, sum_nil. change (len [k]) with 1.
           change (len (@nil Z)) with 0. lia.
        -- change (len (@nil Z)) with 0.
           replace (off + k + 0 - off - k) with 0 by lia. reflexivity.
      * change (0 =? 1) with false in Hg. cbv iota in Hg.
        injection Hg as <- Hg'.
        pose proof (Forall_inv_tail Hbt) as Hbt'.
        rewrite len_cons.
        destruct rest as [|r' rest'].
        -- apply fillings_intro.
           ++ rewrite sum_cons, sum_nil. change (len [k]) with 1.
              pose proof (len_nonneg t'). lia.
           ++ replace (off + k + (len t' + 1) - off - k) with (len t' + 1) by lia.
              rewrite replicate_succ by apply len_nonneg.
              f_equal. apply no_groups_all_zeros; assumption.
        -- pose proof (IH t' Hbt' Hg') as Hin.
           pose proof (fillings_need_room _ _ _ _ Hin) as Hroom.
           apply fillings_intro.
           ++ rewrite (sum_cons k), (len_cons k). lia.
           ++ exists t'. split; [reflexivity|].
              replace (off + k + (len t' + 1) - off - k - 1) with (len t') by lia.
              exact Hin.
Qed.

End Completeness.

(** ** The counting loop of the possibility deducer *)

Section Counting.

Lemma item_update_nth (l : list Z) (i j v : Z) :
  0 <= i < len l -> 0 <= j ->
  item (update_nth l (Z.to_nat i) v) j = if j =? i then v else item l j.
Proof.
  intros Hi Hj.
  destruct (Z_lt_le_dec j (len l)) as [Hlt|Hge].
  - rewrite (item_nth _ j 0)
      by (unfold len in *; rewrite length_update_nth; lia).
    rewrite nth_update_nth.
    destruct (Z.eqb_spec j i) as [->|Hne].
    + rewrite Nat.eqb_refl.
      destruct (Nat.ltb_spec (Z.to_nat i) (length l)); [reflexivity|].
      unfold len in Hi. lia.
    + destruct (Nat.eqb_spec (Z.to_nat i) (Z.to_nat j)); [lia|].
      symmetry. apply item_nth. lia.
  - destruct (Z.eqb_spec j i); [lia|].
    rewrite !item_out; [reflexivity|lia|].
    unfold len in *. rewrite length_update_nth. lia.
Qed.

Lemma filled_at_cons (v : Z) (t : list Z) (k : Z) :
  filled_at (v :: t) k =
  if k =? 0 then v =? 1 else filled_at t (k - 1).
Proof.
  unfold filled_at.
  destruct (Z.eqb_spec k 0) as [->|Hne]; [reflexivity|].
  destruct (Z.leb_spec 0 k) as [Hk|Hk].
  - destruct (Z.leb_spec 0 (k - 1)); [|lia]. cbn [andb].
    change (v :: t) with ([v] ++ t).
    rewrite item_app_r by (change (len [v]) with 1; lia).
    reflexivity.
  - destruct (Z.leb_spec 0 (k - 1)); [lia|]. reflexivity.
Qed.

Lemma filled_at_nil (k : Z) : filled_at [] k = false.
Proof.
  unfold filled_at. destruct (Z.leb_spec 0 k); [|reflexivity].
  rewrite item_out by (change (len (@nil Z)) with 0; lia). reflexivity.
Qed.

Lemma count_ones_from_spec (p : list Z) :
  forall (i : Z) (oc oc' : list Z),
    0 <= i -> count_ones_from i p oc = Some oc' ->
    len oc' = len oc /\
    forall j, 0 <= j ->
      item oc' j = item oc j + (if filled_at p (j - i) then 1 else 0).
Proof.
  induction p as [|v t IH]; intros i oc oc' Hi H.
  - injection H as <-. split; [reflexivity|].
    intros j Hj. rewrite filled_at_nil. lia.
  - cbn [count_ones_from] in H.
    destruct (Z.eqb_spec v 1) as [->|Hv].
    + unfold getitem, setitem in H.
      destruct (norm_index oc i) as [n|] eqn:En; [|discriminate].
      pose proof (norm_index_bound _ _ _ En) as Hn.
      assert (Hin : 0 <= i < len oc).
      { unfold norm_index in En. destruct (Z.ltb_spec i 0); [lia|].
        destruct (Z.leb_spec 0 i); [|discriminate].
        destruct (Z.ltb_spec i (len oc)); [lia|discriminate]. }
      rewrite norm_index_in in En by exact Hin. injection En as <-.
      destruct (nth_error oc (Z.to_nat i)) as [c|] eqn:Ec; [|discriminate].
      cbn [bind] in H.
      destruct (IH (i + 1) _ _ ltac:(lia) H) as [Hlen Hitem].
      unfold len in Hlen. rewrite length_update_nth in Hlen.
      split; [exact Hlen|].
      intros j Hj. rewrite Hitem by exact Hj.
      rewrite item_update_nth by assumption.
      rewrite filled_at_cons.
      assert (Hc : item oc i = c).
      { unfold item. rewrite getitem_in by exact Hin. rewrite Ec. reflexivity. }
      destruct (Z.eqb_spec j i) as [->|Hne].
      * rewrite Z.sub_diag. cbn [Z.eqb].
        replace (i - (i + 1)) with (-1) by lia.
        unfold filled_at at 1.
        change (0 <=? -1) with false. change ((1 =? 1)%positive) with true.
        cbn [andb]. lia.
      * destruct (Z.eqb_spec (j - i) 0); [lia|].
        replace (j - (i + 1)) with (j - i - 1) by lia. reflexivity.
    + cbn [bind] in H.
      destruct (IH (i + 1) _ _ ltac:(lia) H) as [Hlen Hitem].
      split; [exact Hlen|].
      intros j Hj. rewrite Hitem by exact Hj.
      rewrite filled_at_cons.
      destruct (Z.eqb_spec (j - i) 0) as [E|E].
      * replace (j - (i + 1)) with (-1) by lia.
        unfold filled_at at 1. change (0 <=? -1) with false. cbn [andb].
        destruct (Z.eqb_spec v 1); [contradiction|]. reflexivity.
      * replace (j - (i + 1)) with (j - i - 1) by lia. reflexivity.
Qed.

Lemma count_ones_from_total (p : list Z) :
  forall (i : Z) (oc : list Z),
    0 <= i -> i + len p <= len oc ->
    exists oc', count_ones_from i p oc = Some oc'.
Proof.
  induction p as [|v t IH]; intros i oc Hi Hlen.
  - eexists. reflexivity.
  - rewrite len_cons in Hlen. pose proof (len_nonneg t).
    cbn [count_ones_from].
    destruct (v =? 1).
    + rewrite getitem_item by lia. cbn [bind].
      rewrite setitem_in by lia. cbn [bind].
      apply IH; [lia|]. unfold len. rewrite length_update_nth.
      fold (len oc). fold (len t). lia.
    + cbn [bind]. apply IH; lia.
Qed.

Lemma count_loop_spec (patterns : list (list Z)) :
  forall oc oc' : list Z,
    for_each patterns (count_ones_from 0) oc = Some oc' ->
    len oc' = len oc /\
    forall j, 0 <= j -> item oc' j = item oc j + fill_count patterns j.
Proof.
  induction patterns as [|p ps IH]; intros oc oc' H.
  - injection H as <-. split; [reflexivity|]. intros j Hj.
    unfold fill_count. simpl. change (len (@nil (list Z))) with 0. lia.
  - cbn [for_each] in H.
    destruct (count_ones_from 0 p oc) as [oc1|] eqn:E1; [|discriminate].
    cbn [bind] in H.
    destruct (count_ones_from_spec p 0 oc oc1 ltac:(lia) E1) as [Hl1 Hi1].
    destruct (IH _ _ H) as [Hl2 Hi2].
    split; [lia|]. intros j Hj.
    rewrite Hi2, Hi1 by exact Hj. rewrite Z.sub_0_r.
    unfold fill_count. cbn [filter].
    destruct (filled_at p j); [rewrite len_cons|]; lia.
Qed.

Lemma count_loop_total (patterns : list (list Z)) (n : Z) :
  Forall (fun p => len p <= n) patterns ->
  forall oc, len oc = n ->
    exists oc', for_each patterns (count_ones_from 0) oc = Some oc'.
Proof.
  induction 1 as [|p ps Hp Hps IH]; intros oc Hoc.
  - eexists. reflexivity.
  - cbn [for_each].
    destruct (count_ones_from_total p 0 oc ltac:(lia) ltac:(lia)) as [oc1 E1].
    rewrite E1. cbn [bind]. apply IH.
    destruct (count_ones_from_spec p 0 oc oc1 ltac:(lia) E1) as [Hl1 _]. lia.
Qed.

Lemma fill_count_bounds (patterns : list (list Z)) (j : Z) :
  0 <= fill_count patterns j <= len patterns.
Proof.
  unfold fill_count, len. pose proof (filter_length_le (fun p => filled_at p j) patterns).
  lia.
Qed.

Lemma fill_count_all (patterns : list (list Z)) (j : Z) :
  fill_count patterns j = len patterns <->
  forall p, In p patterns -> filled_at p j = true.
Proof.
  unfold fill_count. induction patterns as [|p ps IH].
  - simpl. split; [intros _ q []|reflexivity].
  - cbn [filter]. pose proof (fill_count_bounds ps j) as Hb.
    unfold fill_count in Hb.
    destruct (filled_at p j) eqn:E.
    + rewrite !len_cons. split.
      * intros H q [<-|Hq]; [exact E|]. apply IH; [lia|exact Hq].
      * intros H. f_equal. apply IH. intros q Hq. apply H. right. exact Hq.
    + rewrite len_cons. split; [lia|].
      intros H. specialize (H p (or_introl eq_refl)). congruence.
Qed.

Lemma fill_count_none (patterns : list (list Z)) (j : Z) :
  fill_count patterns j = 0 <->
  forall p, In p patterns -> filled_at p j = false.
Proof.
  unfold fill_count. induction patterns as [|p ps IH].
  - simpl. split; [intros _ q []|reflexivity].
  - cbn [filter]. destruct (filled_at p j) eqn:E.
    + rewrite len_cons. pose proof (len_nonneg (filter (fun p => filled_at p j) ps)).
      split; [lia|].
      intros Hall. specialize (Hall p (or_introl eq_refl)). congruence.
    + rewrite IH. split.
      * intros H q [<-|Hq]; [exact E|auto].
      * intros H q Hq. apply H. right. exact Hq.
Qed.

End Counting.

(** ** The possibility deducer of one line *)

Section Deducer.

Lemma item_zeros (n j : Z) : 0 <= j -> item (replicate 0 n) j = 0.
Proof.
  intros Hj. destruct (Z_lt_le_dec j n).
  - apply item_replicate. lia.
  - apply item_out. unfold len. rewrite length_replicate. lia.
Qed.

Lemma deduce_structure (L : Z) (runs known mf me : list Z) :
  deduce_from_possibilities L runs known = Some (mf, me) ->
  exists ps, _enumerate_line_patterns L runs known = Some ps /\
    ((ps = [] /\ mf = [] /\ me = []) \/
     (ps <> [] /\
      mf = filter (fun i => fill_count ps i =? len ps) (range 0 L) /\
      me = filter (fun i => fill_count ps i =? 0) (range 0 L))).
Proof.
  unfold deduce_from_possibilities. intros H.
  destruct (_enumerate_line_patterns L runs known) as [ps|]; [|discriminate].
  cbn [bind] in H. exists ps. split; [reflexivity|].
  destruct ps as [|p0 ps'] eqn:Eps.
  - injection H as <- <-. left. auto.
  - rewrite <- Eps in *. right.
    destruct (for_each ps (count_ones_from 0) (replicate 0 L)) as [oc|] eqn:Eoc;
      [|discriminate].
    cbn [bind] in H. injection H as <- <-.
    destruct (count_loop_spec _ _ _ Eoc) as [_ Hitem].
    split; [rewrite Eps; discriminate|].
    split; apply filter_ext_in; intros j Hj; apply In_range in Hj;
      rewrite Hitem, item_zeros by lia; reflexivity.
Qed.

Lemma deduce_total (L : Z) (runs known : list Z) (ps : list (list Z)) :
  _enumerate_line_patterns L runs known = Some ps ->
  0 <= L -> Forall (fun p => len p <= L) ps ->
  exists mf me, deduce_from_possibilities L runs known = Some (mf, me).
Proof.
  intros E HL Hps. unfold deduce_from_possibilities. rewrite E. cbn [bind].
  destruct ps as [|p0 ps'] eqn:Eps; [eexists; eexists; reflexivity|].
  rewrite <- Eps in *.
  destruct (count_loop_total ps L Hps (replicate 0 L)
              ltac:(apply len_replicate; exact HL)) as [oc Eoc].
  rewrite Eoc. cbn [bind]. eexists. eexists. reflexivity.
Qed.

Lemma NoDup_range (lo hi : Z) : NoDup (range lo hi).
Proof.
  unfold range. apply Finite.Injective_map_NoDup; [|apply seq_NoDup].
  intros a b H. lia.
Qed.

Lemma filter_disjoint_length {A : Type} (f g : A -> bool) (l : list A) :
  (forall x, In x l -> f x = true -> g x = false) ->
  (length (filter f l) + length (filter g l) <= length l)%nat.
Proof.
  induction l as [|x t IH]; intros H; [simpl; lia|].
  cbn [filter].
  assert (IH' := IH (fun y Hy => H y (or_intror Hy))).
  destruct (f x) eqn:Ef.
  - rewrite (H x (or_introl eq_refl) Ef). simpl. lia.
  - destruct (g x); simpl; lia.
Qed.

Lemma item_In (l : list Z) (i : Z) : 0 <= i < len l -> In (item l i) l.
Proof.
  intros H. rewrite (item_nth l i 0) by exact H. apply nth_In.
  unfold len in H. lia.
Qed.

(** The patterns the generator yields are exactly the legal ones. *)
Lemma legal_iff (L : Z) (runs known p : list Z) :
  len known = L -> Forall (fun r => 1 <= r) runs -> Forall cell_state known ->
  In p (filter (agrees known) (fillings runs L)) <->
  legal_pattern L runs known p.
Proof.
  intros Hknown Hruns Hstate. pose proof (len_nonneg known) as HL.
  rewrite filter_In, agrees_spec. unfold legal_pattern. split.
  - intros [Hin Hag].
    destruct (fillings_sound runs Hruns L p ltac:(lia) Hin) as (Hl & Hb & Hg).
    repeat split; try assumption.
    + intros E. destruct (Hag i ltac:(lia)); lia.
    + intros E. destruct (Hag i ltac:(lia)); lia.
  - intros (Hl & Hb & Hg & Hk). split.
    + rewrite <- Hl. apply fillings_complete; assumption.
    + intros i Hi. rewrite Forall_forall in Hstate.
      destruct (Hstate _ (item_In known i Hi)) as [E|[E|E]]; [left; exact E| |];
        right; rewrite E; symmetry; apply Hk; (lia || assumption).
Qed.

End Deducer.

Section DeducerExact.

Variable L : Z.
Variables runs known : list Z.
Hypothesis Hknown : len known = L.
Hypothesis Hruns : Forall (fun r => 1 <= r) runs.
Hypothesis Hstate : Forall cell_state known.

Lemma legal_item_bit (p : list Z) (i : Z) :
  legal_pattern L runs known p -> 0 <= i < L -> item p i = 0 \/ item p i = 1.
Proof.
  intros (Hl & Hb & _) Hi. rewrite Forall_forall in Hb.
  apply Hb. apply item_In. lia.
Qed.

(** What [deduce_from_possibilities] returns, in terms of the legal
    patterns of the line. *)
Lemma deduce_exact :
  exists mf me,
    deduce_from_possibilities L runs known = Some (mf, me) /\
    ((exists p, legal_pattern L runs known p) ->
       (forall i, In i mf <->
          0 <= i < L /\ forall p, legal_pattern L runs known p -> item p i = 1) /\
       (forall i, In i me <->
          0 <= i < L /\ forall p, legal_pattern L runs known p -> item p i = 0)) /\
    (~ (exists p, legal_pattern L runs known p) -> mf = [] /\ me = []) /\
    (forall i, In i mf -> ~ In i me) /\
    NoDup mf /\ NoDup me /\
    len mf + len me <= L.
Proof.
  pose proof (len_nonneg known) as HL. rewrite Hknown in HL.
  pose proof (enumerate_refines L runs known Hknown Hruns) as Eenum.
  set (ps := filter (agrees known) (fillings runs L)) in *.
  assert (Hlegal : forall p, In p ps <-> legal_pattern L runs known p)
    by (intros p; apply legal_iff; assumption).
  assert (Hlen : Forall (fun p => len p <= L) ps).
  { apply Forall_forall. intros p Hp. apply Hlegal in Hp.
    destruct Hp as [Hp _]. lia. }
  destruct (deduce_total L runs known ps Eenum HL Hlen) as (mf & me & Ed).
  exists mf, me. split; [exact Ed|].
  destruct (deduce_structure _ _ _ _ _ Ed) as (ps' & Eenum' & Hcase).
  rewrite Eenum in Eenum'. injection Eenum' as <-.
  destruct Hcase as [(Eps & -> & ->)|(Hne & -> & ->)].
  - (* no pattern *)
    split; [|split; [auto|split; [auto|split; [constructor|split; [constructor|]]]]].
    + intros (p & Hp). apply Hlegal in Hp. rewrite Eps in Hp. destruct Hp.
    + unfold len. simpl. lia.
  - assert (Hpos : 0 < len ps).
    { destruct ps as [|p0 ps0]; [congruence|]. rewrite len_cons.
      pose proof (len_nonneg ps0). lia. }
    split; [|split; [|split; [|split; [|split]]]].
    + intros _. split; intros i; rewrite filter_In, In_range.
      * rewrite Z.eqb_eq, fill_count_all. split.
        -- intros [Hi Hall]. split; [exact Hi|]. intros p Hp.
           specialize (Hall p (proj2 (Hlegal p) Hp)).
           unfold filled_at in Hall. apply andb_true_iff in Hall.
           apply Z.eqb_eq. tauto.
        -- intros [Hi Hall]. split; [exact Hi|]. intros p Hp.
           unfold filled_at. apply andb_true_iff. split; [apply Z.leb_le; lia|].
           apply Z.eqb_eq. apply Hall. apply Hlegal. exact Hp.
      * rewrite Z.eqb_eq, fill_count_none. split.
        -- intros [Hi Hall]. split; [exact Hi|]. intros p Hp.
           specialize (Hall p (proj2 (Hlegal p) Hp)).
           unfold filled_at in Hall. apply andb_false_iff in Hall.
           destruct (legal_item_bit p i Hp Hi) as [E|E]; [exact E|].
           destruct Hall as [Hall|Hall].
           ++ apply Z.leb_gt in Hall. lia.
           ++ apply Z.eqb_neq in Hall. contradiction.
        -- intros [Hi Hall]. split; [exact Hi|]. intros p Hp.
           unfold filled_at. apply andb_false_iff. right.
           apply Z.eqb_neq. rewrite (Hall p (proj1 (Hlegal p) Hp)). lia.
    + intros Hno. exfalso. apply Hno. destruct ps as [|p ps'] eqn:E; [congruence|].
      exists p. apply Hlegal. left. reflexivity.
    + intros i Hf He. apply filter_In in Hf, He.
      destruct Hf as [_ Hf]. destruct He as [_ He].
      apply Z.eqb_eq in Hf, He. lia.
    + apply NoDup_filter, NoDup_range.
    + apply NoDup_filter, NoDup_range.
    + pose proof (filter_disjoint_length
                    (fun i => fill_count ps i =? len ps)
                    (fun i => fill_count ps i =? 0) (range 0 L)) as Hd.
      set (f := fun i => fill_count ps i =? len ps) in *.
      set (g := fun i => fill_count ps i =? 0) in *.
      unfold len at 1 2.
      rewrite length_range in Hd.
      assert (Hdis : forall x, In x (range 0 L) -> f x = true -> g x = false).
      { unfold f, g. intros x _ E. apply Z.eqb_eq in E. apply Z.eqb_neq. lia. }
      specialize (Hd Hdis). lia.
Qed.

End DeducerExact.

(** C6.  On a knowledge vector of cell states for the line and positive
    run lengths, the generator raises nothing, and every pattern it
    yields is a 0/1 line of the line's length whose maximal blocks of
    1s, read left to right, are the run list; it fills no cell marked
    Empty and fills every cell marked Filled.  For the empty run list
    the all-zero pattern is yielded exactly when no cell is marked
    Filled. *)
Theorem enumerate_line_patterns_sound (L : Z) (runs known : list Z) :
  len known = L -> Forall (fun r => 1 <= r) runs -> Forall cell_state known ->
  exists ps,
    _enumerate_line_patterns L runs known = Some ps /\
    (forall p, In p ps ->
       len p = L /\ Forall bit p /\
       _line_groups_of_ones p = runs /\
       forall i, 0 <= i < L ->
         (item known i = 0 -> item p i = 0) /\
         (item known i = 1 -> item p i = 1)) /\
    (runs = [] ->
       (In (replicate 0 L) ps <-> forall i, 0 <= i < L -> item known i <> 1)).
Proof.
  intros Hknown Hruns Hstate.
  exists (filter (agrees known) (fillings runs L)).
  split; [apply enumerate_refines; assumption|]. split.
  - intros p Hp. apply (legal_iff L runs known p Hknown Hruns Hstate). exact Hp.
  - intros ->. rewrite (legal_iff L [] known _ Hknown Hruns Hstate).
    pose proof (len_nonneg known) as HL. rewrite Hknown in HL.
    unfold legal_pattern. split.
    + intros (_ & _ & _ & Hk) i Hi E. destruct (Hk i Hi) as [_ H1].
      specialize (H1 E). rewrite item_replicate in H1 by exact Hi. discriminate.
    + intros H. split; [apply len_replicate; exact HL|].
      split; [apply Forall_replicate; left; reflexivity|].
      split; [apply groups_all_zeros|].
      intros i Hi. split; intros E.
      * apply item_replicate. exact Hi.
      * exfalso. exact (H i Hi E).
Qed.

(** A line of five cells with the clue [[2]] whose first cell is known
    empty. *)
Lemma enumerate_line_patterns_sound_witness :
  exists ps,
    _enumerate_line_patterns 5 [2] [0; -1; -1; -1; -1] = Some ps /\
    (forall p, In p ps ->
       len p = 5 /\ Forall bit p /\
       _line_groups_of_ones p = [2] /\
       forall i, 0 <= i < 5 ->
         (item [0; -1; -1; -1; -1] i = 0 -> item p i = 0) /\
         (item [0; -1; -1; -1; -1] i = 1 -> item p i = 1)) /\
    ([2] = [] ->
       (In (replicate 0 5) ps <->
        forall i, 0 <= i < 5 -> item [0; -1; -1; -1; -1] i <> 1)).
Proof.
  apply (enumerate_line_patterns_sound 5 [2] [0; -1; -1; -1; -1]).
  - reflexivity.
  - repeat (constructor; [lia|]). constructor.
  - repeat (constructor; [unfold cell_state; lia|]). constructor.
Defined.

(** C7.  On a knowledge vector of cell states for the line and positive
    run lengths, [deduce_from_possibilities] returns two lists: when a
    legal pattern exists, [must_fill] holds exactly the positions filled
    in every legal pattern and [must_empty] exactly the positions filled
    in none; when none exists, both lists are empty.  In every case the
    two lists share no position, repeat none, and their sizes add up to
    at most the line's length. *)
Theorem deduce_from_possibilities_spec (L : Z) (runs known : list Z) :
  len known = L -> Forall (fun r => 1 <= r) runs -> Forall cell_state known ->
  exists mf me,
    deduce_from_possibilities L runs known = Some (mf, me) /\
    ((exists p, legal_pattern L runs known p) ->
       (forall i, In i mf <->
          0 <= i < L /\ forall p, legal_pattern L runs known p -> item p i = 1) /\
       (forall i, In i me <->
          0 <= i < L /\ forall p, legal_pattern L runs known p -> item p i = 0)) /\
    (~ (exists p, legal_pattern L runs known p) -> mf = [] /\ me = []) /\
    (forall i, In i mf -> ~ In i me) /\
    NoDup mf /\ NoDup me /\
    len mf + len me <= L.
Proof. intros Hknown Hruns Hstate. apply deduce_exact; assumption. Qed.

(** A line of five unknown cells with the clue [[3]]. *)
Lemma deduce_from_possibilities_spec_witness :
  exists mf me,
    deduce_from_possibilities 5 [3] [-1; -1; -1; -1; -1] = Some (mf, me) /\
    ((exists p, legal_pattern 5 [3] [-1; -1; -1; -1; -1] p) ->
       (forall i, In i mf <->
          0 <= i < 5 /\
          forall p, legal_pattern 5 [3] [-1; -1; -1; -1; -1] p -> item p i = 1) /\
       (forall i, In i me <->
          0 <= i < 5 /\
          forall p, legal_pattern 5 [3] [-1; -1; -1; -1; -1] p -> item p i = 0)) /\
    (~ (exists p, legal_pattern 5 [3] [-1; -1; -1; -1; -1] p) ->
       mf = [] /\ me = []) /\
    (forall i, In i mf -> ~ In i me) /\
    NoDup mf /\ NoDup me /\
    len mf + len me <= 5.
Proof.
  apply (deduce_from_possibilities_spec 5 [3] [-1; -1; -1; -1; -1]).
  - reflexivity.
  - repeat (constructor; [lia|]). constructor.
  - repeat (constructor; [unfold cell_state; lia|]). constructor.
Defined.

(** C5.  On a knowledge vector of cell states for the line and positive
    run lengths, when a legal pattern exists every index returned by
    [overlap_fill_line] is in the [must_fill] list returned by
    [deduce_from_possibilities]. *)
Theorem overlap_within_must_fill (L : Z) (runs known : list Z) :
  len known = L -> Forall (fun r => 1 <= r) runs -> Forall cell_state known ->
  (exists p, legal_pattern L runs known p) ->
  exists mf me,
    deduce_from_possibilities L runs known = Some (mf, me) /\
    forall x, In x (overlap_fill_line L runs) -> In x mf.
Proof.
  intros Hknown Hruns Hstate Hex.
  destruct (deduce_exact L runs known Hknown Hruns Hstate)
    as (mf & me & Ed & Hsome & _).
  exists mf, me. split; [exact Ed|].
  destruct (Hsome Hex) as [Hmf _].
  intros x Hx. apply Hmf.
  destruct runs as [|r0 rest] eqn:Eruns; [destruct Hx|].
  rewrite <- Eruns in *.
  assert (Hne : runs <> []) by (rewrite Eruns; discriminate).
  destruct (overlap_fill_line_members L runs Hne) as [Hpos Hneg].
  destruct (Z_lt_le_dec (slack L runs) 0) as [Hs|Hs].
  { rewrite (Hneg Hs) in Hx. destruct Hx. }
  destruct (Hpos Hs) as [_ Hmem].
  apply Hmem in Hx. destruct Hx as (i & Hi & _ & Hrange).
  assert (Hall : forall p, legal_pattern L runs known p -> 0 <= x /\ item p x = 1).
  { intros p Hp. apply (legal_iff L runs known p Hknown Hruns Hstate) in Hp.
    apply filter_In in Hp. destruct Hp as [Hp _].
    exact (fillings_overlap runs Hruns L p Hp i x Hi Hrange). }
  destruct Hex as (p0 & Hp0).
  destruct (Hall p0 Hp0) as [Hx0 Hx1].
  split.
  - split; [exact Hx0|].
    destruct Hp0 as (Hl & _).
    destruct (Z_lt_le_dec x L) as [Hlt|Hge]; [exact Hlt|].
    rewrite item_out in Hx1 by lia. discriminate.
  - intros p Hp. apply Hall. exact Hp.
Qed.

(** A line of five unknown cells with the clue [[3, 1]], whose only
    legal pattern is [1 1 1 0 1]. *)
Lemma overlap_within_must_fill_witness :
  exists mf me,
    deduce_from_possibilities 5 [3; 1] [-1; -1; -1; -1; -1] = Some (mf, me) /\
    forall x, In x (overlap_fill_line 5 [3; 1]) -> In x mf.
Proof.
  apply (overlap_within_must_fill 5 [3; 1] [-1; -1; -1; -1; -1]).
  - reflexivity.
  - repeat (constructor; [lia|]). constructor.
  - repeat (constructor; [unfold cell_state; lia|]). constructor.
  - exists [1; 1; 1; 0; 1]. unfold legal_pattern.
    split; [reflexivity|].
    split; [repeat (constructor; [unfold bit; lia|]); constructor|].
    split; [reflexivity|].
    intros i Hi.
    assert (Hc : i = 0 \/ i = 1 \/ i = 2 \/ i = 3 \/ i = 4) by lia.
    destruct Hc as [->|[->|[->|[->| ->]]]]; split; intros E;
      vm_compute in E; discriminate E.
Defined.

(** ** Reading and writing one cell of the grid *)

Section Cells.

Lemma norm_index_nonneg {A : Type} (l : list A) (i : Z) (n : nat) :
  0 <= i -> norm_index l i = Some n -> n = Z.to_nat i /\ i < len l.
Proof.
  intros Hi H. unfold norm_index in H.
  destruct (Z.ltb_spec i 0); [lia|].
  destruct (Z.leb_spec 0 i); [|discriminate].
  destruct (Z.ltb_spec i (len l)); [|discriminate].
  injection H as <-. split; [reflexivity|assumption].
Qed.

Lemma getitem_norm {A : Type} (l : list A) (i : Z) (x : A) :
  getitem l i = Some x <->
  exists n, norm_index l i = Some n /\ nth_error l n = Some x.
Proof.
  unfold getitem. destruct (norm_index l i) as [n|].
  - split; [intros H; exists n; auto|intros (m & [= <-] & H); exact H].
  - split; [discriminate|intros (m & [=] & _)].
Qed.

Lemma getitem_nonneg {A : Type} (l : list A) (i : Z) :
  0 <= i -> getitem l i = nth_error l (Z.to_nat i).
Proof.
  intros Hi. destruct (Z_lt_le_dec i (len l)).
  - apply getitem_in. lia.
  - unfold getitem, norm_index.
    destruct (Z.ltb_spec i 0); [lia|].
    destruct (Z.leb_spec 0 i); [|lia].
    destruct (Z.ltb_spec i (len l)); [lia|]. cbn [andb].
    symmetry. apply nth_error_None. unfold len in *. lia.
Qed.

Lemma get_cell_nonneg (g : Grid) (r c : Z) :
  0 <= r -> 0 <= c -> get_cell g r c = cell g (Z.to_nat r) (Z.to_nat c).
Proof.
  intros Hr Hc. unfold get_cell, cell. rewrite getitem_nonneg by exact Hr.
  destruct (nth_error g (Z.to_nat r)); cbn [bind]; [|reflexivity].
  apply getitem_nonneg. exact Hc.
Qed.

(** A successful write names one cell by position, which held a value. *)
Lemma set_cell_norm (g g' : Grid) (r c v : Z) :
  set_cell g r c v = Some g' ->
  exists i j row old,
    norm_index g r = Some i /\ nth_error g i = Some row /\
    norm_index row c = Some j /\ nth_error row j = Some old /\
    get_cell g r c = Some old /\
    g' = update_nth g i (update_nth row j v).
Proof.
  unfold set_cell, get_cell, getitem, setitem. intros H.
  destruct (norm_index g r) as [i|] eqn:Ei; [|discriminate].
  destruct (nth_error g i) as [row|] eqn:Erow; [|discriminate].
  cbn [bind] in *.
  destruct (norm_index row c) as [j|] eqn:Ej; [|discriminate].
  cbn [bind] in H. injection H as <-.
  pose proof (norm_index_bound _ _ _ Ej) as Hj.
  destruct (nth_error row j) as [old|] eqn:Eold.
  - exists i, j, row, old. repeat split; reflexivity || assumption.
  - apply nth_error_None in Eold. lia.
Qed.

Lemma cell_update (g : Grid) (i j : nat) (row : list Z) (v : Z) (i' j' : nat) :
  nth_error g i = Some row -> (j < length row)%nat ->
  cell (update_nth g i (update_nth row j v)) i' j' =
  if Nat.eqb i i' && Nat.eqb j j' then Some v else cell g i' j'.
Proof.
  intros Hrow Hj. unfold cell. rewrite nth_error_update_nth.
  assert (Hi : (i < length g)%nat) by (apply nth_error_Some; congruence).
  destruct (Nat.eqb_spec i i') as [<-|Hne]; cbn [andb]; [|reflexivity].
  destruct (Nat.ltb_spec i (length g)); [|lia].
  rewrite nth_error_update_nth, Hrow.
  destruct (Nat.eqb_spec j j'); [|reflexivity].
  destruct (Nat.ltb_spec j (length row)); [reflexivity|lia].
Qed.

Lemma count_occ_update_nth (row : list Z) (j : nat) (old v x : Z) :
  nth_error row j = Some old ->
  (count_occ Z.eq_dec (update_nth row j v) x
     + (if Z.eq_dec old x then 1 else 0) =
   count_occ Z.eq_dec row x + (if Z.eq_dec v x then 1 else 0))%nat.
Proof.
  revert j. induction row as [|h t IH]; intros j H.
  - destruct j; discriminate.
  - destruct j as [|j].
    + injection H as ->. cbn [update_nth count_occ].
      destruct (Z.eq_dec old x), (Z.eq_dec v x); lia.
    + cbn [update_nth count_occ]. specialize (IH j H).
      destruct (Z.eq_dec h x); lia.
Qed.

Lemma list_sum_update_nth {A : Type} (f : A -> nat) (l : list A) (i : nat)
  (x y : A) :
  nth_error l i = Some x ->
  (list_sum (map f (update_nth l i y)) + f x = list_sum (map f l) + f y)%nat.
Proof.
  revert i. induction l as [|h t IH]; intros i H.
  - destruct i; discriminate.
  - destruct i as [|i].
    + injection H as ->. simpl. lia.
    + specialize (IH i H). simpl in H. simpl. unfold list_sum in *. lia.
Qed.

Lemma unknowns_update (g : Grid) (i j : nat) (row : list Z) (old v : Z) :
  nth_error g i = Some row -> nth_error row j = Some old ->
  (unknowns (update_nth g i (update_nth row j v))
     + (if Z.eq_dec old (-1) then 1 else 0) =
   unknowns g + (if Z.eq_dec v (-1) then 1 else 0))%nat.
Proof.
  intros Hrow Hold. unfold unknowns.
  pose proof (list_sum_update_nth (fun row => count_occ Z.eq_dec row (-1))
                g i row (update_nth row j v) Hrow) as H1.
  pose proof (count_occ_update_nth row j old v (-1) Hold) as H2.
  cbv beta in H1. lia.
Qed.

Lemma Forall_update_nth {A : Type} (P : A -> Prop) (l : list A) (n : nat) (v : A) :
  Forall P l -> P v -> Forall P (update_nth l n v).
Proof.
  intros Hl Hv. revert n. induction Hl as [|h t Hh Ht IH]; intros n.
  - destruct n; constructor.
  - destruct n; cbn [update_nth]; constructor; auto.
Qed.

Lemma grid_states_update (g : Grid) (i j : nat) (row : list Z) (v : Z) :
  grid_states g -> nth_error g i = Some row -> cell_state v ->
  grid_states (update_nth g i (update_nth row j v)).
Proof.
  intros Hg Hrow Hv. unfold grid_states in *.
  apply Forall_update_nth; [exact Hg|].
  apply Forall_update_nth; [|exact Hv].
  rewrite Forall_forall in Hg. apply Hg. eapply nth_error_In. exact Hrow.
Qed.

Lemma cell_state_of_grid (g : Grid) (i j : nat) (v : Z) :
  grid_states g -> cell g i j = Some v -> cell_state v.
Proof.
  unfold grid_states, cell. intros Hg H.
  destruct (nth_error g i) as [row|] eqn:Erow; [|discriminate].
  rewrite Forall_forall in Hg. specialize (Hg row (nth_error_In _ _ Erow)).
  rewrite Forall_forall in Hg. apply Hg. eapply nth_error_In. exact H.
Qed.

End Cells.

(** ** What holds of the generator on any input *)

Lemma for_each_inv {A S : Type} (I : S -> Prop) (xs : list A)
  (body : A -> S -> option S) :
  (forall x s s', In x xs -> I s -> body x s = Some s' -> I s') ->
  forall s s', I s -> for_each xs body s = Some s' -> I s'.
Proof.
  induction xs as [|x t IH]; intros Hbody s s' Hs H.
  - injection H as <-. exact Hs.
  - cbn [for_each] in H.
    destruct (body x s) as [s1|] eqn:E; [|discriminate]. cbn [bind] in H.
    apply (IH (fun y a b Hy => Hbody y a b (or_intror Hy)) s1 s');
      [|exact H].
    apply (Hbody x s s1); [left; reflexivity|exact Hs|exact E].
Qed.

(** Unpacks the equations [m = Some _] of the context whose left side
    is a chain of binds and tests. *)
Ltac unpack :=
  repeat
    match goal with
    | H : bind ?m _ = Some _ |- _ =>
        let E := fresh "E" in
        destruct m eqn:E; cbn [bind] in H; [|discriminate H]
    | H : (if ?c then _ else _) = Some _ |- _ =>
        let E := fresh "E" in destruct c eqn:E
    | H : (let '(_, _) := ?x in _) = Some _ |- _ => destruct x
    | H : match ?x with Some _ => _ | None => _ end = Some _ |- _ =>
        let E := fresh "E" in destruct x eqn:E
    | H : Some _ = Some _ |- _ => injection H; clear H; intros; subst
    end.

Section Checked.

Variable L : Z.
Variables runs known : list Z.

(** Every pattern yielded by [place] passed [consistent_fill]. *)
Lemma place_checked (depth : nat) :
  forall (run_idx pos : Z) (out : list (list Z)) (line : list Z)
         (out' : list (list Z)) (line' : list Z),
    Forall (fun p => consistent_fill L known p = Some true) out ->
    place depth L runs known run_idx pos (out, line) = Some (out', line') ->
    Forall (fun p => consistent_fill L known p = Some true) out'.
Proof.
  induction depth as [|depth IH]; intros run_idx pos out line out' line' Hout H;
    [discriminate|].
  cbn [place] in H.
  destruct (getitem runs run_idx) as [run|]; [|discriminate]. cbn [bind] in H.
  revert H.
  apply (for_each_inv
           (fun s : PlaceState =>
              Forall (fun p => consistent_fill L known p = Some true) (fst s))
           _ _ ) with (s := (out, line)) (s' := (out', line')); [|exact Hout].
  clear out line out' line' Hout.
  intros position [out line] [out' line'] _ Hout H. cbn [fst] in *.
  unpack; try assumption; try (eapply IH; [|eassumption]; assumption).
  match goal with |- Forall _ (if ?b then _ else _) => destruct b end;
    [|assumption].
  apply Forall_app. split; [assumption|].
  constructor; [assumption|constructor].
Qed.

Lemma all_consistent_elim (p idxs : list Z) (c : Z) :
  all_consistent known p idxs = Some true -> In c idxs ->
  exists k, getitem known c = Some k /\ (k = -1 \/ getitem p c = Some k).
Proof.
  induction idxs as [|i t IH]; intros H Hc; [destruct Hc|].
  cbn [all_consistent] in H.
  destruct (getitem known i) as [k|] eqn:Ek; [|discriminate]. cbn [bind] in H.
  destruct (Z.eqb_spec k (-1)) as [->|Hk].
  - destruct Hc as [<-|Hc]; [exists (-1); auto|exact (IH H Hc)].
  - destruct (getitem p i) as [v|] eqn:Ev; [|discriminate]. cbn [bind] in H.
    destruct (Z.eqb_spec k v) as [->|Hkv]; [|discriminate].
    destruct Hc as [<-|Hc]; [exists v; auto|exact (IH H Hc)].
Qed.

End Checked.

Lemma enumerate_checked (L : Z) (runs known : list Z) (ps : list (list Z)) :
  runs <> [] ->
  _enumerate_line_patterns L runs known = Some ps ->
  Forall (fun p => consistent_fill L known p = Some true) ps.
Proof.
  intros Hne H. unfold _enumerate_line_patterns in H.
  destruct runs as [|r0 rest]; [congruence|].
  unpack;
    match goal with
    | E : place _ _ _ _ _ _ _ = Some _ |- _ =>
        exact (place_checked _ _ _ _ _ _ _ _ _ _ (Forall_nil _) E)
    end.
Qed.

Lemma item_of_getitem (l : list Z) (i k : Z) : getitem l i = Some k -> item l i = k.
Proof. intros H. unfold item. rewrite H. reflexivity. Qed.

Lemma getitem_In {A : Type} (l : list A) (i : Z) (x : A) :
  getitem l i = Some x -> In x l.
Proof.
  unfold getitem. destruct (norm_index l i); [|discriminate].
  apply nth_error_In.
Qed.

(** What the caller of [deduce_from_possibilities] may rely on, whatever
    the line: the two lists are duplicate-free, disjoint and within the
    line; a must-fill position is known filled or unknown, and a
    must-empty position is not known filled. *)
Lemma deduce_marks (L : Z) (runs known mf me : list Z) :
  deduce_from_possibilities L runs known = Some (mf, me) ->
  NoDup mf /\ NoDup me /\
  (forall c, In c mf -> ~ In c me) /\
  (forall c, In c mf \/ In c me -> 0 <= c < L) /\
  (forall c k, In c mf -> getitem known c = Some k -> k = 1 \/ k = -1) /\
  (forall c k, In c me -> getitem known c = Some k -> k <> 1).
Proof.
  intros Hd. destruct (deduce_structure _ _ _ _ _ Hd) as (ps & Eenum & Hcase).
  destruct Hcase as [(_ & -> & ->)|(Hne & -> & ->)].
  - split; [constructor|]. split; [constructor|].
    split; [intros c []|]. split; [intros c [[]|[]]|].
    split; intros c k [].
  - assert (Hpos : 0 < len ps).
    { destruct ps as [|p0 ps0]; [congruence|]. rewrite len_cons.
      pose proof (len_nonneg ps0). lia. }
    assert (Hpick : exists p, In p ps).
    { destruct ps as [|p0 ps0]; [congruence|]. exists p0. left. reflexivity. }
    assert (Hchk : forall p c k, In p ps -> 0 <= c < L ->
              getitem known c = Some k -> k = -1 \/ k <> 1 /\ item p c <> 1 \/
              item p c = k).
    { intros p c k Hp Hc Hk.
      destruct runs as [|r0 rest] eqn:Eruns.
      - unfold _enumerate_line_patterns in Eenum.
        destruct (forallb _ known) eqn:Eall.
        + injection Eenum as <-. destruct Hp as [<-|[]].
          rewrite forallb_forall in Eall.
          specialize (Eall k (getitem_In _ _ _ Hk)).
          apply orb_true_iff in Eall.
          destruct Eall as [E|E]; apply Z.eqb_eq in E; [|left; exact E].
          right. left. rewrite item_zeros by lia. lia.
        + injection Eenum as <-. destruct Hp.
      - rewrite <- Eruns in *.
        assert (Hne' : runs <> []) by (rewrite Eruns; discriminate).
        pose proof (enumerate_checked L runs known ps Hne' Eenum) as Hall.
        rewrite Forall_forall in Hall. specialize (Hall p Hp).
        destruct (all_consistent_elim known p (range 0 L) c Hall
                    (proj2 (In_range _ _ _) Hc)) as (k' & Ek' & Hk').
        rewrite Hk in Ek'. injection Ek' as <-.
        destruct Hk' as [E|E]; [left; exact E|].
        right. right. apply item_of_getitem. exact E. }
    split; [apply NoDup_filter, NoDup_range|].
    split; [apply NoDup_filter, NoDup_range|].
    split; [|split; [|split]].
    + intros c Hf He. apply filter_In in Hf, He.
      destruct Hf as [_ Hf]. destruct He as [_ He].
      apply Z.eqb_eq in Hf, He. lia.
    + intros c [H|H]; apply filter_In in H; destruct H as [H _];
        apply In_range in H; exact H.
    + intros c k Hc Hk. apply filter_In in Hc. destruct Hc as [Hc Hcount].
      apply In_range in Hc. apply Z.eqb_eq in Hcount.
      destruct Hpick as (p & Hp).
      pose proof (proj1 (fill_count_all ps c) Hcount p Hp) as Hf.
      unfold filled_at in Hf. apply andb_true_iff in Hf.
      destruct Hf as [_ Hf]. apply Z.eqb_eq in Hf.
      destruct (Hchk p c k Hp Hc Hk) as [E|[[_ E]|E]]; [auto|contradiction|].
      left. congruence.
    + intros c k Hc Hk. apply filter_In in Hc. destruct Hc as [Hc Hcount].
      apply In_range in Hc. apply Z.eqb_eq in Hcount.
      destruct Hpick as (p & Hp).
      pose proof (proj1 (fill_count_none ps c) Hcount p Hp) as Hf.
      unfold filled_at in Hf. apply andb_false_iff in Hf.
      assert (Hp1 : item p c <> 1).
      { destruct Hf as [Hf|Hf]; [apply Z.leb_gt in Hf; lia|].
        apply Z.eqb_neq in Hf. exact Hf. }
      destruct (Hchk p c k Hp Hc Hk) as [E|[[E _]|E]]; [lia|exact E|congruence].
Qed.

(** ** Decided cells stay decided *)

Section KeepsDecided.

Lemma keeps_decided_refl (g : Grid) : keeps_decided g g.
Proof. intros i j v H Hb. exists v. auto. Qed.

Lemma keeps_decided_trans (g1 g2 g3 : Grid) :
  keeps_decided g1 g2 -> keeps_decided g2 g3 -> keeps_decided g1 g3.
Proof.
  intros H12 H23 i j v H Hb.
  destruct (H12 i j v H Hb) as (v' & H' & Hb'). exact (H23 i j v' H' Hb').
Qed.

Lemma set_cell_keeps_decided (g g' : Grid) (r c v : Z) :
  bit v -> set_cell g r c v = Some g' -> keeps_decided g g'.
Proof.
  intros Hv H.
  destruct (set_cell_norm _ _ _ _ _ H)
    as (i & j & row & old & _ & Hrow & Hj & Hold & _ & ->).
  intros i' j' w Hw Hb.
  rewrite cell_update by (try exact Hrow; eapply norm_index_bound; exact Hj).
  destruct (Nat.eqb i i' && Nat.eqb j j'); [exists v|exists w]; auto.
Qed.

Lemma overlap_mark_keeps (r c : Z) (s s' : PassState) :
  overlap_mark r c s = Some s' -> keeps_decided (snd s) (snd s').
Proof.
  destruct s as [ch g]. unfold overlap_mark. intros H. unpack; cbn [snd].
  - eapply set_cell_keeps_decided; [|eassumption]. right. reflexivity.
  - apply keeps_decided_refl.
Qed.

Lemma possibility_mark_keeps (v r c : Z) (s s' : PassState) :
  bit v -> possibility_mark v r c s = Some s' -> keeps_decided (snd s) (snd s').
Proof.
  intros Hv. destruct s as [ch g]. unfold possibility_mark. intros H.
  unpack; cbn [snd].
  - eapply set_cell_keeps_decided; eassumption.
  - apply keeps_decided_refl.
Qed.

Lemma for_each_keeps {A : Type} (xs : list A)
  (body : A -> PassState -> option PassState) :
  (forall x s s', body x s = Some s' -> keeps_decided (snd s) (snd s')) ->
  forall s s', for_each xs body s = Some s' -> keeps_decided (snd s) (snd s').
Proof.
  intros Hbody s s' H.
  apply (for_each_inv (fun s1 => keeps_decided (snd s) (snd s1)) xs body)
    with (s := s); [|apply keeps_decided_refl|exact H].
  intros x s1 s2 _ H1 H2.
  eapply keeps_decided_trans; [exact H1|]. eapply Hbody. exact H2.
Qed.

Lemma overlap_row_keeps (puzzle : NonogramPuzzle) (r : Z) (s s' : PassState) :
  overlap_row puzzle r s = Some s' -> keeps_decided (snd s) (snd s').
Proof.
  unfold overlap_row. intros H. unpack.
  eapply for_each_keeps; [|eassumption].
  intros x s1 s2. apply overlap_mark_keeps.
Qed.

Lemma overlap_col_keeps (puzzle : NonogramPuzzle) (c : Z) (s s' : PassState) :
  overlap_col puzzle c s = Some s' -> keeps_decided (snd s) (snd s').
Proof.
  unfold overlap_col. intros H. unpack.
  eapply for_each_keeps; [|eassumption].
  intros x s1 s2. apply overlap_mark_keeps.
Qed.

Lemma possibility_row_keeps (puzzle : NonogramPuzzle) (r : Z) (s s' : PassState) :
  possibility_row puzzle r s = Some s' -> keeps_decided (snd s) (snd s').
Proof.
  destruct s as [ch g]. unfold possibility_row. intros H. unpack.
  eapply keeps_decided_trans.
  - eapply (for_each_keeps l1); [|eassumption].
    intros x s1 s2. apply possibility_mark_keeps. right. reflexivity.
  - eapply (for_each_keeps l2); [|eassumption].
    intros x s1 s2. apply possibility_mark_keeps. left. reflexivity.
Qed.

Lemma possibility_col_keeps (puzzle : NonogramPuzzle) (c : Z) (s s' : PassState) :
  possibility_col puzzle c s = Some s' -> keeps_decided (snd s) (snd s').
Proof.
  destruct s as [ch g]. unfold possibility_col. intros H. unpack.
  eapply keeps_decided_trans.
  - eapply (for_each_keeps l1); [|eassumption].
    intros x s1 s2. apply possibility_mark_keeps. right. reflexivity.
  - eapply (for_each_keeps l2); [|eassumption].
    intros x s1 s2. apply possibility_mark_keeps. left. reflexivity.
Qed.

Lemma overlap_pass_keeps (puzzle : NonogramPuzzle) (g : Grid) (s' : PassState) :
  apply_overlap_pass puzzle g = Some s' -> keeps_decided g (snd s').
Proof.
  unfold apply_overlap_pass. intros H. unpack.
  eapply keeps_decided_trans.
  - eapply (for_each_keeps _ (overlap_row puzzle) (overlap_row_keeps puzzle)
              (false, g)). eassumption.
  - eapply (for_each_keeps _ (overlap_col puzzle) (overlap_col_keeps puzzle)).
    eassumption.
Qed.

Lemma possibility_pass_keeps (puzzle : NonogramPuzzle) (g : Grid)
  (s' : PassState) :
  apply_possibility_pass puzzle g = Some s' -> keeps_decided g (snd s').
Proof.
  unfold apply_possibility_pass. intros H. unpack.
  eapply keeps_decided_trans.
  - eapply (for_each_keeps _ (possibility_row puzzle)
              (possibility_row_keeps puzzle) (false, g)). eassumption.
  - eapply (for_each_keeps _ (possibility_col puzzle)
              (possibility_col_keeps puzzle)). eassumption.
Qed.

End KeepsDecided.

(** ** A pass only decides unknown cells *)

Section Advance.

Lemma only_decides_refl (g : Grid) : only_decides g g.
Proof. intros i j v H. left. exact H. Qed.

Lemma only_decides_trans (g1 g2 g3 : Grid) :
  only_decides g1 g2 -> only_decides g2 g3 -> only_decides g1 g3.
Proof.
  intros H12 H23 i j v H.
  destruct (H12 i j v H) as [H2|(-> & [H2|H2])].
  - exact (H23 i j v H2).
  - right. split; [reflexivity|].
    destruct (H23 i j 0 H2) as [H3|(E & _)]; [auto|discriminate].
  - right. split; [reflexivity|].
    destruct (H23 i j 1 H2) as [H3|(E & _)]; [auto|discriminate].
Qed.

Lemma advance_refl (s : PassState) : grid_states (snd s) -> advance s s.
Proof.
  intros H. split; [apply only_decides_refl|]. split; [exact H|].
  split; [lia|auto].
Qed.

Lemma advance_trans (s1 s2 s3 : PassState) :
  advance s1 s2 -> advance s2 s3 -> advance s1 s3.
Proof.
  intros (Ha & _ & Hb & Hc) (Ha' & Hg' & Hb' & Hc').
  split; [eapply only_decides_trans; eassumption|]. split; [exact Hg'|].
  split; [lia|]. intros H. destruct (Hc' H) as [H2|H2]; [|right; lia].
  destruct (Hc H2); [auto|right; lia].
Qed.

Lemma get_cell_state (g : Grid) (r c k : Z) :
  grid_states g -> get_cell g r c = Some k -> cell_state k.
Proof.
  unfold grid_states, get_cell. intros Hg H.
  destruct (getitem g r) as [row|] eqn:Erow; [|discriminate]. cbn [bind] in H.
  rewrite Forall_forall in Hg. specialize (Hg row (getitem_In _ _ _ Erow)).
  rewrite Forall_forall in Hg. exact (Hg k (getitem_In _ _ _ H)).
Qed.

(** Writing a decided value into an unknown cell. *)
Lemma set_cell_decides (g g' : Grid) (r c v : Z) (ch ch' : bool) :
  grid_states g -> bit v -> get_cell g r c = Some (-1) ->
  set_cell g r c v = Some g' -> advance (ch, g) (ch', g').
Proof.
  intros Hg Hv Hget H.
  destruct (set_cell_norm _ _ _ _ _ H)
    as (i & j & row & old & _ & Hrow & Hj & Hold & Hget' & ->).
  rewrite Hget in Hget'. injection Hget' as <-.
  pose proof (norm_index_bound _ _ _ Hj) as Hjb.
  pose proof (unknowns_update g i j row (-1) v Hrow Hold) as Hu.
  destruct (Z.eq_dec (-1) (-1)); [|congruence].
  destruct (Z.eq_dec v (-1)); [destruct Hv; lia|].
  unfold advance. cbn [fst snd]. split; [|split; [|split]].
  - intros i' j' w Hw. rewrite cell_update by assumption.
    destruct (Nat.eqb_spec i i') as [<-|]; cbn [andb]; [|left; exact Hw].
    destruct (Nat.eqb_spec j j') as [<-|]; [|left; exact Hw].
    right. unfold cell in Hw. rewrite Hrow, Hold in Hw. injection Hw as <-.
    split; [reflexivity|]. destruct Hv as [->| ->]; auto.
  - apply grid_states_update; [exact Hg|exact Hrow|].
    unfold cell_state. destruct Hv; auto.
  - lia.
  - intros _. right. lia.
Qed.

Lemma overlap_mark_advance (r c : Z) (s s' : PassState) :
  grid_states (snd s) -> overlap_mark r c s = Some s' -> advance s s'.
Proof.
  destruct s as [ch g]. cbn [snd]. unfold overlap_mark. intros Hg H. unpack.
  - apply Z.eqb_eq in E0. subst.
    eapply set_cell_decides; try eassumption. right. reflexivity.
  - apply advance_refl. exact Hg.
Qed.

Lemma possibility_mark_advance (v r c : Z) (s s' : PassState) :
  grid_states (snd s) -> bit v ->
  (forall k, get_cell (snd s) r c = Some k -> k = v \/ k = -1) ->
  possibility_mark v r c s = Some s' -> advance s s'.
Proof.
  destruct s as [ch g]. cbn [snd]. unfold possibility_mark.
  intros Hg Hv Hk H. unpack.
  - apply negb_true_iff, Z.eqb_neq in E0.
    destruct (Hk _ eq_refl) as [->| ->]; [congruence|].
    eapply set_cell_decides; eassumption.
  - apply advance_refl. exact Hg.
Qed.

Lemma for_each_advance {A : Type} (xs : list A)
  (body : A -> PassState -> option PassState) :
  (forall x s s', In x xs -> grid_states (snd s) -> body x s = Some s' ->
     advance s s') ->
  forall s s', grid_states (snd s) -> for_each xs body s = Some s' ->
    advance s s'.
Proof.
  intros Hbody s s' Hg H.
  apply (for_each_inv (fun s1 => advance s s1) xs body) with (s := s);
    [|apply advance_refl; exact Hg|exact H].
  intros x s1 s2 Hx H1 H2.
  eapply advance_trans; [exact H1|].
  apply (Hbody x); [exact Hx| |exact H2]. destruct H1 as (_ & H1 & _). exact H1.
Qed.

(** A write leaves every other cell as it was. *)
Lemma set_cell_frame (g g' : Grid) (r c v r' c' : Z) :
  set_cell g r c v = Some g' ->
  0 <= r -> 0 <= c -> 0 <= r' -> 0 <= c' -> (r, c) <> (r', c') ->
  get_cell g' r' c' = get_cell g r' c'.
Proof.
  intros H Hr Hc Hr' Hc' Hne.
  destruct (set_cell_norm _ _ _ _ _ H)
    as (i & j & row & old & Hi & Hrow & Hj & Hold & _ & ->).
  destruct (norm_index_nonneg _ _ _ Hr Hi) as [-> _].
  destruct (norm_index_nonneg _ _ _ Hc Hj) as [-> _].
  rewrite !get_cell_nonneg by assumption.
  rewrite cell_update by (try exact Hrow; eapply norm_index_bound; exact Hj).
  destruct (Nat.eqb_spec (Z.to_nat r) (Z.to_nat r')); cbn [andb];
    [|reflexivity].
  destruct (Nat.eqb_spec (Z.to_nat c) (Z.to_nat c')); [|reflexivity].
  exfalso. apply Hne. f_equal; lia.
Qed.

Lemma possibility_mark_frame (v r c : Z) (s s' : PassState) (r' c' : Z) :
  possibility_mark v r c s = Some s' ->
  0 <= r -> 0 <= c -> 0 <= r' -> 0 <= c' -> (r, c) <> (r', c') ->
  get_cell (snd s') r' c' = get_cell (snd s) r' c'.
Proof.
  destruct s as [ch g]. unfold possibility_mark. intros H. unpack; cbn [snd].
  - intros. eapply set_cell_frame; eassumption.
  - reflexivity.
Qed.

(** The marks of one line: the targets are distinct cells, and each held
    the value to write or was unknown when the line was read. *)
Lemma marks_advance (coord : Z -> Z * Z) (v : Z) :
  bit v ->
  (forall t, 0 <= t -> 0 <= fst (coord t) /\ 0 <= snd (coord t)) ->
  (forall t t', coord t = coord t' -> t = t') ->
  forall (targets : list Z) (s s' : PassState),
    NoDup targets -> (forall t, In t targets -> 0 <= t) ->
    grid_states (snd s) ->
    (forall t k, In t targets ->
       get_cell (snd s) (fst (coord t)) (snd (coord t)) = Some k ->
       k = v \/ k = -1) ->
    for_each targets
      (fun t => possibility_mark v (fst (coord t)) (snd (coord t))) s = Some s' ->
    advance s s' /\
    forall r c, 0 <= r -> 0 <= c ->
      (forall t, In t targets -> coord t <> (r, c)) ->
      get_cell (snd s') r c = get_cell (snd s) r c.
Proof.
  intros Hv Hnn Hinj targets.
  induction targets as [|t ts IH]; intros s s' Hnd Hpos Hg Hk H.
  - injection H as <-. split; [apply advance_refl; exact Hg|reflexivity].
  - cbn [for_each] in H.
    destruct (possibility_mark v (fst (coord t)) (snd (coord t)) s)
      as [s1|] eqn:E1; [|discriminate]. cbn [bind] in H.
    inversion Hnd as [|? ? Hnotin Hnd']; subst.
    destruct (Hnn t (Hpos t (or_introl eq_refl))) as [Hr Hc].
    assert (Hadv1 : advance s s1).
    { eapply possibility_mark_advance; [exact Hg|exact Hv| |exact E1].
      intros k. apply Hk. left. reflexivity. }
    assert (Hframe1 : forall t', In t' ts ->
              get_cell (snd s1) (fst (coord t')) (snd (coord t')) =
              get_cell (snd s) (fst (coord t')) (snd (coord t'))).
    { intros t' Ht'.
      destruct (Hnn t' (Hpos t' (or_intror Ht'))) as [Hr' Hc'].
      eapply possibility_mark_frame; try eassumption.
      intros E. apply Hnotin.
      assert (coord t = coord t') by
        (destruct (coord t), (coord t'); exact E).
      rewrite (Hinj _ _ H0). exact Ht'. }
    destruct (IH s1 s' Hnd' (fun x Hx => Hpos x (or_intror Hx))) as [Hadv Hfr].
    + destruct Hadv1 as (_ & H1 & _). exact H1.
    + intros t' k Ht'. rewrite (Hframe1 t' Ht'). apply Hk. right. exact Ht'.
    + exact H.
    + split; [eapply advance_trans; eassumption|].
      intros r c Hr0 Hc0 Hother.
      rewrite Hfr by (try assumption; intros x Hx; apply Hother; right; exact Hx).
      eapply possibility_mark_frame; try eassumption.
      intros E. apply (Hother t (or_introl eq_refl)).
      destruct (coord t). exact E.
Qed.

End Advance.

(** ** The possibility pass and the round *)

Section Passes.

Lemma column_of_nth (g : Grid) (c : Z) (idxs col : list Z) :
  column_of g c idxs = Some col ->
  length col = length idxs /\
  forall n, (n < length idxs)%nat ->
    nth_error col n = get_cell g (nth n idxs 0) c.
Proof.
  revert col. induction idxs as [|r t IH]; intros col H.
  - injection H as <-. split; [reflexivity|]. intros n Hn. simpl in Hn. lia.
  - cbn [column_of] in H. unpack.
    destruct (IH _ eq_refl) as [Hlen Hnth].
    split; [simpl; lia|].
    intros [|n] Hn; [simpl; congruence|].
    simpl in Hn. cbn [nth_error nth]. apply Hnth. lia.
Qed.

Lemma nth_range (lo hi : Z) (n : nat) :
  (n < Z.to_nat (hi - lo))%nat -> nth n (range lo hi) 0 = lo + Z.of_nat n.
Proof.
  revert lo. induction n as [|n IH]; intros lo Hn;
    rewrite range_cons by lia; cbn [nth]; [lia|].
  rewrite IH by lia. lia.
Qed.

Lemma column_of_getitem (g : Grid) (c N : Z) (col : list Z) (i : Z) :
  column_of g c (range 0 N) = Some col -> 0 <= i < N ->
  getitem col i = get_cell g i c.
Proof.
  intros H Hi. destruct (column_of_nth _ _ _ _ H) as [Hlen Hnth].
  rewrite length_range in Hlen.
  rewrite getitem_nonneg by lia.
  rewrite Hnth by (rewrite length_range; lia).
  rewrite nth_range by lia. f_equal. lia.
Qed.

Lemma possibility_row_advance (puzzle : NonogramPuzzle) (r : Z)
  (s s' : PassState) :
  0 <= r -> grid_states (snd s) ->
  possibility_row puzzle r s = Some s' -> advance s s'.
Proof.
  destruct s as [ch g]. cbn [snd]. unfold possibility_row.
  intros Hr Hg H. unpack.
  match goal with
  | Hd : deduce_from_possibilities _ _ ?known = Some (?mf, ?me),
    Hk : getitem g r = Some ?known,
    H1 : for_each ?mf _ _ = Some ?s1 |- _ =>
      destruct (deduce_marks _ _ _ _ _ Hd)
        as (Hnd1 & Hnd2 & Hdis & Hin & Hfill & Hempty);
      assert (Hread : forall t, get_cell g r t = getitem known t)
        by (intros t; unfold get_cell; rewrite Hk; reflexivity);
      destruct (marks_advance (fun t => (r, t)) 1) with
        (targets := mf) (s := (ch, g)) (s' := s1) as [Hadv1 Hframe1];
      [right; reflexivity
      |intros t Ht; cbn [fst snd]; lia
      |intros t t' [= ->]; reflexivity
      |exact Hnd1
      |intros t Ht; apply (Hin t); left; exact Ht
      |exact Hg
      |intros t k Ht; cbn [fst snd]; rewrite Hread; apply Hfill; exact Ht
      |exact H1
      |];
      eapply advance_trans; [exact Hadv1|];
      eapply (marks_advance (fun t => (r, t)) 0) with (targets := me);
      [left; reflexivity
      |intros t Ht; cbn [fst snd]; lia
      |intros t t' [= ->]; reflexivity
      |exact Hnd2
      |intros t Ht; apply (Hin t); right; exact Ht
      |destruct Hadv1 as (_ & Hg1 & _); exact Hg1
      | 
      |eassumption]
  end.
  intros t k Ht. cbn [fst snd]. rewrite Hframe1.
  - rewrite Hread. intros Hk.
    pose proof (Hempty t k Ht Hk) as Hk1.
    rewrite <- Hread in Hk.
    destruct (get_cell_state _ _ _ _ Hg Hk) as [Es|[Es|Es]];
      [auto|auto|contradiction].
  - exact Hr.
  - apply (Hin t). right. exact Ht.
  - intros t' Ht' [= ->]. exact (Hdis _ Ht' Ht).
Qed.

Lemma possibility_col_advance (puzzle : NonogramPuzzle) (c : Z)
  (s s' : PassState) :
  0 <= c -> grid_states (snd s) ->
  possibility_col puzzle c s = Some s' -> advance s s'.
Proof.
  destruct s as [ch g]. cbn [snd]. unfold possibility_col.
  intros Hc Hg H. unpack.
  match goal with
  | Hd : deduce_from_possibilities _ _ ?known = Some (?mf, ?me),
    Hk : column_of g c _ = Some ?known,
    H1 : for_each ?mf _ _ = Some ?s1 |- _ =>
      destruct (deduce_marks _ _ _ _ _ Hd)
        as (Hnd1 & Hnd2 & Hdis & Hin & Hfill & Hempty);
      assert (Hread : forall t, 0 <= t < size puzzle ->
                get_cell g t c = getitem known t)
        by (intros t Ht; symmetry; eapply column_of_getitem; eassumption);
      destruct (marks_advance (fun t => (t, c)) 1) with
        (targets := mf) (s := (ch, g)) (s' := s1) as [Hadv1 Hframe1];
      [right; reflexivity
      |intros t Ht; cbn [fst snd]; lia
      |intros t t' [= ->]; reflexivity
      |exact Hnd1
      |intros t Ht; apply (Hin t); left; exact Ht
      |exact Hg
      |intros t k Ht; cbn [fst snd];
       rewrite Hread by (apply Hin; left; exact Ht); apply Hfill; exact Ht
      |exact H1
      |];
      eapply advance_trans; [exact Hadv1|];
      eapply (marks_advance (fun t => (t, c)) 0) with (targets := me);
      [left; reflexivity
      |intros t Ht; cbn [fst snd]; lia
      |intros t t' [= ->]; reflexivity
      |exact Hnd2
      |intros t Ht; apply (Hin t); right; exact Ht
      |destruct Hadv1 as (_ & Hg1 & _); exact Hg1
      | 
      |eassumption]
  end.
  intros t k Ht. cbn [fst snd].
  assert (Htr : 0 <= t < size puzzle) by (apply Hin; right; exact Ht).
  rewrite Hframe1.
  - intros Hk. pose proof Hk as Hk'. rewrite Hread in Hk' by exact Htr.
    pose proof (Hempty t k Ht Hk') as Hk1.
    destruct (get_cell_state _ _ _ _ Hg Hk) as [Es|[Es|Es]];
      [auto|auto|contradiction].
  - lia.
  - exact Hc.
  - intros t' Ht' [= ->]. exact (Hdis _ Ht' Ht).
Qed.

Lemma overlap_pass_advance (puzzle : NonogramPuzzle) (g : Grid)
  (s' : PassState) :
  grid_states g -> apply_overlap_pass puzzle g = Some s' ->
  advance (false, g) s'.
Proof.
  unfold apply_overlap_pass. intros Hg H. unpack.
  assert (Hbody : forall (get : NonogramPuzzle -> list (list Z))
                    (mark : Z -> Z -> PassState -> option PassState),
            (forall a b s1 s2, grid_states (snd s1) -> mark a b s1 = Some s2 ->
               advance s1 s2) ->
            forall x s1 s2, grid_states (snd s1) ->
              (runs <- getitem (get puzzle) x ;;
               for_each (overlap_fill_line (size puzzle) runs) (mark x) s1)
              = Some s2 -> advance s1 s2).
  { intros get mark Hmark x s1 s2 Hg1 H1. unpack.
    eapply for_each_advance; [|exact Hg1|eassumption].
    intros y a b _. apply Hmark. }
  eapply advance_trans.
  - eapply (for_each_advance _ (overlap_row puzzle)); [|exact Hg|eassumption].
    intros x s1 s2 _ Hg1 H1. unfold overlap_row in H1.
    apply (Hbody rows (fun r c => overlap_mark r c)
             (fun a b => overlap_mark_advance a b) x s1 s2 Hg1 H1).
  - eapply (for_each_advance _ (overlap_col puzzle)); [| |eassumption].
    + intros x s1 s2 _ Hg1 H1. unfold overlap_col in H1.
      apply (Hbody cols (fun c i => overlap_mark i c)
               (fun a b => overlap_mark_advance b a) x s1 s2 Hg1 H1).
    + match goal with
      | H1 : for_each _ (overlap_row puzzle) _ = Some ?p |- grid_states (snd ?p) =>
          assert (Hadv : advance (false, g) p)
      end.
      { eapply (for_each_advance _ (overlap_row puzzle)); [|exact Hg|eassumption].
        intros x s1 s2 _ Hg1 H1. unfold overlap_row in H1.
        apply (Hbody rows (fun r c => overlap_mark r c)
                 (fun a b => overlap_mark_advance a b) x s1 s2 Hg1 H1). }
      destruct Hadv as (_ & Hg1 & _). exact Hg1.
Qed.

Lemma possibility_pass_advance (puzzle : NonogramPuzzle) (g : Grid)
  (s' : PassState) :
  grid_states g -> apply_possibility_pass puzzle g = Some s' ->
  advance (false, g) s'.
Proof.
  unfold apply_possibility_pass. intros Hg H. unpack.
  match goal with
  | H1 : for_each _ (possibility_row puzzle) _ = Some ?p |- _ =>
      assert (Hadv : advance (false, g) p)
  end.
  { eapply (for_each_advance _ (possibility_row puzzle)); [|exact Hg|eassumption].
    intros x s1 s2 Hx Hg1 H1. apply In_range in Hx.
    eapply possibility_row_advance; [|exact Hg1|exact H1]. lia. }
  eapply advance_trans; [exact Hadv|].
  eapply (for_each_advance _ (possibility_col puzzle)); [| |eassumption].
  - intros x s1 s2 Hx Hg1 H1. apply In_range in Hx.
    eapply possibility_col_advance; [|exact Hg1|exact H1]. lia.
  - destruct Hadv as (_ & Hg1 & _). exact Hg1.
Qed.

(** One round: cells only go from unknown to decided, and a round that
    reports a change has decided at least one unknown cell. *)
Lemma round_advance (puzzle : NonogramPuzzle) (g g' : Grid) (ch : bool) :
  grid_states g -> propagation_round puzzle g = Some (ch, g') ->
  only_decides g g' /\ grid_states g' /\
  (unknowns g' <= unknowns g)%nat /\
  (ch = true -> (unknowns g' < unknowns g)%nat).
Proof.
  unfold propagation_round. intros Hg H. unpack.
  match goal with
  | H1 : apply_overlap_pass _ _ = Some (?c1, ?g1),
    H2 : apply_possibility_pass _ _ = Some (?c2, ?g2) |- _ =>
      pose proof (overlap_pass_advance _ _ _ Hg H1) as (Ha & Hg1 & Hb & Hc);
      pose proof (possibility_pass_advance _ _ _ Hg1 H2) as (Ha' & Hg2 & Hb' & Hc')
  end.
  cbn [fst snd] in *.
  split; [eapply only_decides_trans; eassumption|]. split; [assumption|].
  split; [lia|].
  intros Hch. apply orb_true_iff in Hch. destruct Hch as [Hch|Hch].
  - destruct (Hc Hch); [discriminate|lia].
  - destruct (Hc' Hch); [discriminate|lia].
Qed.

End Passes.

(** ** The solve loop *)

Section SolveLoop.

Lemma solve_loop_finishes (puzzle : NonogramPuzzle) (rounds : nat) :
  forall state : Grid,
    grid_states state -> (unknowns state < rounds)%nat ->
    solve_loop rounds puzzle state <> Unfinished.
Proof.
  induction rounds as [|rounds IH]; intros state Hg Hu; [lia|].
  cbn [solve_loop].
  destruct (is_puzzle_solved puzzle state) as [[|]|]; try discriminate.
  destruct (propagation_round puzzle state) as [[changed state']|] eqn:E;
    [|discriminate].
  destruct (round_advance _ _ _ _ Hg E) as (_ & Hg' & Hle & Hlt).
  destruct changed; [|discriminate].
  apply IH; [exact Hg'|]. specialize (Hlt eq_refl). lia.
Qed.

(** More rounds than needed change nothing. *)
Lemma solve_loop_more (puzzle : NonogramPuzzle) (rounds : nat) :
  forall (state : Grid) (extra : nat),
    solve_loop rounds puzzle state <> Unfinished ->
    solve_loop (rounds + extra) puzzle state = solve_loop rounds puzzle state.
Proof.
  induction rounds as [|rounds IH]; intros state extra H; [contradiction|].
  cbn [solve_loop Nat.add] in *.
  destruct (is_puzzle_solved puzzle state) as [[|]|]; try reflexivity.
  destruct (propagation_round puzzle state) as [[changed state']|];
    [|reflexivity].
  destruct changed; [|reflexivity]. apply IH. exact H.
Qed.

Lemma initial_state_states (n : Z) : grid_states (initial_state n).
Proof.
  unfold grid_states, initial_state. apply Forall_forall. intros row Hrow.
  apply in_map_iff in Hrow. destruct Hrow as (_ & <- & _).
  apply Forall_replicate. left. reflexivity.
Qed.

Lemma unknowns_initial_state (n : Z) :
  unknowns (initial_state n) = (Z.to_nat n * Z.to_nat n)%nat.
Proof.
  unfold unknowns, initial_state. rewrite map_map.
  replace (Z.to_nat n * Z.to_nat n)%nat
    with (length (range 0 n) * Z.to_nat n)%nat
    by (rewrite length_range, Z.sub_0_r; reflexivity).
  induction (range 0 n) as [|x t IH]; [reflexivity|].
  cbn [map length]. unfold list_sum in *. cbn [fold_right].
  rewrite IH. unfold replicate.
  rewrite count_occ_repeat_eq by reflexivity. lia.
Qed.

Lemma solve_nonogram_finishes (puzzle : NonogramPuzzle) :
  solve_nonogram (S (Z.to_nat (size puzzle * size puzzle))) puzzle
  <> Unfinished.
Proof.
  unfold solve_nonogram.
  pose proof (solve_loop_finishes puzzle
                (S (Z.to_nat (size puzzle * size puzzle)))
                (initial_state (size puzzle))
                (initial_state_states _)) as H.
  rewrite unknowns_initial_state in H.
  assert (Hlt : (Z.to_nat (size puzzle) * Z.to_nat (size puzzle)
                 < S (Z.to_nat (size puzzle * size puzzle)))%nat).
  { destruct (Z_lt_le_dec (size puzzle) 0).
    - replace (Z.to_nat (size puzzle)) with O by lia. lia.
    - rewrite Z2Nat.inj_mul by lia. lia. }
  specialize (H Hlt).
  destruct (solve_loop _ puzzle _) as [state| |]; [|discriminate|contradiction].
  destruct (is_puzzle_solved puzzle state); discriminate.
Qed.

End SolveLoop.

(** ** On a valid puzzle nothing raises *)

Section Total.

Lemma for_each_total {A S : Type} (I : S -> Prop) (xs : list A)
  (body : A -> S -> option S) :
  (forall x s, In x xs -> I s -> exists s', body x s = Some s' /\ I s') ->
  forall s, I s -> exists s', for_each xs body s = Some s' /\ I s'.
Proof.
  induction xs as [|x t IH]; intros Hbody s Hs.
  - exists s. split; [reflexivity|exact Hs].
  - destruct (Hbody x s (or_introl eq_refl) Hs) as (s1 & E1 & Hs1).
    cbn [for_each]. rewrite E1. cbn [bind].
    apply IH; [|exact Hs1]. intros y a Hy. apply Hbody. right. exact Hy.
Qed.

Lemma Forall_nth_error {A : Type} (P : A -> Prop) (l : list A) (n : nat) (x : A) :
  Forall P l -> nth_error l n = Some x -> P x.
Proof.
  intros H E. rewrite Forall_forall in H. apply H.
  eapply nth_error_In. exact E.
Qed.

Lemma getitem_total {A : Type} (l : list A) (i : Z) :
  0 <= i < len l -> exists x, getitem l i = Some x.
Proof.
  intros H. rewrite getitem_in by exact H.
  destruct (nth_error l (Z.to_nat i)) as [x|] eqn:E; [exists x; reflexivity|].
  apply nth_error_None in E. unfold len in H. lia.
Qed.

Lemma square_row (n : Z) (g : Grid) (r : Z) :
  square n g -> 0 <= r < n ->
  exists row, getitem g r = Some row /\ len row = n.
Proof.
  intros [Hlen Hrows] Hr.
  destruct (getitem_total g r ltac:(lia)) as (row & E).
  exists row. split; [exact E|].
  rewrite Forall_forall in Hrows. apply Hrows. eapply getitem_In. exact E.
Qed.

Lemma get_cell_total (n : Z) (g : Grid) (r c : Z) :
  square n g -> 0 <= r < n -> 0 <= c < n ->
  exists v, get_cell g r c = Some v.
Proof.
  intros Hsq Hr Hc. destruct (square_row n g r Hsq Hr) as (row & E & Hl).
  unfold get_cell. rewrite E. cbn [bind]. apply getitem_total. lia.
Qed.

Lemma set_cell_working (n : Z) (g : Grid) (r c v : Z) :
  working_grid n g -> 0 <= r < n -> 0 <= c < n -> cell_state v ->
  exists g', set_cell g r c v = Some g' /\ working_grid n g'.
Proof.
  intros [Hsq Hst] Hr Hc Hv.
  destruct (square_row n g r Hsq Hr) as (row & E & Hl).
  destruct Hsq as [Hlen Hrows].
  unfold set_cell. rewrite E. cbn [bind].
  rewrite setitem_in by lia. cbn [bind].
  rewrite setitem_in by lia.
  eexists. split; [reflexivity|].
  rewrite getitem_in in E by lia.
  split; [split|].
  - unfold len. rewrite length_update_nth. exact Hlen.
  - apply Forall_update_nth; [exact Hrows|].
    unfold len. rewrite length_update_nth. exact Hl.
  - apply grid_states_update; assumption.
Qed.

Lemma overlap_mark_total (n : Z) (r c : Z) (s : PassState) :
  working_grid n (snd s) -> 0 <= r < n -> 0 <= c < n ->
  exists s', overlap_mark r c s = Some s' /\ working_grid n (snd s').
Proof.
  destruct s as [ch g]. cbn [snd]. intros Hw Hr Hc.
  destruct (get_cell_total n g r c (proj1 Hw) Hr Hc) as (v & Ev).
  unfold overlap_mark. rewrite Ev. cbn [bind].
  destruct (v =? -1).
  - destruct (set_cell_working n g r c 1 Hw Hr Hc) as (g' & Eg & Hw');
      [unfold cell_state; auto|].
    rewrite Eg. cbn [bind]. eexists. split; [reflexivity|exact Hw'].
  - eexists. split; [reflexivity|exact Hw].
Qed.

Lemma possibility_mark_total (n : Z) (v r c : Z) (s : PassState) :
  working_grid n (snd s) -> bit v -> 0 <= r < n -> 0 <= c < n ->
  exists s', possibility_mark v r c s = Some s' /\ working_grid n (snd s').
Proof.
  destruct s as [ch g]. cbn [snd]. intros Hw Hv Hr Hc.
  destruct (get_cell_total n g r c (proj1 Hw) Hr Hc) as (x & Ex).
  unfold possibility_mark. rewrite Ex. cbn [bind].
  destruct (negb (x =? v)).
  - destruct (set_cell_working n g r c v Hw Hr Hc) as (g' & Eg & Hw');
      [unfold cell_state; destruct Hv; auto|].
    rewrite Eg. cbn [bind]. eexists. split; [reflexivity|exact Hw'].
  - eexists. split; [reflexivity|exact Hw].
Qed.

Lemma sum_nonneg (l : list Z) : Forall (fun r => 1 <= r) l -> 0 <= sum l.
Proof.
  intros H. pose proof (sum_ge_len l H). pose proof (len_nonneg l). lia.
Qed.

Lemma Forall_firstn_skipn {A : Type} (P : A -> Prop) (n : nat) (l : list A) :
  Forall P l -> Forall P (firstn n l) /\ Forall P (skipn n l).
Proof.
  intros H. rewrite <- (firstn_skipn n l) in H. apply Forall_app in H. exact H.
Qed.

(** The overlap deducer stays within the line. *)
Lemma overlap_in_line (n : Z) (runs : list Z) (c : Z) :
  Forall (fun r => 1 <= r) runs ->
  In c (overlap_fill_line n runs) -> 0 <= c < n.
Proof.
  intros Hruns Hc.
  destruct runs as [|r0 rest] eqn:Eruns; [destruct Hc|].
  rewrite <- Eruns in *.
  assert (Hne : runs <> []) by (rewrite Eruns; discriminate).
  destruct (overlap_fill_line_members n runs Hne) as [Hpos Hneg].
  destruct (Z_lt_le_dec (slack n runs) 0) as [Hs|Hs].
  { rewrite (Hneg Hs) in Hc. destruct Hc. }
  destruct (Hpos Hs) as [_ Hmem]. apply Hmem in Hc.
  destruct Hc as (i & Hi & _ & Hc).
  unfold latestStart, earliestStart, slack in *.
  pose proof (sum_firstn_skipn i runs) as H1.
  pose proof (sum_firstn_skipn (S i) runs) as H2.
  pose proof (sum_firstn_succ runs i Hi) as H3.
  pose proof (sum_nonneg _ (proj1 (Forall_firstn_skipn _ i runs Hruns))) as H4.
  pose proof (sum_nonneg _ (proj2 (Forall_firstn_skipn _ (S i) runs Hruns)))
    as H5.
  unfold len in *. lia.
Qed.

Lemma column_of_total (n : Z) (g : Grid) (c : Z) (idxs : list Z) :
  working_grid n g -> 0 <= c < n -> (forall r, In r idxs -> 0 <= r < n) ->
  exists col, column_of g c idxs = Some col /\
    length col = length idxs /\ Forall cell_state col.
Proof.
  intros [Hsq Hst] Hc. induction idxs as [|r t IH]; intros Hidx.
  - exists []. repeat split. constructor.
  - destruct (get_cell_total n g r c Hsq (Hidx r (or_introl eq_refl)) Hc)
      as (v & Ev).
    destruct (IH (fun x Hx => Hidx x (or_intror Hx))) as (col & Ecol & Hl & Hs).
    exists (v :: col). cbn [column_of]. rewrite Ev. cbn [bind].
    rewrite Ecol. cbn [bind]. split; [reflexivity|].
    split; [simpl; lia|]. constructor; [|exact Hs].
    exact (get_cell_state _ _ _ _ Hst Ev).
Qed.

Section ValidPuzzle.

Variable puzzle : NonogramPuzzle.
Hypothesis Hvalid : valid_puzzle puzzle.

Let n := size puzzle.

Lemma clue_of_row (r : Z) :
  0 <= r < n ->
  exists runs, getitem (rows puzzle) r = Some runs /\
    Forall (fun x => 1 <= x) runs.
Proof.
  destruct Hvalid as (_ & Hr & _ & Hrows & _). intros Hi.
  destruct (getitem_total (rows puzzle) r ltac:(fold n in Hr; lia))
    as (runs & E).
  exists runs. split; [exact E|].
  rewrite Forall_forall in Hrows. apply Hrows. eapply getitem_In. exact E.
Qed.

Lemma clue_of_col (c : Z) :
  0 <= c < n ->
  exists runs, getitem (cols puzzle) c = Some runs /\
    Forall (fun x => 1 <= x) runs.
Proof.
  destruct Hvalid as (_ & _ & Hc & _ & Hcols). intros Hi.
  destruct (getitem_total (cols puzzle) c ltac:(fold n in Hc; lia))
    as (runs & E).
  exists runs. split; [exact E|].
  rewrite Forall_forall in Hcols. apply Hcols. eapply getitem_In. exact E.
Qed.

Lemma overlap_row_total (r : Z) (s : PassState) :
  0 <= r < n -> working_grid n (snd s) ->
  exists s', overlap_row puzzle r s = Some s' /\ working_grid n (snd s').
Proof.
  intros Hr Hw. destruct (clue_of_row r Hr) as (runs & E & Hruns).
  unfold overlap_row. rewrite E. cbn [bind].
  apply (for_each_total (fun s : PassState => working_grid n (snd s))); [|exact Hw].
  intros c s1 Hc Hw1. apply overlap_mark_total; [exact Hw1|exact Hr|].
  exact (overlap_in_line _ _ _ Hruns Hc).
Qed.

Lemma overlap_col_total (c : Z) (s : PassState) :
  0 <= c < n -> working_grid n (snd s) ->
  exists s', overlap_col puzzle c s = Some s' /\ working_grid n (snd s').
Proof.
  intros Hc Hw. destruct (clue_of_col c Hc) as (runs & E & Hruns).
  unfold overlap_col. rewrite E. cbn [bind].
  apply (for_each_total (fun s : PassState => working_grid n (snd s))); [|exact Hw].
  intros i s1 Hi Hw1. apply overlap_mark_total; [exact Hw1| |exact Hc].
  exact (overlap_in_line _ _ _ Hruns Hi).
Qed.

(** The marks of one line raise nothing once the line was deduced. *)
Lemma line_marks_total (runs known : list Z) (s : PassState)
  (mark : Z -> Z -> PassState -> option PassState) :
  len known = n -> Forall (fun x => 1 <= x) runs -> Forall cell_state known ->
  working_grid n (snd s) ->
  (forall v t s1, bit v -> 0 <= t < n -> working_grid n (snd s1) ->
     exists s2, mark v t s1 = Some s2 /\ working_grid n (snd s2)) ->
  exists s',
    ('(mf, me) <- deduce_from_possibilities n runs known ;;
     s1 <- for_each mf (mark 1) s ;;
     for_each me (mark 0) s1) = Some s' /\
    working_grid n (snd s').
Proof.
  intros Hknown Hruns Hstate Hw Hmark.
  destruct (deduce_exact n runs known Hknown Hruns Hstate)
    as (mf & me & Ed & _).
  destruct (deduce_marks _ _ _ _ _ Ed) as (_ & _ & _ & Hin & _).
  rewrite Ed. cbn [bind]. cbv beta iota.
  destruct (for_each_total (fun s : PassState => working_grid n (snd s)) mf (mark 1))
    with (s := s) as (s1 & E1 & Hw1); [|exact Hw|].
  { intros t a Ht Ha. apply Hmark; [right; reflexivity| |exact Ha].
    apply Hin. left. exact Ht. }
  destruct (for_each_total (fun s : PassState => working_grid n (snd s)) me (mark 0))
    with (s := s1) as (s2 & E2 & Hw2); [|exact Hw1|].
  { intros t a Ht Ha. apply Hmark; [left; reflexivity| |exact Ha].
    apply Hin. right. exact Ht. }
  exists s2. split; [|exact Hw2].
  rewrite E1. cbn [bind]. exact E2.
Qed.

Lemma possibility_row_total (r : Z) (s : PassState) :
  0 <= r < n -> working_grid n (snd s) ->
  exists s', possibility_row puzzle r s = Some s' /\ working_grid n (snd s').
Proof.
  intros Hr Hw. destruct s as [ch g]. cbn [snd] in Hw.
  destruct (square_row n g r (proj1 Hw) Hr) as (known & Ek & Hl).
  destruct (clue_of_row r Hr) as (runs & E & Hruns).
  unfold possibility_row. rewrite Ek. cbn [bind]. rewrite E. cbn [bind].
  apply (line_marks_total runs known (ch, g)
           (fun v c => possibility_mark v r c)); try assumption.
  - destruct Hw as [_ Hst]. unfold grid_states in Hst.
    rewrite Forall_forall in Hst. apply Hst. eapply getitem_In. exact Ek.
  - intros v t s1 Hv Ht Hw1. apply possibility_mark_total; assumption.
Qed.

Lemma possibility_col_total (c : Z) (s : PassState) :
  0 <= c < n -> working_grid n (snd s) ->
  exists s', possibility_col puzzle c s = Some s' /\ working_grid n (snd s').
Proof.
  intros Hc Hw. destruct s as [ch g]. cbn [snd] in Hw.
  destruct (column_of_total n g c (range 0 n) Hw Hc)
    as (known & Ek & Hl & Hst).
  { intros r Hr. apply In_range in Hr. exact Hr. }
  destruct (clue_of_col c Hc) as (runs & E & Hruns).
  unfold possibility_col. fold n. rewrite Ek. cbn [bind]. rewrite E. cbn [bind].
  apply (line_marks_total runs known (ch, g)
           (fun v i => possibility_mark v i c)); try assumption.
  - unfold len. rewrite Hl, length_range. lia.
  - intros v t s1 Hv Ht Hw1. apply possibility_mark_total; assumption.
Qed.

Lemma overlap_pass_total (g : Grid) :
  working_grid n g ->
  exists s', apply_overlap_pass puzzle g = Some s' /\ working_grid n (snd s').
Proof.
  intros Hw. unfold apply_overlap_pass. fold n.
  destruct (for_each_total (fun s : PassState => working_grid n (snd s)) (range 0 n)
              (overlap_row puzzle)) with (s := (false, g))
    as (s1 & E1 & Hw1); [|exact Hw|].
  { intros r s Hr Hs. apply In_range in Hr. apply overlap_row_total; assumption. }
  rewrite E1. cbn [bind].
  apply (for_each_total (fun s : PassState => working_grid n (snd s))); [|exact Hw1].
  intros c s Hc Hs. apply In_range in Hc. apply overlap_col_total; assumption.
Qed.

Lemma possibility_pass_total (g : Grid) :
  working_grid n g ->
  exists s', apply_possibility_pass puzzle g = Some s' /\
    working_grid n (snd s').
Proof.
  intros Hw. unfold apply_possibility_pass. fold n.
  destruct (for_each_total (fun s : PassState => working_grid n (snd s)) (range 0 n)
              (possibility_row puzzle)) with (s := (false, g))
    as (s1 & E1 & Hw1); [|exact Hw|].
  { intros r s Hr Hs. apply In_range in Hr.
    apply possibility_row_total; assumption. }
  rewrite E1. cbn [bind].
  apply (for_each_total (fun s : PassState => working_grid n (snd s))); [|exact Hw1].
  intros c s Hc Hs. apply In_range in Hc.
  apply possibility_col_total; assumption.
Qed.

Lemma round_total (g : Grid) :
  working_grid n g ->
  exists ch g', propagation_round puzzle g = Some (ch, g') /\
    working_grid n g'.
Proof.
  intros Hw. unfold propagation_round.
  destruct (overlap_pass_total g Hw) as ([c1 g1] & E1 & Hw1).
  rewrite E1. cbn [bind].
  destruct (possibility_pass_total g1 Hw1) as ([c2 g2] & E2 & Hw2).
  rewrite E2. cbn [bind]. exists (c1 || c2), g2. split; [reflexivity|exact Hw2].
Qed.

Lemma rows_satisfied_total (g : Grid) (clues : list (list Z)) :
  square n g ->
  forall r, 0 <= r -> r + len clues <= n ->
    exists b, rows_satisfied g r clues = Some b.
Proof.
  intros Hsq. induction clues as [|runs t IH]; intros r Hr Hlen.
  - exists true. reflexivity.
  - rewrite len_cons in Hlen. pose proof (len_nonneg t).
    destruct (square_row n g r Hsq ltac:(lia)) as (row & E & _).
    cbn [rows_satisfied]. rewrite E. cbn [bind].
    destruct (negb (does_line_satisfy_clues row runs)); [eexists; reflexivity|].
    apply IH; lia.
Qed.

Lemma cols_satisfied_total (g : Grid) (clues : list (list Z)) :
  working_grid n g ->
  forall c, 0 <= c -> c + len clues <= n ->
    exists b, cols_satisfied n g c clues = Some b.
Proof.
  intros Hw. induction clues as [|runs t IH]; intros c Hc Hlen.
  - exists true. reflexivity.
  - rewrite len_cons in Hlen. pose proof (len_nonneg t).
    destruct (column_of_total n g c (range 0 n) Hw ltac:(lia))
      as (col & E & _).
    { intros r Hr. apply In_range in Hr. exact Hr. }
    cbn [cols_satisfied]. rewrite E. cbn [bind].
    destruct (negb (does_line_satisfy_clues col runs)); [eexists; reflexivity|].
    apply IH; lia.
Qed.

Lemma is_puzzle_solved_total (g : Grid) :
  working_grid n g -> exists b, is_puzzle_solved puzzle g = Some b.
Proof.
  intros Hw. destruct Hvalid as (Hn & Hr & Hc & _). fold n in Hn, Hr, Hc.
  unfold is_puzzle_solved.
  destruct (negb (is_grid_complete g)); [eexists; reflexivity|].
  destruct (rows_satisfied_total g (rows puzzle) (proj1 Hw) 0) as (b1 & E1);
    [lia|lia|].
  rewrite E1. cbn [bind]. destruct (negb b1); [eexists; reflexivity|].
  fold n.
  destruct (cols_satisfied_total g (cols puzzle) Hw 0) as (b2 & E2);
    [lia|lia|].
  rewrite E2. cbn [bind]. destruct (negb b2); eexists; reflexivity.
Qed.

Lemma solve_loop_returns (rounds : nat) :
  forall state : Grid,
    working_grid n state -> (unknowns state < rounds)%nat ->
    exists state', solve_loop rounds puzzle state = Returned state' /\
      working_grid n state'.
Proof.
  induction rounds as [|rounds IH]; intros state Hw Hu; [lia|].
  cbn [solve_loop].
  destruct (is_puzzle_solved_total state Hw) as (b & Eb). rewrite Eb.
  destruct b; [exists state; split; [reflexivity|exact Hw]|].
  destruct (round_total state Hw) as (ch & state' & E & Hw').
  rewrite E.
  destruct (round_advance _ _ _ _ (proj2 Hw) E) as (_ & _ & Hle & Hlt).
  destruct ch; [|exists state'; split; [reflexivity|exact Hw']].
  apply IH; [exact Hw'|]. specialize (Hlt eq_refl). lia.
Qed.

Lemma initial_state_working : working_grid n (initial_state n).
Proof.
  destruct Hvalid as (Hn & _). fold n in Hn.
  split; [|apply initial_state_states].
  unfold square, initial_state. split.
  - unfold len. rewrite length_map, length_range. lia.
  - apply Forall_forall. intros row Hrow. apply in_map_iff in Hrow.
    destruct Hrow as (_ & <- & _). apply len_replicate. exact Hn.
Qed.

Lemma solve_nonogram_returns :
  exists out,
    solve_nonogram (S (Z.to_nat (n * n))) puzzle = Returned out /\
    working_grid n (result out).
Proof.
  destruct Hvalid as (Hn & _). fold n in Hn.
  destruct (solve_loop_returns (S (Z.to_nat (n * n))) (initial_state n)
              initial_state_working) as (state & E & Hw).
  { rewrite unknowns_initial_state, Z2Nat.inj_mul by lia. lia. }
  unfold solve_nonogram. fold n. rewrite E.
  destruct (is_puzzle_solved_total state Hw) as (b & Eb). rewrite Eb.
  eexists. split; [reflexivity|exact Hw].
Qed.

End ValidPuzzle.

End Total.

Lemma bit_lines_complete (l : list Z) :
  Forall bit l -> In l (bit_lines (length l)).
Proof.
  induction 1 as [|v l Hv Hl IH]; [left; reflexivity|].
  cbn [length bit_lines]. apply in_flat_map. exists l. split; [exact IH|].
  destruct Hv as [->| ->]; [left|right; left]; reflexivity.
Qed.

Lemma grids_of_complete (lines : list (list Z)) (g : Grid) :
  Forall (fun l => In l lines) g -> In g (grids_of lines (length g)).
Proof.
  induction 1 as [|l g Hl Hg IH]; [left; reflexivity|].
  cbn [length grids_of]. apply in_flat_map. exists g. split; [exact IH|].
  apply (in_map (fun x => x :: g)). exact Hl.
Qed.

Lemma guess_puzzle_unique (g : Grid) :
  length g = 4%nat -> Forall (fun row => length row = 4%nat /\ Forall bit row) g ->
  solves guess_puzzle g = true -> g = guess_solution.
Proof.
  intros Hlen Hrows Hs.
  assert (Hin0 : In g (grids_of (bit_lines 4) (length g))).
  { apply grids_of_complete. apply Forall_forall. intros row Hrow.
    rewrite Forall_forall in Hrows. destruct (Hrows row Hrow) as [H4 Hb].
    rewrite <- H4. apply bit_lines_complete. exact Hb. }
  rewrite Hlen in Hin0.
  pose proof (proj2 (filter_In (solves guess_puzzle) g _) (conj Hin0 Hs)) as Hin.
  assert (E : filter (solves guess_puzzle) (grids_of (bit_lines 4) 4)
              = [guess_solution]) by (vm_compute; reflexivity).
  rewrite E in Hin. destruct Hin as [<-|[]]. reflexivity.
Qed.


(** ** A pass that reports no change wrote nothing *)

Section Quiet.

Lemma quiet_refl (s : PassState) : quiet s s.
Proof. intros _. reflexivity. Qed.

Lemma quiet_trans (s1 s2 s3 : PassState) :
  quiet s1 s2 -> quiet s2 s3 -> quiet s1 s3.
Proof.
  intros H12 H23 H. pose proof (H23 H) as E. subst s3. exact (H12 H).
Qed.

Lemma overlap_mark_quiet (r c : Z) (s s' : PassState) :
  overlap_mark r c s = Some s' -> quiet s s'.
Proof.
  destruct s as [ch g]. unfold overlap_mark, quiet. intros H. unpack;
    cbn [fst]; [discriminate|reflexivity].
Qed.

Lemma possibility_mark_quiet (v r c : Z) (s s' : PassState) :
  possibility_mark v r c s = Some s' -> quiet s s'.
Proof.
  destruct s as [ch g]. unfold possibility_mark, quiet. intros H. unpack;
    cbn [fst]; [discriminate|reflexivity].
Qed.

Lemma for_each_quiet {A : Type} (xs : list A)
  (body : A -> PassState -> option PassState) :
  (forall x s s', body x s = Some s' -> quiet s s') ->
  forall s s', for_each xs body s = Some s' -> quiet s s'.
Proof.
  intros Hbody s s' H.
  apply (for_each_inv (fun s1 : PassState => quiet s s1) xs body)
    with (s := s); [|apply quiet_refl|exact H].
  intros x s1 s2 _ H1 H2.
  eapply quiet_trans; [exact H1|]. eapply Hbody. exact H2.
Qed.

Lemma overlap_row_quiet (puzzle : NonogramPuzzle) (r : Z) (s s' : PassState) :
  overlap_row puzzle r s = Some s' -> quiet s s'.
Proof.
  unfold overlap_row. intros H. unpack.
  eapply for_each_quiet; [|eassumption].
  intros x s1 s2. apply overlap_mark_quiet.
Qed.

Lemma overlap_col_quiet (puzzle : NonogramPuzzle) (c : Z) (s s' : PassState) :
  overlap_col puzzle c s = Some s' -> quiet s s'.
Proof.
  unfold overlap_col. intros H. unpack.
  eapply for_each_quiet; [|eassumption].
  intros x s1 s2. apply overlap_mark_quiet.
Qed.

Lemma possibility_row_quiet (puzzle : NonogramPuzzle) (r : Z)
  (s s' : PassState) :
  possibility_row puzzle r s = Some s' -> quiet s s'.
Proof.
  destruct s as [ch g]. unfold possibility_row. intros H. unpack.
  eapply quiet_trans.
  - eapply for_each_quiet; [|eassumption].
    intros x s1 s2. apply possibility_mark_quiet.
  - eapply for_each_quiet; [|eassumption].
    intros x s1 s2. apply possibility_mark_quiet.
Qed.

Lemma possibility_col_quiet (puzzle : NonogramPuzzle) (c : Z)
  (s s' : PassState) :
  possibility_col puzzle c s = Some s' -> quiet s s'.
Proof.
  destruct s as [ch g]. unfold possibility_col. intros H. unpack.
  eapply quiet_trans.
  - eapply for_each_quiet; [|eassumption].
    intros x s1 s2. apply possibility_mark_quiet.
  - eapply for_each_quiet; [|eassumption].
    intros x s1 s2. apply possibility_mark_quiet.
Qed.

Lemma overlap_pass_quiet (puzzle : NonogramPuzzle) (g g' : Grid) :
  apply_overlap_pass puzzle g = Some (false, g') -> g' = g.
Proof.
  unfold apply_overlap_pass. intros H. unpack.
  assert (Q : quiet (false, g) (false, g')).
  { eapply quiet_trans.
    - eapply (for_each_quiet _ (overlap_row puzzle) (overlap_row_quiet puzzle)).
      eassumption.
    - eapply (for_each_quiet _ (overlap_col puzzle) (overlap_col_quiet puzzle)).
      eassumption. }
  specialize (Q eq_refl). congruence.
Qed.

Lemma possibility_pass_quiet (puzzle : NonogramPuzzle) (g g' : Grid) :
  apply_possibility_pass puzzle g = Some (false, g') -> g' = g.
Proof.
  unfold apply_possibility_pass. intros H. unpack.
  assert (Q : quiet (false, g) (false, g')).
  { eapply quiet_trans.
    - eapply (for_each_quiet _ (possibility_row puzzle)
                (possibility_row_quiet puzzle)). eassumption.
    - eapply (for_each_quiet _ (possibility_col puzzle)
                (possibility_col_quiet puzzle)). eassumption. }
  specialize (Q eq_refl). congruence.
Qed.

Lemma round_quiet (puzzle : NonogramPuzzle) (g g' : Grid) :
  propagation_round puzzle g = Some (false, g') -> g' = g.
Proof.
  unfold propagation_round. intros H.
  destruct (apply_overlap_pass puzzle g) as [[c1 g1]|] eqn:E1; [|discriminate].
  cbn [bind] in H.
  destruct (apply_possibility_pass puzzle g1) as [[c2 g2]|] eqn:E2;
    [|discriminate].
  cbn [bind] in H. injection H as Hc <-.
  apply orb_false_iff in Hc. destruct Hc as [-> ->].
  rewrite (possibility_pass_quiet _ _ _ E2). exact (overlap_pass_quiet _ _ _ E1).
Qed.

End Quiet.

(** ** The claims about the passes and the solve loop *)

(** C8.  A propagation round (one overlap pass, then one possibility
    pass) never shrinks the set of decided cells: every cell holding 0
    or 1 before the round holds 0 or 1 after it.  On a valid puzzle and
    a working grid of its size the round raises nothing. *)
Theorem decided_cells_stay_decided (puzzle : NonogramPuzzle) (grid : Grid) :
  (forall changed grid',
     propagation_round puzzle grid = Some (changed, grid') ->
     forall i j v, cell grid i j = Some v -> bit v ->
       exists v', cell grid' i j = Some v' /\ bit v') /\
  (valid_puzzle puzzle -> working_grid (size puzzle) grid ->
   exists changed grid', propagation_round puzzle grid = Some (changed, grid')).
Proof.
  split.
  - intros changed grid' H i j v Hc Hb. unfold propagation_round in H. unpack.
    match goal with
    | H1 : apply_overlap_pass _ _ = Some ?s1,
      H2 : apply_possibility_pass _ _ = Some ?s2 |- _ =>
        pose proof (overlap_pass_keeps _ _ _ H1) as K1;
        pose proof (possibility_pass_keeps _ _ _ H2) as K2
    end.
    cbn [snd] in K1, K2. exact (keeps_decided_trans _ _ _ K1 K2 i j v Hc Hb).
  - intros Hv Hw. destruct (round_total puzzle Hv grid Hw) as (ch & g' & E & _).
    exists ch, g'. exact E.
Qed.

(** C9.  On a grid of cell states, each pass only ever changes a cell
    from unknown (-1) to 0 or 1: after [apply_overlap_pass] and after
    [apply_possibility_pass] every cell holds the value it held before,
    or it held -1 and now holds 0 or 1; so a cell already holding 0 or 1
    keeps its value.  On a valid puzzle and a working grid of its size
    both passes raise nothing. *)
Theorem passes_only_decide_unknown (puzzle : NonogramPuzzle) (grid : Grid) :
  grid_states grid ->
  (forall changed grid',
     apply_overlap_pass puzzle grid = Some (changed, grid') ->
     forall i j v, cell grid i j = Some v ->
       (cell grid' i j = Some v \/
        (v = -1 /\ (cell grid' i j = Some 0 \/ cell grid' i j = Some 1))) /\
       (bit v -> cell grid' i j = Some v)) /\
  (forall changed grid',
     apply_possibility_pass puzzle grid = Some (changed, grid') ->
     forall i j v, cell grid i j = Some v ->
       (cell grid' i j = Some v \/
        (v = -1 /\ (cell grid' i j = Some 0 \/ cell grid' i j = Some 1))) /\
       (bit v -> cell grid' i j = Some v)) /\
  (valid_puzzle puzzle -> working_grid (size puzzle) grid ->
   (exists s, apply_overlap_pass puzzle grid = Some s) /\
   (exists s, apply_possibility_pass puzzle grid = Some s)).
Proof.
  intros Hg.
  assert (Hkeep : forall g' : Grid, only_decides grid g' ->
            forall i j v, cell grid i j = Some v ->
              (cell g' i j = Some v \/
               (v = -1 /\ (cell g' i j = Some 0 \/ cell g' i j = Some 1))) /\
              (bit v -> cell g' i j = Some v)).
  { intros g' Hod i j v Hc. split; [exact (Hod i j v Hc)|].
    intros Hb. destruct (Hod i j v Hc) as [H|(-> & _)]; [exact H|].
    destruct Hb; discriminate. }
  split; [|split].
  - intros changed grid' H. apply Hkeep.
    destruct (overlap_pass_advance _ _ _ Hg H) as (Hod & _). exact Hod.
  - intros changed grid' H. apply Hkeep.
    destruct (possibility_pass_advance _ _ _ Hg H) as (Hod & _). exact Hod.
  - intros Hv Hw. split.
    + destruct (overlap_pass_total puzzle Hv grid Hw) as (s & E & _).
      exists s. exact E.
    + destruct (possibility_pass_total puzzle Hv grid Hw) as (s & E & _).
      exists s. exact E.
Qed.

(** The second round of the puzzle with the clues [[2]; []] and
    [[]; []]: the grid holds the first row filled and the second row
    empty. *)
Lemma passes_only_decide_unknown_witness :
  (forall changed grid',
     apply_overlap_pass clashing_puzzle [[1; 1]; [-1; 0]] = Some (changed, grid') ->
     forall i j v, cell [[1; 1]; [-1; 0]] i j = Some v ->
       (cell grid' i j = Some v \/
        (v = -1 /\ (cell grid' i j = Some 0 \/ cell grid' i j = Some 1))) /\
       (bit v -> cell grid' i j = Some v)) /\
  (forall changed grid',
     apply_possibility_pass clashing_puzzle [[1; 1]; [-1; 0]]
       = Some (changed, grid') ->
     forall i j v, cell [[1; 1]; [-1; 0]] i j = Some v ->
       (cell grid' i j = Some v \/
        (v = -1 /\ (cell grid' i j = Some 0 \/ cell grid' i j = Some 1))) /\
       (bit v -> cell grid' i j = Some v)) /\
  (valid_puzzle clashing_puzzle ->
   working_grid (size clashing_puzzle) [[1; 1]; [-1; 0]] ->
   (exists s, apply_overlap_pass clashing_puzzle [[1; 1]; [-1; 0]] = Some s) /\
   (exists s, apply_possibility_pass clashing_puzzle [[1; 1]; [-1; 0]] = Some s)).
Proof.
  apply (passes_only_decide_unknown clashing_puzzle [[1; 1]; [-1; 0]]).
  unfold grid_states, cell_state.
  repeat (constructor; [repeat (constructor; [lia|]); constructor|]).
  constructor.
Defined.

(** C10.  [solve_nonogram] terminates: its loop is over within
    [size * size + 1] rounds, whatever the puzzle, and a larger round
    budget gives the same outcome.  A round that reports a change has
    decided at least one unknown cell and has made no cell unknown, so
    at most [size * size] rounds are productive.  On a valid puzzle the
    outcome is a returned grid. *)
Theorem solve_nonogram_terminates (puzzle : NonogramPuzzle) :
  let budget := S (Z.to_nat (size puzzle * size puzzle)) in
  solve_nonogram budget puzzle <> Unfinished /\
  (forall extra,
     solve_nonogram (budget + extra) puzzle = solve_nonogram budget puzzle) /\
  (forall state changed state',
     grid_states state ->
     propagation_round puzzle state = Some (changed, state') ->
     (unknowns state' <= unknowns state)%nat /\
     (changed = true -> (unknowns state' < unknowns state)%nat)) /\
  unknowns (initial_state (size puzzle))
    = (Z.to_nat (size puzzle) * Z.to_nat (size puzzle))%nat /\
  (valid_puzzle puzzle ->
   exists out, solve_nonogram budget puzzle = Returned out).
Proof.
  cbv zeta. split; [apply solve_nonogram_finishes|].
  split; [|split; [|split; [apply unknowns_initial_state|]]].
  - intros extra. pose proof (solve_nonogram_finishes puzzle) as Hfin.
    unfold solve_nonogram in *.
    rewrite solve_loop_more; [reflexivity|].
    intros E. rewrite E in Hfin. contradiction.
  - intros state changed state' Hg H.
    destruct (round_advance _ _ _ _ Hg H) as (_ & _ & Hle & Hlt).
    split; assumption.
  - intros Hv. destruct (solve_nonogram_returns puzzle Hv) as (out & E & _).
    exists out. exact E.
Qed.

(** C1.  What the code does where the claim fails: on the puzzle of size
    2 whose four clues are [[1]], a valid puzzle, [solve_nonogram]
    returns the grid it started from, every cell unknown; the validator
    calls that grid incomplete, and no [None] comes back. *)
Theorem solve_returns_partial_grid :
  valid_puzzle ambiguous_puzzle /\
  forall rounds,
    solve_nonogram (S rounds) ambiguous_puzzle
      = Returned (mkOutput false [[-1; -1]; [-1; -1]]) /\
    is_grid_complete [[-1; -1]; [-1; -1]] = false.
Proof.
  split.
  - unfold valid_puzzle, ambiguous_puzzle. cbn [size rows cols].
    split; [lia|]. split; [reflexivity|]. split; [reflexivity|].
    split; repeat (constructor; [repeat (constructor; [lia|]); constructor|]);
      constructor.
  - intros rounds. split; reflexivity.
Qed.

(** C2.  What the code does where the claim fails: the puzzle of size 4
    with the row clues [[]; []; [2]; [1; 1]] and the column clues
    [[1]] four times is valid and has exactly one solution among the
    4x4 grids of 0s and 1s, yet [solve_nonogram] returns a grid whose
    last two rows are still unknown: it has no search step. *)
Theorem solve_stalls_on_unique_puzzle :
  valid_puzzle guess_puzzle /\
  solves guess_puzzle guess_solution = true /\
  (forall g : Grid,
     length g = 4%nat ->
     Forall (fun row => length row = 4%nat /\ Forall bit row) g ->
     solves guess_puzzle g = true -> g = guess_solution) /\
  forall rounds,
    solve_nonogram (S (S rounds)) guess_puzzle
      = Returned
          (mkOutput false
             [[0; 0; 0; 0]; [0; 0; 0; 0]; [-1; -1; -1; -1]; [-1; -1; -1; -1]]).
Proof.
  split; [|split; [reflexivity|split; [exact guess_puzzle_unique|]]].
  - unfold valid_puzzle, guess_puzzle. cbn [size rows cols].
    split; [lia|]. split; [reflexivity|]. split; [reflexivity|].
    split; repeat (constructor; [repeat (constructor; [lia|]); constructor|]);
      constructor.
  - intros rounds. vm_compute. reflexivity.
Qed.

(** C3.  What the code does where the claim fails.  In a line of two
    cells the clue [[3]] has negative slack and an empty possibility
    set; both deducers answer with empty lists, and on the puzzle made
    of such clues [solve_nonogram] ends exactly as on the stalled
    puzzle of C1, same grid and same printed flag.  On the puzzle with
    the clues [[2]; []] and [[]; []] the first column has no pattern
    once the first round has filled the first row; the loop still runs a
    second round and returns a grid. *)
Theorem contradiction_is_not_signalled :
  slack 2 [3] < 0 /\
  overlap_fill_line 2 [3] = [] /\
  _enumerate_line_patterns 2 [3] [-1; -1] = Some [] /\
  deduce_from_possibilities 2 [3] [-1; -1] = Some ([], []) /\
  (forall rounds,
     solve_nonogram (S rounds) oversized_puzzle
       = Returned (mkOutput false [[-1; -1]; [-1; -1]]) /\
     solve_nonogram (S rounds) oversized_puzzle
       = solve_nonogram (S rounds) ambiguous_puzzle) /\
  _enumerate_line_patterns 2 [] [1; 0] = Some [] /\
  deduce_from_possibilities 2 [] [1; 0] = Some ([], []) /\
  solve_nonogram 1 clashing_puzzle = Unfinished /\
  forall rounds,
    solve_nonogram (S (S rounds)) clashing_puzzle
      = Returned (mkOutput false [[1; 1]; [0; 0]]).
Proof.
  split; [reflexivity|]. split; [reflexivity|]. split; [reflexivity|].
  split; [reflexivity|]. split; [intros rounds; split; reflexivity|].
  split; [reflexivity|]. split; [reflexivity|]. split; [reflexivity|].
  intros rounds. vm_compute. reflexivity.
Qed.

(** ** Further properties *)

(** The generator is exact: on a knowledge vector of cell states for the
    line and positive run lengths it yields a pattern if and only if the
    pattern is legal for the line. *)
Theorem enumerate_line_patterns_exact (L : Z) (runs known : list Z) :
  len known = L -> Forall (fun r => 1 <= r) runs -> Forall cell_state known ->
  exists ps,
    _enumerate_line_patterns L runs known = Some ps /\
    forall p, In p ps <-> legal_pattern L runs known p.
Proof.
  intros Hknown Hruns Hstate.
  exists (filter (agrees known) (fillings runs L)).
  split; [apply enumerate_refines; assumption|].
  intros p. apply legal_iff; assumption.
Qed.

(** A line of four cells with the clue [[1; 1]] whose last cell is known
    filled. *)
Lemma enumerate_line_patterns_exact_witness :
  exists ps,
    _enumerate_line_patterns 4 [1; 1] [-1; -1; -1; 1] = Some ps /\
    forall p, In p ps <-> legal_pattern 4 [1; 1] [-1; -1; -1; 1] p.
Proof.
  apply (enumerate_line_patterns_exact 4 [1; 1] [-1; -1; -1; 1]).
  - reflexivity.
  - repeat (constructor; [lia|]). constructor.
  - repeat (constructor; [unfold cell_state; lia|]). constructor.
Defined.

(** The line scenarios of the spec: the clue [[2]] in five unknown cells
    has the four patterns 11000, 01100, 00110, 00011; with the first
    cell known empty the last three remain; the empty clue with the
    first cell known filled has none; and the overlap deducer forces the
    cells 0, 1, 2 and 4 for the clue [[3; 1]] in five cells. *)
Theorem line_scenarios :
  _enumerate_line_patterns 5 [2] [-1; -1; -1; -1; -1]
    = Some [[1; 1; 0; 0; 0]; [0; 1; 1; 0; 0]; [0; 0; 1; 1; 0]; [0; 0; 0; 1; 1]] /\
  _enumerate_line_patterns 5 [2] [0; -1; -1; -1; -1]
    = Some [[0; 1; 1; 0; 0]; [0; 0; 1; 1; 0]; [0; 0; 0; 1; 1]] /\
  _enumerate_line_patterns 5 [] [1; -1; -1; -1; -1] = Some [] /\
  overlap_fill_line 5 [3; 1] = [0; 1; 2; 4].
Proof. repeat split; reflexivity. Qed.

(** A round that reports no change has left the grid as it was, so the
    same round run again reports no change and leaves it again. *)
Theorem unproductive_round_is_fixed_point (puzzle : NonogramPuzzle)
  (grid grid' : Grid) :
  propagation_round puzzle grid = Some (false, grid') ->
  grid' = grid /\ propagation_round puzzle grid' = Some (false, grid').
Proof.
  intros H. pose proof (round_quiet _ _ _ H) as E. subst grid'.
  split; [reflexivity|exact H].
Qed.

(** The puzzle of size 2 whose four clues are [[1]]: its first round
    changes nothing. *)
Lemma unproductive_round_is_fixed_point_witness :
  [[-1; -1]; [-1; -1]] = [[-1; -1]; [-1; -1]] /\
  propagation_round ambiguous_puzzle [[-1; -1]; [-1; -1]]
    = Some (false, [[-1; -1]; [-1; -1]]).
Proof.
  apply (unproductive_round_is_fixed_point ambiguous_puzzle
           [[-1; -1]; [-1; -1]] [[-1; -1]; [-1; -1]]).
  reflexivity.
Defined.

(** ** The validator *)

Section Validator.

Lemma is_line_fully_known_spec (line : list Z) :
  is_line_fully_known line = true <-> Forall bit line.
Proof.
  unfold is_line_fully_known. rewrite forallb_forall, Forall_forall.
  split; intros H v Hv; specialize (H v Hv).
  - apply orb_true_iff in H. destruct H as [H|H]; apply Z.eqb_eq in H;
      [left|right]; exact H.
  - apply orb_true_iff. destruct H as [H|H]; [left|right]; apply Z.eqb_eq;
      exact H.
Qed.

Lemma list_Z_eqb_spec (a b : list Z) : list_Z_eqb a b = true <-> a = b.
Proof.
  unfold list_Z_eqb. destruct (list_eq_dec Z.eq_dec a b); split;
    congruence.
Qed.

Lemma does_line_satisfy_clues_spec (line runs : list Z) :
  does_line_satisfy_clues line runs = true <-> meets line runs.
Proof.
  unfold does_line_satisfy_clues, meets.
  rewrite <- is_line_fully_known_spec.
  destruct (is_line_fully_known line); cbn [negb].
  - rewrite list_Z_eqb_spec. tauto.
  - split; [discriminate|intros [H _]; discriminate].
Qed.

Lemma is_grid_complete_spec (g : Grid) :
  is_grid_complete g = true <-> Forall (Forall bit) g.
Proof.
  unfold is_grid_complete. rewrite forallb_forall, Forall_forall.
  split; intros H row Hrow; apply is_line_fully_known_spec; auto.
Qed.

Lemma rows_satisfied_spec (state : Grid) (clues : list (list Z)) :
  forall r, 0 <= r ->
    (rows_satisfied state r clues = Some true <->
     forall (k : nat) runs, nth_error clues k = Some runs ->
       exists row, row_at state (Z.to_nat r + k) = Some row /\ meets row runs).
Proof.
  unfold row_at.
  induction clues as [|runs0 t IH]; intros r Hr.
  - split; [intros _ k runs E; destruct k; discriminate|reflexivity].
  - cbn [rows_satisfied]. rewrite getitem_nonneg by exact Hr.
    destruct (nth_error state (Z.to_nat r)) as [row|] eqn:Erow; cbn [bind].
    + destruct (does_line_satisfy_clues row runs0) eqn:Ed; cbn [negb].
      * rewrite (IH (r + 1)) by lia. split.
        -- intros H [|k] runs E.
           ++ injection E as <-. exists row. rewrite Nat.add_0_r.
              split; [exact Erow|]. apply does_line_satisfy_clues_spec. exact Ed.
           ++ destruct (H k runs E) as (row' & E' & Hm). exists row'.
              split; [|exact Hm].
              replace (Z.to_nat r + S k)%nat with (Z.to_nat (r + 1) + k)%nat
                by lia. exact E'.
        -- intros H k runs E. destruct (H (S k) runs E) as (row' & E' & Hm).
           exists row'. split; [|exact Hm].
           replace (Z.to_nat (r + 1) + k)%nat with (Z.to_nat r + S k)%nat
             by lia. exact E'.
      * split; [discriminate|]. intros H.
        destruct (H O runs0 eq_refl) as (row' & E' & Hm).
        rewrite Nat.add_0_r, Erow in E'. injection E' as <-.
        apply does_line_satisfy_clues_spec in Hm. congruence.
    + split; [discriminate|]. intros H.
      destruct (H O runs0 eq_refl) as (row' & E' & _).
      rewrite Nat.add_0_r, Erow in E'. discriminate.
Qed.

Lemma cols_satisfied_spec (n : Z) (state : Grid) (clues : list (list Z)) :
  forall c, 0 <= c ->
    (cols_satisfied n state c clues = Some true <->
     forall (k : nat) runs, nth_error clues k = Some runs ->
       exists col, col_at n state (Z.to_nat c + k) = Some col /\ meets col runs).
Proof.
  unfold col_at.
  induction clues as [|runs0 t IH]; intros c Hc.
  - split; [intros _ k runs E; destruct k; discriminate|reflexivity].
  - cbn [cols_satisfied].
    destruct (column_of state c (range 0 n)) as [col|] eqn:Ecol; cbn [bind].
    + destruct (does_line_satisfy_clues col runs0) eqn:Ed; cbn [negb].
      * rewrite (IH (c + 1)) by lia. split.
        -- intros H [|k] runs E.
           ++ injection E as <-. exists col. rewrite Nat.add_0_r, Z2Nat.id by lia.
              split; [exact Ecol|]. apply does_line_satisfy_clues_spec. exact Ed.
           ++ destruct (H k runs E) as (col' & E' & Hm). exists col'.
              split; [|exact Hm].
              replace (Z.to_nat c + S k)%nat with (Z.to_nat (c + 1) + k)%nat
                by lia. exact E'.
        -- intros H k runs E. destruct (H (S k) runs E) as (col' & E' & Hm).
           exists col'. split; [|exact Hm].
           replace (Z.to_nat (c + 1) + k)%nat with (Z.to_nat c + S k)%nat
             by lia. exact E'.
      * split; [discriminate|]. intros H.
        destruct (H O runs0 eq_refl) as (col' & E' & Hm).
        rewrite Nat.add_0_r, Z2Nat.id, Ecol in E' by lia. injection E' as <-.
        apply does_line_satisfy_clues_spec in Hm. congruence.
    + split; [discriminate|]. intros H.
      destruct (H O runs0 eq_refl) as (col' & E' & _).
      rewrite Nat.add_0_r, Z2Nat.id, Ecol in E' by lia. discriminate.
Qed.

(** The validator's verdict, read cell by cell. *)
Lemma is_puzzle_solved_true (puzzle : NonogramPuzzle) (state : Grid) :
  is_puzzle_solved puzzle state = Some true <->
  Forall (Forall bit) state /\
  (forall (r : nat) runs, nth_error (rows puzzle) r = Some runs ->
     exists row, row_at state r = Some row /\ meets row runs) /\
  (forall (c : nat) runs, nth_error (cols puzzle) c = Some runs ->
     exists col, col_at (size puzzle) state c = Some col /\ meets col runs).
Proof.
  unfold is_puzzle_solved. rewrite <- is_grid_complete_spec.
  destruct (is_grid_complete state); cbn [negb].
  2: { split; [discriminate|intros [H _]; discriminate]. }
  pose proof (rows_satisfied_spec state (rows puzzle) 0 ltac:(lia)) as HR.
  pose proof (cols_satisfied_spec (size puzzle) state (cols puzzle) 0
                ltac:(lia)) as HC.
  cbn [Z.to_nat Nat.add] in HR, HC.
  destruct (rows_satisfied state 0 (rows puzzle)) as [[|]|]; cbn [bind negb].
  - destruct (cols_satisfied (size puzzle) state 0 (cols puzzle)) as [[|]|];
      cbn [bind negb].
    + split; [intros _|reflexivity].
      split; [reflexivity|]. split; [apply HR|apply HC]; reflexivity.
    + split; [discriminate|]. intros (_ & _ & H). apply HC in H. discriminate.
    + split; [discriminate|]. intros (_ & _ & H). apply HC in H. discriminate.
  - split; [discriminate|]. intros (_ & H & _). apply HR in H. discriminate.
  - split; [discriminate|]. intros (_ & H & _). apply HR in H. discriminate.
Qed.

End Validator.

(** ** The reports of failing rows and columns *)

Section Reports.

Lemma validate_rows_loop_report (state : Grid) (clues : list (list Z)) :
  forall r bad,
    validate_rows_loop state r clues bad
    = report_loop (getitem state) r clues bad.
Proof.
  induction clues as [|runs t IH]; intros r bad; [reflexivity|].
  cbn [validate_rows_loop report_loop].
  destruct (getitem state r) as [row|]; cbn [bind]; [|reflexivity].
  destruct (is_line_fully_known row && negb (does_line_satisfy_clues row runs));
    apply IH.
Qed.

Lemma validate_cols_loop_report (n : Z) (state : Grid) (clues : list (list Z)) :
  forall c bad,
    validate_cols_loop n state c clues bad
    = report_loop (fun c => column_of state c (range 0 n)) c clues bad.
Proof.
  induction clues as [|runs t IH]; intros c bad; [reflexivity|].
  cbn [validate_cols_loop report_loop].
  destruct (column_of state c (range 0 n)) as [col|]; cbn [bind];
    [|reflexivity].
  destruct (is_line_fully_known col && negb (does_line_satisfy_clues col runs));
    apply IH.
Qed.

Lemma rows_satisfied_loop (state : Grid) (clues : list (list Z)) :
  forall r, rows_satisfied state r clues
            = satisfied_loop (getitem state) r clues.
Proof.
  induction clues as [|runs t IH]; intros r; [reflexivity|].
  cbn [rows_satisfied satisfied_loop].
  destruct (getitem state r) as [row|]; cbn [bind]; [|reflexivity].
  destruct (negb (does_line_satisfy_clues row runs)); [reflexivity|apply IH].
Qed.

Lemma cols_satisfied_loop (n : Z) (state : Grid) (clues : list (list Z)) :
  forall c, cols_satisfied n state c clues
            = satisfied_loop (fun c => column_of state c (range 0 n)) c clues.
Proof.
  induction clues as [|runs t IH]; intros c; [reflexivity|].
  cbn [cols_satisfied satisfied_loop].
  destruct (column_of state c (range 0 n)) as [col|]; cbn [bind];
    [|reflexivity].
  destruct (negb (does_line_satisfy_clues col runs)); [reflexivity|apply IH].
Qed.

Variable read : Z -> option (list Z).

(** What a report holds: after [bad], in ascending order, the indices
    of the lines that are fully known and miss their clue. *)
Lemma report_loop_spec (clues : list (list Z)) :
  forall r bad out,
    report_loop read r clues bad = Some out ->
    exists extra,
      out = bad ++ extra /\
      StronglySorted Z.lt extra /\
      forall i, In i extra <->
        exists (k : nat) runs line,
          i = r + Z.of_nat k /\ nth_error clues k = Some runs /\
          read i = Some line /\ Forall bit line /\
          _line_groups_of_ones line <> runs.
Proof.
  induction clues as [|runs0 t IH]; intros r bad out H.
  - injection H as <-. exists []. rewrite app_nil_r.
    split; [reflexivity|]. split; [constructor|].
    intros i. split; [intros []|].
    intros (k & runs & line & _ & E & _). destruct k; discriminate.
  - cbn [report_loop] in H.
    destruct (read r) as [line0|] eqn:Eread; [|discriminate]. cbn [bind] in H.
    assert (Hshift : forall extra,
      (forall i, In i extra <->
         exists (k : nat) runs line,
           i = r + 1 + Z.of_nat k /\ nth_error t k = Some runs /\
           read i = Some line /\ Forall bit line /\
           _line_groups_of_ones line <> runs) ->
      forall i, In i extra <->
        exists (k : nat) runs line,
          i = r + Z.of_nat (S k) /\ nth_error (runs0 :: t) (S k) = Some runs /\
          read i = Some line /\ Forall bit line /\
          _line_groups_of_ones line <> runs).
    { intros extra Hx i. rewrite Hx. split;
        intros (k & runs & line & Ei & E & Hrest); exists k, runs, line;
        (split; [lia|]); (split; [exact E|exact Hrest]). }
    assert (Hlow : forall extra,
      (forall i, In i extra <->
         exists (k : nat) runs line,
           i = r + 1 + Z.of_nat k /\ nth_error t k = Some runs /\
           read i = Some line /\ Forall bit line /\
           _line_groups_of_ones line <> runs) ->
      Forall (fun i => r < i) extra).
    { intros extra Hx. apply Forall_forall. intros i Hi. apply Hx in Hi.
      destruct Hi as (k & _ & _ & -> & _). lia. }
    destruct (is_line_fully_known line0 && negb (does_line_satisfy_clues line0 runs0))
      eqn:Etest.
    + destruct (IH _ _ _ H) as (extra & -> & Hsorted & Hin).
      exists (r :: extra). rewrite <- app_assoc. split; [reflexivity|].
      split; [constructor; [exact Hsorted|exact (Hlow extra Hin)]|].
      apply andb_true_iff in Etest. destruct Etest as [Ek Es].
      apply is_line_fully_known_spec in Ek. apply negb_true_iff in Es.
      intros i. cbn [In]. rewrite (Hshift extra Hin). split.
      * intros [<-|(k & runs & line & Hrest)].
        -- exists O, runs0, line0. split; [lia|]. split; [reflexivity|].
           split; [exact Eread|]. split; [exact Ek|].
           intros Eg. assert (Hm : meets line0 runs0) by (split; assumption).
           apply does_line_satisfy_clues_spec in Hm. congruence.
        -- exists (S k), runs, line. exact Hrest.
      * intros ([|k] & runs & line & Ei & E & Hrest).
        -- left. lia.
        -- right. exists k, runs, line. split; [exact Ei|].
           split; [exact E|exact Hrest].
    + destruct (IH _ _ _ H) as (extra & -> & Hsorted & Hin).
      exists extra. split; [reflexivity|]. split; [exact Hsorted|].
      intros i. rewrite (Hshift extra Hin). split.
      * intros (k & runs & line & Hrest). exists (S k), runs, line. exact Hrest.
      * intros ([|k] & runs & line & Ei & E & Er & Hb & Hg).
        -- exfalso. injection E as <-.
           replace i with r in Er by lia. rewrite Eread in Er.
           injection Er as <-.
           apply andb_false_iff in Etest. destruct Etest as [Et|Et].
           ++ apply is_line_fully_known_spec in Hb. congruence.
           ++ apply negb_false_iff, does_line_satisfy_clues_spec in Et.
              destruct Et as [_ Et]. contradiction.
        -- exists k, runs, line. split; [exact Ei|].
           split; [exact E|]. split; [exact Er|]. split; assumption.
Qed.

(** On lines that are all fully known, the clue loop accepts exactly
    when the report stays empty. *)
Lemma satisfied_iff_no_report (clues : list (list Z)) :
  (forall r line, read r = Some line -> Forall bit line) ->
  forall r,
    satisfied_loop read r clues = Some true <->
    report_loop read r clues [] = Some [].
Proof.
  intros Hbits. induction clues as [|runs0 t IH]; intros r.
  - split; reflexivity.
  - cbn [satisfied_loop report_loop].
    destruct (read r) as [line|] eqn:Eread; cbn [bind]; [|split; discriminate].
    pose proof (proj2 (is_line_fully_known_spec line) (Hbits r line Eread)) as Ek.
    rewrite Ek. cbn [andb].
    destruct (negb (does_line_satisfy_clues line runs0)).
    + split; [discriminate|]. intros H.
      destruct (report_loop_spec _ _ _ _ H) as (extra & E & _).
      destruct extra; discriminate.
    + apply IH.
Qed.

End Reports.

(** ** Propagation never contradicts a solution *)

Section LineSoundness.

Variable n : Z.
Variable runs : list Z.
Hypothesis Hruns : Forall (fun r => 1 <= r) runs.

(** A line that meets the clue is filled wherever the overlap deducer
    says so. *)
Lemma overlap_sound (p : list Z) (c : Z) :
  meets p runs -> len p = n ->
  In c (overlap_fill_line n runs) -> 0 <= c < n /\ item p c = 1.
Proof.
  intros [Hb Hg] Hl Hc.
  split; [exact (overlap_in_line n runs c Hruns Hc)|].
  destruct runs as [|r0 rest] eqn:Eruns; [destruct Hc|].
  rewrite <- Eruns in *.
  assert (Hne : runs <> []) by (rewrite Eruns; discriminate).
  destruct (overlap_fill_line_members n runs Hne) as [Hpos Hneg].
  destruct (Z_lt_le_dec (slack n runs) 0) as [Hs|Hs].
  { rewrite (Hneg Hs) in Hc. destruct Hc. }
  destruct (Hpos Hs) as [_ Hmem]. apply Hmem in Hc.
  destruct Hc as (i & Hi & _ & Hrange).
  pose proof (fillings_complete runs Hruns p Hb Hg) as Hin.
  rewrite Hl in Hin.
  exact (proj2 (fillings_overlap runs Hruns n p Hin i c Hi Hrange)).
Qed.

(** A line that meets the clue and agrees with the known cells is
    filled at every must-fill position and empty at every must-empty
    one. *)
Lemma deduce_sound (known p mf me : list Z) :
  len known = n -> Forall cell_state known ->
  meets p runs -> len p = n ->
  (forall i, 0 <= i < n -> item known i = -1 \/ item known i = item p i) ->
  deduce_from_possibilities n runs known = Some (mf, me) ->
  (forall c, In c mf -> 0 <= c < n /\ item p c = 1) /\
  (forall c, In c me -> 0 <= c < n /\ item p c = 0).
Proof.
  intros Hknown Hstate [Hb Hg] Hl Hag Hd.
  assert (Hlegal : legal_pattern n runs known p).
  { split; [exact Hl|]. split; [exact Hb|]. split; [exact Hg|].
    intros i Hi. destruct (Hag i Hi) as [E|E]; split; intros E'; lia. }
  destruct (deduce_exact n runs known Hknown Hruns Hstate)
    as (mf' & me' & Hd' & Hsome & _).
  rewrite Hd in Hd'. injection Hd' as <- <-.
  destruct (Hsome (ex_intro _ p Hlegal)) as [Hmf Hme].
  split; intros c Hc.
  - apply Hmf in Hc. destruct Hc as [Hc Hall]. split; [exact Hc|].
    apply Hall. exact Hlegal.
  - apply Hme in Hc. destruct Hc as [Hc Hall]. split; [exact Hc|].
    apply Hall. exact Hlegal.
Qed.

End LineSoundness.

Section Compatible.

Lemma compatible_set_cell (g g' S : Grid) (r c v : Z) :
  set_cell g r c v = Some g' -> 0 <= r -> 0 <= c ->
  compatible g S -> cell S (Z.to_nat r) (Z.to_nat c) = Some v ->
  compatible g' S.
Proof.
  intros H Hr Hc Hcomp HS.
  destruct (set_cell_norm _ _ _ _ _ H)
    as (i & j & row & old & Hi & Hrow & Hj & Hold & _ & ->).
  destruct (norm_index_nonneg _ _ _ Hr Hi) as [-> _].
  destruct (norm_index_nonneg _ _ _ Hc Hj) as [-> _].
  intros i' j' w Hw.
  rewrite cell_update in Hw
    by (try exact Hrow; eapply norm_index_bound; exact Hj).
  destruct (Nat.eqb_spec (Z.to_nat r) i') as [<-|]; cbn [andb] in Hw;
    [|exact (Hcomp _ _ _ Hw)].
  destruct (Nat.eqb_spec (Z.to_nat c) j') as [<-|]; [|exact (Hcomp _ _ _ Hw)].
  injection Hw as <-. right. exact HS.
Qed.

Lemma compatible_overlap_mark (S : Grid) (r c : Z) (s s' : PassState) :
  overlap_mark r c s = Some s' -> 0 <= r -> 0 <= c ->
  compatible (snd s) S -> cell S (Z.to_nat r) (Z.to_nat c) = Some 1 ->
  compatible (snd s') S.
Proof.
  destruct s as [ch g]. unfold overlap_mark. intros H Hr Hc Hcomp HS.
  unpack; cbn [snd] in *; [|exact Hcomp].
  eapply compatible_set_cell; eassumption.
Qed.

Lemma compatible_possibility_mark (S : Grid) (v r c : Z) (s s' : PassState) :
  possibility_mark v r c s = Some s' -> 0 <= r -> 0 <= c ->
  compatible (snd s) S -> cell S (Z.to_nat r) (Z.to_nat c) = Some v ->
  compatible (snd s') S.
Proof.
  destruct s as [ch g]. unfold possibility_mark. intros H Hr Hc Hcomp HS.
  unpack; cbn [snd] in *; [|exact Hcomp].
  eapply compatible_set_cell; eassumption.
Qed.

Lemma item_nth_error (l : list Z) (i : Z) :
  0 <= i < len l -> nth_error l (Z.to_nat i) = Some (item l i).
Proof.
  intros H. rewrite <- getitem_in by exact H. apply getitem_item. exact H.
Qed.

End Compatible.

Section SolverSoundness.

Variable puzzle : NonogramPuzzle.
Hypothesis Hvalid : valid_puzzle puzzle.
Variable S : Grid.
Hypothesis Hsol : solution puzzle S.

Let n := size puzzle.

Lemma solution_row (r : Z) :
  0 <= r < n ->
  exists Srow runs,
    getitem (rows puzzle) r = Some runs /\ Forall (fun x => 1 <= x) runs /\
    nth_error S (Z.to_nat r) = Some Srow /\ len Srow = n /\ meets Srow runs.
Proof.
  intros Hr. destruct Hsol as [Hsq Hs]. fold n in Hsq.
  apply is_puzzle_solved_true in Hs. destruct Hs as (_ & Hrows & _).
  destruct (clue_of_row puzzle Hvalid r Hr) as (runs & E & Hruns).
  pose proof E as E'. rewrite getitem_nonneg in E' by lia.
  destruct (Hrows _ _ E') as (Srow & ES & Hm). unfold row_at in ES.
  exists Srow, runs. repeat split; try assumption; try apply Hm.
  destruct Hsq as [_ Hall]. rewrite Forall_forall in Hall. apply Hall.
  eapply nth_error_In. exact ES.
Qed.

Lemma solution_col (c : Z) :
  0 <= c < n ->
  exists Scol runs,
    getitem (cols puzzle) c = Some runs /\ Forall (fun x => 1 <= x) runs /\
    column_of S c (range 0 n) = Some Scol /\ len Scol = n /\ meets Scol runs.
Proof.
  intros Hc. destruct Hsol as [Hsq Hs]. fold n in Hsq.
  apply is_puzzle_solved_true in Hs. destruct Hs as (_ & _ & Hcols).
  destruct (clue_of_col puzzle Hvalid c Hc) as (runs & E & Hruns).
  pose proof E as E'. rewrite getitem_nonneg in E' by lia.
  destruct (Hcols _ _ E') as (Scol & ES & Hm). unfold col_at in ES.
  fold n in ES. rewrite Z2Nat.id in ES by lia.
  exists Scol, runs. repeat split; try assumption; try apply Hm.
  destruct (column_of_nth _ _ _ _ ES) as [Hlen _].
  unfold len. rewrite Hlen, length_range. lia.
Qed.

Lemma solution_row_cell (r c : Z) (Srow : list Z) :
  nth_error S (Z.to_nat r) = Some Srow -> len Srow = n -> 0 <= c < n ->
  cell S (Z.to_nat r) (Z.to_nat c) = Some (item Srow c).
Proof.
  intros E Hl Hc. unfold cell. rewrite E. apply item_nth_error. lia.
Qed.

Lemma solution_col_cell (r c : Z) (Scol : list Z) :
  column_of S c (range 0 n) = Some Scol -> len Scol = n ->
  0 <= r < n -> 0 <= c ->
  cell S (Z.to_nat r) (Z.to_nat c) = Some (item Scol r).
Proof.
  intros E Hl Hr Hc. rewrite <- get_cell_nonneg by lia.
  rewrite <- (column_of_getitem S c n Scol r E Hr).
  apply getitem_item. lia.
Qed.

Lemma sound_overlap_mark (r c : Z) (s s' : PassState) :
  0 <= r < n -> 0 <= c < n ->
  cell S (Z.to_nat r) (Z.to_nat c) = Some 1 ->
  sound_state n S s -> overlap_mark r c s = Some s' -> sound_state n S s'.
Proof.
  intros Hr Hc HS [Hcomp Hw] H. split.
  - eapply compatible_overlap_mark; try eassumption; lia.
  - destruct (overlap_mark_total n r c s Hw Hr Hc) as (s2 & E & Hw2).
    rewrite H in E. injection E as <-. exact Hw2.
Qed.

Lemma sound_possibility_mark (v r c : Z) (s s' : PassState) :
  bit v -> 0 <= r < n -> 0 <= c < n ->
  cell S (Z.to_nat r) (Z.to_nat c) = Some v ->
  sound_state n S s -> possibility_mark v r c s = Some s' ->
  sound_state n S s'.
Proof.
  intros Hv Hr Hc HS [Hcomp Hw] H. split.
  - eapply compatible_possibility_mark; try eassumption; lia.
  - destruct (possibility_mark_total n v r c s Hw Hv Hr Hc) as (s2 & E & Hw2).
    rewrite H in E. injection E as <-. exact Hw2.
Qed.

Lemma sound_overlap_row (r : Z) (s s' : PassState) :
  0 <= r < n -> sound_state n S s ->
  overlap_row puzzle r s = Some s' -> sound_state n S s'.
Proof.
  intros Hr Hs H.
  destruct (solution_row r Hr) as (Srow & runs & E & Hruns & ES & Hl & Hm).
  unfold overlap_row in H. rewrite E in H. cbn [bind] in H.
  revert H. apply for_each_inv; [|exact Hs].
  intros c s1 s2 Hc Hs1.
  destruct (overlap_sound n runs Hruns Srow c Hm Hl Hc) as [Hcn H1].
  apply sound_overlap_mark; try assumption.
  rewrite (solution_row_cell r c Srow ES Hl Hcn), H1. reflexivity.
Qed.

Lemma sound_overlap_col (c : Z) (s s' : PassState) :
  0 <= c < n -> sound_state n S s ->
  overlap_col puzzle c s = Some s' -> sound_state n S s'.
Proof.
  intros Hc Hs H.
  destruct (solution_col c Hc) as (Scol & runs & E & Hruns & ES & Hl & Hm).
  unfold overlap_col in H. rewrite E in H. cbn [bind] in H.
  revert H. apply for_each_inv; [|exact Hs].
  intros i s1 s2 Hi Hs1.
  destruct (overlap_sound n runs Hruns Scol i Hm Hl Hi) as [Hin H1].
  apply sound_overlap_mark; try assumption.
  rewrite (solution_col_cell i c Scol ES Hl Hin ltac:(lia)), H1. reflexivity.
Qed.

(** The marks of one deduced line keep the state sound when the line of
    the solution meets the clue and agrees with the cells read. *)
Lemma sound_line_marks (runs known p : list Z) (s s' : PassState)
  (mark : Z -> Z -> PassState -> option PassState) :
  Forall (fun x => 1 <= x) runs ->
  len known = n -> Forall cell_state known ->
  meets p runs -> len p = n ->
  (forall i, 0 <= i < n -> item known i = -1 \/ item known i = item p i) ->
  (forall v t s1 s2, bit v -> 0 <= t < n -> item p t = v ->
     sound_state n S s1 -> mark v t s1 = Some s2 -> sound_state n S s2) ->
  sound_state n S s ->
  ('(mf, me) <- deduce_from_possibilities n runs known ;;
   s1 <- for_each mf (mark 1) s ;;
   for_each me (mark 0) s1) = Some s' ->
  sound_state n S s'.
Proof.
  intros Hruns Hknown Hstate Hm Hl Hag Hmark Hs H.
  destruct (deduce_from_possibilities n runs known) as [[mf me]|] eqn:Ed;
    [|discriminate].
  cbn [bind] in H. cbv beta iota in H.
  destruct (deduce_sound n runs Hruns known p mf me Hknown Hstate Hm Hl Hag Ed)
    as [Hmf Hme].
  destruct (for_each mf (mark 1) s) as [s1|] eqn:E1; [|discriminate].
  cbn [bind] in H.
  assert (Hs1 : sound_state n S s1).
  { revert E1. apply for_each_inv; [|exact Hs].
    intros t a b Ht Ha. destruct (Hmf t Ht) as [Htn Ht1].
    apply Hmark; try assumption. right. reflexivity. }
  revert H. apply for_each_inv; [|exact Hs1].
  intros t a b Ht Ha. destruct (Hme t Ht) as [Htn Ht0].
  apply Hmark; try assumption. left. reflexivity.
Qed.

Lemma sound_possibility_row (r : Z) (s s' : PassState) :
  0 <= r < n -> sound_state n S s ->
  possibility_row puzzle r s = Some s' -> sound_state n S s'.
Proof.
  intros Hr Hs H. destruct s as [ch g].
  destruct (solution_row r Hr) as (Srow & runs & E & Hruns & ES & Hl & Hm).
  pose proof Hs as [Hcomp Hw]. cbn [snd] in Hcomp, Hw.
  destruct (square_row n g r (proj1 Hw) Hr) as (known & Ek & Hlk).
  unfold possibility_row in H. rewrite Ek in H. cbn [bind] in H.
  rewrite E in H. cbn [bind] in H. fold n in H.
  apply (sound_line_marks runs known Srow (ch, g) s'
           (fun v c => possibility_mark v r c)); try assumption.
  - destruct Hw as [_ Hst]. unfold grid_states in Hst.
    rewrite Forall_forall in Hst. apply Hst. eapply getitem_In. exact Ek.
  - intros i Hi.
    assert (Hc : cell g (Z.to_nat r) (Z.to_nat i) = Some (item known i)).
    { unfold cell. rewrite getitem_nonneg in Ek by lia. rewrite Ek.
      apply item_nth_error. lia. }
    destruct (Hcomp _ _ _ Hc) as [E1|E1]; [left; exact E1|right].
    rewrite (solution_row_cell r i Srow ES Hl Hi) in E1. congruence.
  - intros v t s1 s2 Hv Ht Hp Hs1. apply sound_possibility_mark; try assumption.
    rewrite (solution_row_cell r t Srow ES Hl Ht), Hp. reflexivity.
Qed.

Lemma sound_possibility_col (c : Z) (s s' : PassState) :
  0 <= c < n -> sound_state n S s ->
  possibility_col puzzle c s = Some s' -> sound_state n S s'.
Proof.
  intros Hc Hs H. destruct s as [ch g].
  destruct (solution_col c Hc) as (Scol & runs & E & Hruns & ES & Hl & Hm).
  pose proof Hs as [Hcomp Hw]. cbn [snd] in Hcomp, Hw.
  destruct (column_of_total n g c (range 0 n) Hw Hc)
    as (known & Ek & Hlk & Hstk).
  { intros r Hr. apply In_range in Hr. exact Hr. }
  assert (Hlenk : len known = n)
    by (unfold len; rewrite Hlk, length_range; lia).
  unfold possibility_col in H. fold n in H. rewrite Ek in H. cbn [bind] in H.
  rewrite E in H. cbn [bind] in H.
  apply (sound_line_marks runs known Scol (ch, g) s'
           (fun v i => possibility_mark v i c)); try assumption.
  - intros i Hi.
    assert (Hcell : cell g (Z.to_nat i) (Z.to_nat c) = Some (item known i)).
    { rewrite <- get_cell_nonneg by lia.
      rewrite <- (column_of_getitem g c n known i Ek Hi).
      apply getitem_item. lia. }
    destruct (Hcomp _ _ _ Hcell) as [E1|E1]; [left; exact E1|right].
    rewrite (solution_col_cell i c Scol ES Hl Hi ltac:(lia)) in E1. congruence.
  - intros v t s1 s2 Hv Ht Hp Hs1. apply sound_possibility_mark; try assumption.
    rewrite (solution_col_cell t c Scol ES Hl Ht ltac:(lia)), Hp. reflexivity.
Qed.

Lemma sound_round (g g' : Grid) (ch : bool) :
  sound_state n S (false, g) ->
  propagation_round puzzle g = Some (ch, g') ->
  sound_state n S (ch, g').
Proof.
  intros Hs H. unfold propagation_round, apply_overlap_pass,
    apply_possibility_pass in H. fold n in H.
  destruct (for_each (range 0 n) (overlap_row puzzle) (false, g))
    as [s1|] eqn:E1; [|discriminate]. cbn [bind] in H.
  assert (H1 : sound_state n S s1).
  { revert E1. apply for_each_inv; [|exact Hs].
    intros r a b Hr Ha. apply In_range in Hr. apply sound_overlap_row; assumption. }
  destruct (for_each (range 0 n) (overlap_col puzzle) s1)
    as [[c1 g1]|] eqn:E2; [|discriminate]. cbn [bind] in H.
  assert (H2 : sound_state n S (c1, g1)).
  { revert E2. apply for_each_inv; [|exact H1].
    intros c a b Hc Ha. apply In_range in Hc. apply sound_overlap_col; assumption. }
  destruct (for_each (range 0 n) (possibility_row puzzle) (false, g1))
    as [s3|] eqn:E3; [|discriminate]. cbn [bind] in H.
  assert (H3 : sound_state n S s3).
  { revert E3. apply for_each_inv; [|exact H2].
    intros r a b Hr Ha. apply In_range in Hr.
    apply sound_possibility_row; assumption. }
  destruct (for_each (range 0 n) (possibility_col puzzle) s3)
    as [[c2 g2]|] eqn:E4; [|discriminate]. cbn [bind] in H.
  assert (H4 : sound_state n S (c2, g2)).
  { revert E4. apply for_each_inv; [|exact H3].
    intros c a b Hc Ha. apply In_range in Hc.
    apply sound_possibility_col; assumption. }
  injection H as <- <-. exact H4.
Qed.

Lemma sound_solve_loop (rounds : nat) :
  forall g g', sound_state n S (false, g) ->
    solve_loop rounds puzzle g = Returned g' -> sound_state n S (false, g').
Proof.
  induction rounds as [|rounds IH]; intros g g' Hs H; [discriminate|].
  cbn [solve_loop] in H.
  destruct (is_puzzle_solved puzzle g) as [[|]|]; try discriminate.
  - injection H as <-. exact Hs.
  - destruct (propagation_round puzzle g) as [[ch g1]|] eqn:E; [|discriminate].
    pose proof (sound_round g g1 ch Hs E) as H1.
    destruct ch; [exact (IH g1 g' H1 H)|].
    injection H as <-. exact H1.
Qed.

Lemma sound_initial_state : sound_state n S (false, initial_state n).
Proof.
  split; [|apply (initial_state_working puzzle Hvalid)].
  cbn [snd]. intros i j v Hc. left.
  pose proof (initial_state_states n) as Hst.
  unfold cell in Hc. destruct (nth_error (initial_state n) i) as [row|] eqn:Er;
    [|discriminate].
  apply nth_error_In in Er. unfold initial_state in Er.
  apply in_map_iff in Er. destruct Er as (_ & <- & _).
  apply nth_error_In in Hc. unfold replicate in Hc.
  apply repeat_spec in Hc. exact Hc.
Qed.

(** Whatever [solve_nonogram] returns on a valid puzzle does not
    contradict any solution of the puzzle. *)
Lemma solve_nonogram_sound (rounds : nat) (out : SolveOutput) :
  solve_nonogram rounds puzzle = Returned out ->
  compatible (result out) S /\ working_grid n (result out).
Proof.
  unfold solve_nonogram. fold n. intros H.
  destruct (solve_loop rounds puzzle (initial_state n)) as [state| |] eqn:E;
    try discriminate.
  destruct (is_puzzle_solved puzzle state); [|discriminate].
  injection H as <-. cbn [result].
  exact (sound_solve_loop rounds _ _ sound_initial_state E).
Qed.

End SolverSoundness.

Lemma round_working (puzzle : NonogramPuzzle) (g g' : Grid) (ch : bool) :
  valid_puzzle puzzle -> working_grid (size puzzle) g ->
  propagation_round puzzle g = Some (ch, g') ->
  working_grid (size puzzle) g'.
Proof.
  intros Hv Hw H.
  destruct (round_total puzzle Hv g Hw) as (ch1 & g1 & E & Hw1).
  rewrite H in E. injection E as _ <-. exact Hw1.
Qed.

Lemma solve_loop_working (puzzle : NonogramPuzzle) (rounds : nat) :
  valid_puzzle puzzle ->
  forall g g', working_grid (size puzzle) g ->
    solve_loop rounds puzzle g = Returned g' ->
    working_grid (size puzzle) g'.
Proof.
  intros Hv. induction rounds as [|rounds IH]; intros g g' Hw H; [discriminate|].
  cbn [solve_loop] in H.
  destruct (is_puzzle_solved puzzle g) as [[|]|]; try discriminate.
  - injection H as <-. exact Hw.
  - destruct (propagation_round puzzle g) as [[ch g1]|] eqn:E; [|discriminate].
    pose proof (round_working puzzle g g1 ch Hv Hw E) as H1.
    destruct ch; [exact (IH g1 g' H1 H)|].
    injection H as <-. exact H1.
Qed.

Lemma solve_nonogram_working (puzzle : NonogramPuzzle) (rounds : nat)
  (out : SolveOutput) :
  valid_puzzle puzzle ->
  solve_nonogram rounds puzzle = Returned out ->
  working_grid (size puzzle) (result out) /\
  is_puzzle_solved puzzle (result out) = Some (printed_solved out).
Proof.
  unfold solve_nonogram. intros Hv H.
  destruct (solve_loop rounds puzzle (initial_state (size puzzle)))
    as [state| |] eqn:E; try discriminate.
  destruct (is_puzzle_solved puzzle state) eqn:Es; [|discriminate].
  injection H as <-. cbn [result printed_solved]. split; [|exact Es].
  exact (solve_loop_working puzzle rounds Hv _ _
           (initial_state_working puzzle Hv) E).
Qed.

Lemma nth_error_ext {A : Type} (l l' : list A) :
  (forall i, nth_error l i = nth_error l' i) -> l = l'.
Proof.
  revert l'. induction l as [|x t IH]; intros [|y t'] H.
  - reflexivity.
  - specialize (H 0%nat). discriminate.
  - specialize (H 0%nat). discriminate.
  - pose proof (H 0%nat) as H0. cbn in H0. injection H0 as ->.
    f_equal. apply IH. intros i. exact (H (S i)).
Qed.

Lemma same_length_ext {A : Type} (l l' : list A) :
  length l = length l' ->
  (forall i v, nth_error l i = Some v -> nth_error l' i = Some v) -> l = l'.
Proof.
  intros Hl H. apply nth_error_ext. intros i.
  destruct (nth_error l i) as [v|] eqn:E.
  - symmetry. apply H. exact E.
  - symmetry. apply nth_error_None. rewrite <- Hl. apply nth_error_None.
    exact E.
Qed.

(** Two grids of [n] rows of [n] cells are equal when every cell of the
    first holds the same in the second. *)
Lemma square_ext (n : Z) (g g' : Grid) :
  square n g -> square n g' ->
  (forall i j v, cell g i j = Some v -> cell g' i j = Some v) -> g = g'.
Proof.
  intros [Hl Hr] [Hl' Hr'] H. unfold len in *.
  apply same_length_ext; [lia|].
  intros i row Ei.
  destruct (nth_error g' i) as [row'|] eqn:Ei'.
  - f_equal. symmetry. apply same_length_ext.
    + rewrite Forall_forall in Hr, Hr'.
      pose proof (Hr _ (nth_error_In _ _ Ei)) as H1.
      pose proof (Hr' _ (nth_error_In _ _ Ei')) as H2. cbv beta in H1, H2. lia.
    + intros j v Ej. specialize (H i j v). unfold cell in H.
      rewrite Ei, Ei' in H. exact (H Ej).
  - apply nth_error_None in Ei'.
    assert (Hlt : (i < length g)%nat) by (apply nth_error_Some; congruence).
    lia.
Qed.

Lemma complete_cell (g : Grid) (i j : nat) (v : Z) :
  Forall (Forall bit) g -> cell g i j = Some v -> bit v.
Proof.
  intros Hg H. unfold cell in H.
  destruct (nth_error g i) as [row|] eqn:E; [|discriminate].
  rewrite Forall_forall in Hg. specialize (Hg _ (nth_error_In _ _ E)).
  rewrite Forall_forall in Hg. exact (Hg _ (nth_error_In _ _ H)).
Qed.

(** A complete grid that does not contradict a solution is that
    solution. *)
Lemma complete_compatible (n : Z) (g S : Grid) :
  square n g -> square n S -> Forall (Forall bit) g -> compatible g S ->
  g = S.
Proof.
  intros Hg HS Hc Hcomp. apply (square_ext n); try assumption.
  intros i j v E. destruct (Hcomp i j v E) as [->|H]; [|exact H].
  pose proof (complete_cell g i j (-1) Hc E) as [Hb|Hb]; discriminate.
Qed.

(** ** The solver against the solutions of a puzzle *)

Lemma valid_guess_puzzle : valid_puzzle guess_puzzle.
Proof.
  unfold valid_puzzle, guess_puzzle. cbn [size rows cols].
  split; [lia|]. split; [reflexivity|]. split; [reflexivity|].
  split; repeat (constructor; [repeat (constructor; [lia|]); constructor|]);
    constructor.
Qed.

Lemma solution_guess_puzzle : solution guess_puzzle guess_solution.
Proof.
  split; [|reflexivity]. split; [reflexivity|].
  repeat (constructor; [reflexivity|]). constructor.
Qed.

(** Propagation is sound.  On a valid puzzle, whatever grid
    [solve_nonogram] returns does not contradict any solution of the
    puzzle: each of its cells is still unknown or holds what the
    solution holds there. *)
Theorem solve_agrees_with_every_solution (puzzle : NonogramPuzzle)
  (S : Grid) (rounds : nat) (out : SolveOutput) :
  valid_puzzle puzzle -> solution puzzle S ->
  solve_nonogram rounds puzzle = Returned out ->
  compatible (result out) S.
Proof.
  intros Hv HS H.
  exact (proj1 (solve_nonogram_sound puzzle Hv S HS rounds out H)).
Qed.

(** The puzzle of size 4 on which propagation stalls, and its
    solution. *)
Lemma solve_agrees_with_every_solution_witness :
  compatible
    (result
       (mkOutput false
          [[0; 0; 0; 0]; [0; 0; 0; 0]; [-1; -1; -1; -1]; [-1; -1; -1; -1]]))
    guess_solution.
Proof.
  apply (solve_agrees_with_every_solution guess_puzzle guess_solution 2%nat).
  - exact valid_guess_puzzle.
  - exact solution_guess_puzzle.
  - vm_compute. reflexivity.
Defined.

(** When [solve_nonogram] reports a valid puzzle solved, the grid it
    returns is a solution and the puzzle has no other solution. *)
Theorem reported_solution_is_the_only_one (puzzle : NonogramPuzzle)
  (rounds : nat) (out : SolveOutput) :
  valid_puzzle puzzle ->
  solve_nonogram rounds puzzle = Returned out ->
  printed_solved out = true ->
  solution puzzle (result out) /\
  forall S, solution puzzle S -> S = result out.
Proof.
  intros Hv H Hp.
  destruct (solve_nonogram_working puzzle rounds out Hv H) as [Hw Es].
  rewrite Hp in Es.
  split; [split; [exact (proj1 Hw)|exact Es]|].
  intros S HS. symmetry.
  apply (complete_compatible (size puzzle)).
  - exact (proj1 Hw).
  - exact (proj1 HS).
  - exact (proj1 (proj1 (is_puzzle_solved_true _ _) Es)).
  - exact (proj1 (solve_nonogram_sound puzzle Hv S HS rounds out H)).
Qed.

(** The puzzle of size 2 with the row clues [[2]; []] and the column
    clues [[1]; [1]], which two rounds solve. *)
Lemma reported_solution_is_the_only_one_witness :
  solution (mkPuzzle 2 [[2]; []] [[1]; [1]])
    (result (mkOutput true [[1; 1]; [0; 0]])) /\
  forall S, solution (mkPuzzle 2 [[2]; []] [[1]; [1]]) S ->
    S = result (mkOutput true [[1; 1]; [0; 0]]).
Proof.
  apply (reported_solution_is_the_only_one
           (mkPuzzle 2 [[2]; []] [[1]; [1]]) 3%nat).
  - unfold valid_puzzle. cbn [size rows cols].
    split; [lia|]. split; [reflexivity|]. split; [reflexivity|].
    split; repeat (constructor; [repeat (constructor; [lia|]); constructor|]);
      constructor.
  - vm_compute. reflexivity.
  - reflexivity.
Defined.

(** On a valid puzzle that has a solution, [solve_nonogram] reports the
    puzzle solved exactly when the grid it returns has no unknown cell
    left: a complete result is never a wrong one. *)
Theorem solved_flag_iff_complete (puzzle : NonogramPuzzle)
  (S : Grid) (rounds : nat) (out : SolveOutput) :
  valid_puzzle puzzle -> solution puzzle S ->
  solve_nonogram rounds puzzle = Returned out ->
  (printed_solved out = true <-> Forall (Forall bit) (result out)).
Proof.
  intros Hv HS H.
  destruct (solve_nonogram_working puzzle rounds out Hv H) as [Hw Es].
  pose proof (proj1 (solve_nonogram_sound puzzle Hv S HS rounds out H)) as Hc.
  split.
  - intros Hp. rewrite Hp in Es.
    exact (proj1 (proj1 (is_puzzle_solved_true _ _) Es)).
  - intros Hb.
    assert (E : result out = S).
    { apply (complete_compatible (size puzzle)); try assumption.
      - exact (proj1 Hw).
      - exact (proj1 HS). }
    rewrite E in Es. rewrite (proj2 HS) in Es. congruence.
Qed.

(** The puzzle of size 4 on which propagation stalls: no flag, and
    unknown cells left. *)
Lemma solved_flag_iff_complete_witness :
  printed_solved
    (mkOutput false
       [[0; 0; 0; 0]; [0; 0; 0; 0]; [-1; -1; -1; -1]; [-1; -1; -1; -1]])
    = true <->
  Forall (Forall bit)
    (result
       (mkOutput false
          [[0; 0; 0; 0]; [0; 0; 0; 0]; [-1; -1; -1; -1]; [-1; -1; -1; -1]])).
Proof.
  apply (solved_flag_iff_complete guess_puzzle guess_solution 2%nat).
  - exact valid_guess_puzzle.
  - exact solution_guess_puzzle.
  - vm_compute. reflexivity.
Defined.

(** ** What the validator reports *)

Section ValidatorReports.

Lemma report_loop_none (read : Z -> option (list Z)) (clues : list (list Z)) :
  forall r bad,
    report_loop read r clues bad = None <->
    exists k : nat, (k < length clues)%nat /\ read (r + Z.of_nat k) = None.
Proof.
  induction clues as [|runs t IH]; intros r bad.
  - split; [discriminate|]. intros (k & Hk & _). simpl in Hk. lia.
  - cbn [report_loop].
    assert (Hshift :
      (exists k : nat, (k < length t)%nat /\ read (r + 1 + Z.of_nat k) = None) <->
      (exists k : nat, (S k < length (runs :: t))%nat /\
                       read (r + Z.of_nat (S k)) = None)).
    { split; intros (k & Hk & E); exists k; (split; [simpl in *; lia|]);
        [replace (r + Z.of_nat (S k)) with (r + 1 + Z.of_nat k) by lia
        |replace (r + 1 + Z.of_nat k) with (r + Z.of_nat (S k)) by lia];
        exact E. }
    destruct (read r) as [line|] eqn:Er; cbn [bind].
    + assert (Hrest : forall out,
        report_loop read (r + 1) t out = None <->
        exists k : nat, (k < length (runs :: t))%nat /\
                        read (r + Z.of_nat k) = None).
      { intros out. rewrite IH, Hshift. split.
        - intros (k & Hk & E). exists (S k). split; assumption.
        - intros ([|k] & Hk & E).
          + replace (r + Z.of_nat 0) with r in E by lia. congruence.
          + exists k. split; assumption. }
      destruct (is_line_fully_known line
                && negb (does_line_satisfy_clues line runs)); apply Hrest.
    + split; [|reflexivity]. intros _. exists O.
      split; [simpl; lia|]. replace (r + Z.of_nat 0) with r by lia. exact Er.
Qed.

Lemma column_of_none (g : Grid) (c : Z) (idxs : list Z) :
  column_of g c idxs = None <-> exists r, In r idxs /\ get_cell g r c = None.
Proof.
  induction idxs as [|r t IH].
  - split; [discriminate|intros (r & [] & _)].
  - cbn [column_of]. destruct (get_cell g r c) as [v|] eqn:E; cbn [bind].
    + destruct (column_of g c t) as [col|]; cbn [bind].
      * split; [discriminate|]. intros (r' & [<-|Hin] & E').
        -- congruence.
        -- assert (H : Some col = None); [|discriminate].
           apply IH. exists r'. split; assumption.
      * split; [|reflexivity]. intros _.
        destruct (proj1 IH eq_refl) as (r' & Hin & E').
        exists r'. split; [right; exact Hin|exact E'].
    + split; [|reflexivity]. intros _. exists r. split; [left; reflexivity|exact E].
Qed.

Lemma column_of_bits (g : Grid) (c : Z) (idxs : list Z) :
  Forall (Forall bit) g ->
  forall col, column_of g c idxs = Some col -> Forall bit col.
Proof.
  intros Hg. induction idxs as [|r t IH]; intros col H.
  - injection H as <-. constructor.
  - cbn [column_of] in H.
    destruct (get_cell g r c) as [v|] eqn:E; [|discriminate]. cbn [bind] in H.
    destruct (column_of g c t) as [col'|]; [|discriminate]. cbn [bind] in H.
    injection H as <-. constructor; [|apply IH; reflexivity].
    unfold get_cell in E.
    destruct (getitem g r) as [row|] eqn:Er; [|discriminate]. cbn [bind] in E.
    rewrite Forall_forall in Hg. specialize (Hg row (getitem_In _ _ _ Er)).
    rewrite Forall_forall in Hg. exact (Hg v (getitem_In _ _ _ E)).
Qed.

End ValidatorReports.

(** [is_puzzle_solved] accepts a grid exactly when the grid has no
    unknown cell, every row clue has its row and the row's filled blocks
    are the clue's runs, and the same for every column clue and the
    column read off the first [size] rows. *)
Theorem is_puzzle_solved_spec (puzzle : NonogramPuzzle) (state : Grid) :
  is_puzzle_solved puzzle state = Some true <->
  Forall (Forall bit) state /\
  (forall (r : nat) runs, nth_error (rows puzzle) r = Some runs ->
     exists row, row_at state r = Some row /\
       _line_groups_of_ones row = runs) /\
  (forall (c : nat) runs, nth_error (cols puzzle) c = Some runs ->
     exists col, col_at (size puzzle) state c = Some col /\
       _line_groups_of_ones col = runs).
Proof.
  rewrite is_puzzle_solved_true. split.
  - intros (Hb & Hr & Hc). split; [exact Hb|]. split.
    + intros r runs E. destruct (Hr r runs E) as (row & Er & _ & Hg).
      exists row. split; assumption.
    + intros c runs E. destruct (Hc c runs E) as (col & Ec & _ & Hg).
      exists col. split; assumption.
  - intros (Hb & Hr & Hc). split; [exact Hb|]. split.
    + intros r runs E. destruct (Hr r runs E) as (row & Er & Hg).
      exists row. split; [exact Er|]. split; [|exact Hg].
      rewrite Forall_forall in Hb. apply Hb. unfold row_at in Er.
      eapply nth_error_In. exact Er.
    + intros c runs E. destruct (Hc c runs E) as (col & Ec & Hg).
      exists col. split; [exact Ec|]. split; [|exact Hg].
      unfold col_at in Ec. eapply column_of_bits; eassumption.
Qed.

(** [validate_rows] returns, in ascending order and each once, the
    indices of the rows that are fully known and whose filled blocks
    differ from the clue; a row with an unknown cell is never
    reported. *)
Theorem validate_rows_reports (puzzle : NonogramPuzzle) (state : Grid)
  (bad : list Z) :
  validate_rows puzzle state = Some bad ->
  StronglySorted Z.lt bad /\
  forall r, In r bad <->
    exists (k : nat) runs row,
      r = Z.of_nat k /\ nth_error (rows puzzle) k = Some runs /\
      row_at state k = Some row /\ Forall bit row /\
      _line_groups_of_ones row <> runs.
Proof.
  unfold validate_rows. rewrite validate_rows_loop_report. intros H.
  destruct (report_loop_spec _ _ _ _ _ H) as (extra & -> & Hs & Hin).
  cbn [app]. split; [exact Hs|]. intros r. rewrite Hin.
  split; intros (k & runs & row & -> & E & Er & Hb & Hg);
    exists k, runs, row; (split; [lia|]); (split; [exact E|]);
    (split; [|split; assumption]).
  - rewrite getitem_nonneg in Er by lia. unfold row_at.
    rewrite <- Er. f_equal. lia.
  - rewrite getitem_nonneg by lia. unfold row_at in Er.
    rewrite <- Er. f_equal. lia.
Qed.

(** A grid whose first row misses the clue [[2]] and whose second row
    has an unknown cell. *)
Lemma validate_rows_reports_witness :
  StronglySorted Z.lt [0] /\
  forall r, In r [0] <->
    exists (k : nat) runs row,
      r = Z.of_nat k /\ nth_error (rows clashing_puzzle) k = Some runs /\
      row_at [[1; 0]; [-1; 1]] k = Some row /\ Forall bit row /\
      _line_groups_of_ones row <> runs.
Proof.
  apply (validate_rows_reports clashing_puzzle [[1; 0]; [-1; 1]] [0]).
  reflexivity.
Defined.

(** [validate_cols] returns, in ascending order and each once, the
    indices of the columns that are fully known and whose filled blocks
    differ from the clue. *)
Theorem validate_cols_reports (puzzle : NonogramPuzzle) (state : Grid)
  (bad : list Z) :
  validate_cols puzzle state = Some bad ->
  StronglySorted Z.lt bad /\
  forall c, In c bad <->
    exists (k : nat) runs col,
      c = Z.of_nat k /\ nth_error (cols puzzle) k = Some runs /\
      col_at (size puzzle) state k = Some col /\ Forall bit col /\
      _line_groups_of_ones col <> runs.
Proof.
  unfold validate_cols. rewrite validate_cols_loop_report. intros H.
  destruct (report_loop_spec _ _ _ _ _ H) as (extra & -> & Hs & Hin).
  cbn [app]. split; [exact Hs|]. intros c. rewrite Hin. unfold col_at.
  split; intros (k & runs & col & -> & E & Ec & Hb & Hg);
    exists k, runs, col; (split; [lia|]); (split; [exact E|]);
    (split; [|split; assumption]).
  - rewrite <- Ec. f_equal.
  - rewrite <- Ec. f_equal.
Qed.

(** A grid whose second column is filled against the clue [[]] and
    whose first column has an unknown cell. *)
Lemma validate_cols_reports_witness :
  StronglySorted Z.lt [1] /\
  forall c, In c [1] <->
    exists (k : nat) runs col,
      c = Z.of_nat k /\ nth_error (cols clashing_puzzle) k = Some runs /\
      col_at (size clashing_puzzle) [[1; 0]; [-1; 1]] k = Some col /\
      Forall bit col /\ _line_groups_of_ones col <> runs.
Proof.
  apply (validate_cols_reports clashing_puzzle [[1; 0]; [-1; 1]] [1]).
  reflexivity.
Defined.

(** The two reports raise [IndexError] exactly when a cell they read is
    missing: [validate_rows] when the grid has fewer rows than the
    puzzle has row clues, [validate_cols] when one of the first [size]
    rows is missing or is too short for one of the column clues. *)
Theorem validator_reports_raise_iff (puzzle : NonogramPuzzle) (state : Grid) :
  (validate_rows puzzle state = None <-> len state < len (rows puzzle)) /\
  (validate_cols puzzle state = None <->
   exists r c : nat,
     Z.of_nat r < size puzzle /\ (c < length (cols puzzle))%nat /\
     cell state r c = None).
Proof.
  split.
  - unfold validate_rows. rewrite validate_rows_loop_report, report_loop_none.
    unfold len. split.
    + intros (k & Hk & E). rewrite getitem_nonneg in E by lia.
      apply nth_error_None in E. lia.
    + intros H. exists (length state). split; [lia|].
      rewrite getitem_nonneg by lia. apply nth_error_None. lia.
  - unfold validate_cols. rewrite validate_cols_loop_report, report_loop_none.
    split.
    + intros (k & Hk & E). apply column_of_none in E.
      destruct E as (r & Hr & E). apply In_range in Hr.
      rewrite get_cell_nonneg in E by lia.
      exists (Z.to_nat r), k. split; [lia|]. split; [exact Hk|].
      rewrite <- E. f_equal. lia.
    + intros (r & c & Hr & Hc & E). exists c. split; [exact Hc|].
      apply column_of_none. exists (Z.of_nat r).
      split; [apply In_range; lia|].
      rewrite get_cell_nonneg by lia. rewrite <- E. f_equal; lia.
Qed.

(** The validator agrees with itself: [is_puzzle_solved] accepts a grid
    exactly when [is_grid_complete] holds and both reports come back
    empty. *)
Theorem solved_iff_complete_and_no_report (puzzle : NonogramPuzzle)
  (state : Grid) :
  is_puzzle_solved puzzle state = Some true <->
  is_grid_complete state = true /\
  validate_rows puzzle state = Some [] /\
  validate_cols puzzle state = Some [].
Proof.
  unfold is_puzzle_solved, validate_rows, validate_cols.
  rewrite validate_rows_loop_report, validate_cols_loop_report.
  rewrite rows_satisfied_loop, cols_satisfied_loop.
  destruct (is_grid_complete state) eqn:Ec; cbn [negb];
    [|split; [discriminate|intros [H _]; discriminate]].
  apply is_grid_complete_spec in Ec.
  pose proof (satisfied_iff_no_report (getitem state) (rows puzzle)) as Hr.
  pose proof (satisfied_iff_no_report
                (fun c => column_of state c (range 0 (size puzzle)))
                (cols puzzle)) as Hc.
  assert (Hbr : forall r line, getitem state r = Some line -> Forall bit line).
  { intros r line E. rewrite Forall_forall in Ec. apply Ec.
    eapply getitem_In. exact E. }
  assert (Hbc : forall c line,
            column_of state c (range 0 (size puzzle)) = Some line ->
            Forall bit line).
  { intros c line E. eapply column_of_bits; eassumption. }
  specialize (Hr Hbr 0). specialize (Hc Hbc 0).
  destruct (satisfied_loop (getitem state) 0 (rows puzzle)) as [[|]|];
    cbn [bind negb].
  - destruct (satisfied_loop _ 0 (cols puzzle)) as [[|]|]; cbn [bind negb].
    + split; [|reflexivity]. intros _. split; [reflexivity|].
      split; [apply Hr|apply Hc]; reflexivity.
    + split; [discriminate|]. intros (_ & _ & H). apply Hc in H. discriminate.
    + split; [discriminate|]. intros (_ & _ & H). apply Hc in H. discriminate.
  - split; [discriminate|]. intros (_ & H & _). apply Hr in H. discriminate.
  - split; [discriminate|]. intros (_ & H & _). apply Hr in H. discriminate.
Qed.

(** ** The overlap rule finds every cell that all placements fill *)

Section OverlapExact.

Lemma slack_cons (n r : Z) (rest : list Z) :
  slack n (r :: rest) = n - r - len rest - sum rest.
Proof. unfold slack. rewrite sum_cons, len_cons. lia. Qed.

(** With room for the runs there is a filling for every offset of the
    first run. *)
Lemma fillings_exist (rs : list Z) :
  forall n, (rs <> [] -> 0 <= slack n rs) ->
    exists q, In q (fillings rs n).
Proof.
  induction rs as [|r rest IH]; intros n Hs.
  - exists (replicate 0 n). left. reflexivity.
  - specialize (Hs ltac:(discriminate)). rewrite slack_cons in Hs.
    destruct rest as [|r' rest'] eqn:Erest.
    + exists (replicate 0 0 ++ replicate 1 r ++ replicate 0 (n - 0 - r)).
      apply fillings_intro; [|reflexivity].
      rewrite sum_cons, len_cons in *. lia.
    + destruct (IH (n - 0 - r - 1)) as (q' & Hq').
      { intros _. rewrite slack_cons. rewrite len_cons, sum_cons in Hs. lia. }
      exists (replicate 0 0 ++ replicate 1 r ++ 0 :: q').
      apply fillings_intro.
      * rewrite !sum_cons, !len_cons in *. lia.
      * exists q'. split; [reflexivity|exact Hq'].
Qed.

Lemma fillings_at_offset (r : Z) (rest : list Z) (n off : Z) :
  0 <= off <= slack n (r :: rest) ->
  exists t, In (replicate 0 off ++ replicate 1 r ++ t) (fillings (r :: rest) n).
Proof.
  intros Hoff. pose proof Hoff as Hoff'. rewrite slack_cons in Hoff'.
  destruct rest as [|r' rest'] eqn:Erest.
  - exists (replicate 0 (n - off - r)). apply fillings_intro; [|reflexivity].
    unfold slack in Hoff. lia.
  - destruct (fillings_exist (r' :: rest') (n - off - r - 1)) as (q' & Hq').
    { intros _. rewrite slack_cons. rewrite len_cons, sum_cons in Hoff'. lia. }
    exists (0 :: q'). apply fillings_intro.
    + unfold slack in Hoff. lia.
    + exists q'. split; [reflexivity|exact Hq'].
Qed.

(** A cell that every filling fills lies in the overlap of the leftmost
    and the rightmost placement of one run. *)
Lemma forced_in_overlap (rs : list Z) :
  Forall (fun r => 1 <= r) rs ->
  forall n x, rs <> [] -> 0 <= slack n rs -> 0 <= x ->
    (forall q, In q (fillings rs n) -> item q x = 1) ->
    exists i, (i < length rs)%nat /\
      latestStart n rs i <= x <= earliestStart rs i + nth i rs 0 - 1.
Proof.
  induction rs as [|r rest IH]; intros Hruns n x Hne Hs Hx Hall;
    [contradiction|].
  pose proof (Forall_inv Hruns) as Hr. cbv beta in Hr.
  pose proof (Forall_inv_tail Hruns) as Hrest.
  destruct (Z_lt_le_dec x r) as [Hlt|Hge].
  - destruct (Z_lt_le_dec x (slack n (r :: rest))) as [Hxs|Hxs].
    + exfalso.
      destruct (fillings_at_offset r rest n (slack n (r :: rest)) ltac:(lia))
        as (t & Ht).
      specialize (Hall _ Ht).
      rewrite item_app_l in Hall by (rewrite len_replicate; lia).
      rewrite item_replicate in Hall by lia. discriminate.
    + exists O. split; [simpl; lia|].
      unfold latestStart, earliestStart. cbn [skipn firstn nth].
      rewrite sum_nil. unfold slack in Hxs. lia.
  - destruct rest as [|r' rest'] eqn:Erest.
    + exfalso. rewrite slack_cons, sum_nil in Hs. change (len []) with 0 in Hs.
      pose proof (fillings_intro r [] n 0 (replicate 0 (n - 0 - r))) as H0.
      rewrite sum_cons, sum_nil, len_cons in H0. change (len []) with 0 in H0.
      specialize (H0 ltac:(lia) eq_refl). specialize (Hall _ H0).
      cbn [replicate app] in Hall. change (replicate 0 0) with (@nil Z) in Hall.
      cbn [app] in Hall.
      rewrite item_app_r in Hall by (rewrite len_replicate; lia).
      rewrite item_zeros in Hall by (rewrite len_replicate; lia). discriminate.
    + rewrite <- Erest in *.
      assert (Hs' : 0 <= slack (n - 0 - r - 1) rest).
      { rewrite slack_cons in Hs. unfold slack. lia. }
      assert (Hin : forall q', In q' (fillings rest (n - 0 - r - 1)) ->
                In (replicate 0 0 ++ replicate 1 r ++ 0 :: q')
                   (fillings (r :: rest) n)).
      { intros q' Hq'. apply fillings_intro.
        - rewrite slack_cons in Hs. rewrite sum_cons, len_cons. lia.
        - rewrite Erest. exists q'. split; [reflexivity|].
          rewrite <- Erest. exact Hq'. }
      destruct (Z.eq_dec x r) as [->|Hxr].
      * exfalso. destruct (fillings_exist rest (n - 0 - r - 1)) as (q' & Hq');
          [intros _; exact Hs'|].
        specialize (Hall _ (Hin q' Hq')).
        pose proof (item_pieces_gap_at [] q' 0 r 0 r ltac:(lia) ltac:(lia)) as Hg.
        cbn [app] in Hg. change (len []) with 0 in Hg.
        rewrite Hg in Hall by lia. discriminate.
      * destruct (IH Hrest (n - 0 - r - 1) (x - r - 1)) as (i & Hi & Hlo & Hhi).
        -- rewrite Erest. discriminate.
        -- exact Hs'.
        -- lia.
        -- intros q' Hq'. specialize (Hall _ (Hin q' Hq')).
           change (replicate 0 0) with (@nil Z) in Hall. cbn [app] in Hall.
           rewrite item_app_r in Hall by (rewrite len_replicate; lia).
           rewrite len_replicate in Hall by lia.
           change (0 :: q') with ([0] ++ q') in Hall.
           rewrite item_app_r in Hall by (change (len [0]) with 1; lia).
           change (len [0]) with 1 in Hall. exact Hall.
        -- exists (S i). split; [simpl; lia|].
           unfold latestStart, earliestStart in *.
           cbn [skipn nth]. rewrite firstn_cons, sum_cons, len_cons.
           lia.
Qed.

Lemma sorted_ext (l1 l2 : list Z) :
  StronglySorted Z.lt l1 -> StronglySorted Z.lt l2 ->
  (forall x, In x l1 <-> In x l2) -> l1 = l2.
Proof.
  revert l2. induction l1 as [|a t IH]; intros [|b t'] H1 H2 H.
  - reflexivity.
  - exfalso. apply (proj2 (H b)). left. reflexivity.
  - exfalso. apply (proj1 (H a)). left. reflexivity.
  - apply StronglySorted_inv in H1. destruct H1 as [H1 Ha].
    apply StronglySorted_inv in H2. destruct H2 as [H2 Hb].
    rewrite Forall_forall in Ha, Hb.
    assert (E : a = b).
    { destruct (proj1 (H a) (or_introl eq_refl)) as [E|Hin]; [auto|].
      destruct (proj2 (H b) (or_introl eq_refl)) as [E|Hin']; [auto|].
      specialize (Ha _ Hin'). specialize (Hb _ Hin). lia. }
    subst b. f_equal. apply IH; [exact H1|exact H2|].
    intros x. split; intros Hx.
    + destruct (proj1 (H x) (or_intror Hx)) as [<-|Hin]; [|exact Hin].
      specialize (Ha _ Hx). lia.
    + destruct (proj2 (H x) (or_intror Hx)) as [<-|Hin]; [|exact Hin].
      specialize (Hb _ Hx). lia.
Qed.

Lemma range_sorted (lo hi : Z) : StronglySorted Z.lt (range lo hi).
Proof.
  remember (Z.to_nat (hi - lo)) as k eqn:Hk. revert lo Hk.
  induction k as [|k IH]; intros lo Hk.
  - rewrite range_nil by lia. constructor.
  - rewrite range_cons by lia. constructor; [apply IH; lia|].
    apply Forall_forall. intros x Hx. apply In_range in Hx. lia.
Qed.

Lemma filter_sorted (f : Z -> bool) (l : list Z) :
  StronglySorted Z.lt l -> StronglySorted Z.lt (filter f l).
Proof.
  induction l as [|a t IH]; intros H; [constructor|].
  apply StronglySorted_inv in H. destruct H as [H Ha]. cbn [filter].
  destruct (f a); [|exact (IH H)].
  constructor; [exact (IH H)|].
  rewrite Forall_forall in *. intros x Hx. apply filter_In in Hx.
  apply Ha. exact (proj1 Hx).
Qed.

(** The must-fill list of the deducer is in ascending order. *)
Lemma deduce_sorted (L : Z) (runs known mf me : list Z) :
  deduce_from_possibilities L runs known = Some (mf, me) ->
  StronglySorted Z.lt mf /\ StronglySorted Z.lt me.
Proof.
  intros H. destruct (deduce_structure _ _ _ _ _ H)
    as (ps & _ & [(_ & -> & ->)|(_ & -> & ->)]).
  - split; constructor.
  - split; apply filter_sorted, range_sorted.
Qed.

Lemma unknown_line_legal (n : Z) (runs p : list Z) :
  0 <= n -> Forall (fun r => 1 <= r) runs ->
  legal_pattern n runs (replicate (-1) n) p <-> In p (fillings runs n).
Proof.
  intros Hn Hruns.
  rewrite <- (legal_iff n runs (replicate (-1) n) p);
    [|apply len_replicate; exact Hn|exact Hruns
     |apply Forall_replicate; left; reflexivity].
  rewrite filter_In. split; [tauto|intros H; split; [exact H|]].
  apply agrees_spec. intros i Hi. left.
  rewrite len_replicate in Hi by exact Hn. apply item_replicate. exact Hi.
Qed.

End OverlapExact.

(** On a line with no known cell the two deducers agree on what must be
    filled: the list [overlap_fill_line] returns is the must-fill list
    of [deduce_from_possibilities], so the overlap rule misses no cell
    that every placement of the runs fills. *)
Theorem overlap_is_exact_on_unknown_line (n : Z) (runs : list Z) :
  0 <= n -> Forall (fun r => 1 <= r) runs ->
  exists must_empty,
    deduce_from_possibilities n runs (replicate (-1) n)
    = Some (overlap_fill_line n runs, must_empty).
Proof.
  intros Hn Hruns.
  destruct (deduce_exact n runs (replicate (-1) n)
              (len_replicate _ _ Hn) Hruns
              (Forall_replicate _ _ _ (or_introl eq_refl)))
    as (mf & me & E & Hsome & Hnone & _).
  exists me. rewrite E. do 2 f_equal.
  destruct (deduce_sorted _ _ _ _ _ E) as [Hsmf _].
  destruct runs as [|r rest] eqn:Eruns.
  - (* no run: the empty line is the one pattern *)
    cbn [overlap_fill_line].
    assert (Hz : legal_pattern n [] (replicate (-1) n) (replicate 0 n)).
    { apply unknown_line_legal; [exact Hn|constructor|]. left. reflexivity. }
    destruct (Hsome (ex_intro _ _ Hz)) as [Hmf _].
    destruct mf as [|i mf']; [reflexivity|exfalso].
    destruct (proj1 (Hmf i) (or_introl eq_refl)) as [Hi H1].
    specialize (H1 _ Hz). rewrite item_zeros in H1 by lia. discriminate.
  - rewrite <- Eruns in *.
    assert (Hne : runs <> []) by (rewrite Eruns; discriminate).
    destruct (overlap_fill_line_members n runs Hne) as [Hfit Htight].
    destruct (Z_lt_le_dec (slack n runs) 0) as [Hneg|Hpos].
    + (* no room: no pattern *)
      rewrite (Htight Hneg). apply Hnone. intros (p & Hp).
      apply unknown_line_legal in Hp; [|exact Hn|exact Hruns].
      rewrite Eruns in Hp. apply fillings_need_room in Hp.
      rewrite <- Eruns in Hp. unfold slack in Hneg. lia.
    + destruct (Hfit Hpos) as [Hso Hov].
      destruct (fillings_exist runs n (fun _ => Hpos)) as (q0 & Hq0).
      assert (Hex : exists p, legal_pattern n runs (replicate (-1) n) p).
      { exists q0. apply unknown_line_legal; assumption. }
      destruct (Hsome Hex) as [Hmf _].
      apply sorted_ext; [exact Hsmf|exact Hso|].
      intros x. rewrite Hmf. split.
      * intros [Hx Hall]. apply Hov.
        destruct (forced_in_overlap runs Hruns n x Hne Hpos ltac:(lia))
          as (i & Hi & Hlo & Hhi).
        { intros q Hq. apply Hall. apply unknown_line_legal; assumption. }
        exists i. split; [exact Hi|]. split; [|lia].
        assert (Hid : latestStart n runs i
                      = earliestStart runs i + slack n runs).
        { unfold latestStart, earliestStart, slack.
          pose proof (sum_firstn_skipn i runs).
          pose proof (sum_firstn_skipn i runs). lia. }
        lia.
      * intros Hin. split; [exact (overlap_in_line n runs x Hruns Hin)|].
        intros p Hp. apply unknown_line_legal in Hp; [|exact Hn|exact Hruns].
        apply Hov in Hin. destruct Hin as (i & Hi & _ & Hrange).
        exact (proj2 (fillings_overlap runs Hruns n p Hp i x Hi Hrange)).
Qed.

(** The clue [[3; 1]] in a line of five cells. *)
Lemma overlap_is_exact_on_unknown_line_witness :
  exists must_empty,
    deduce_from_possibilities 5 [3; 1] (replicate (-1) 5)
    = Some (overlap_fill_line 5 [3; 1], must_empty).
Proof.
  apply (overlap_is_exact_on_unknown_line 5 [3; 1]); [lia|].
  repeat (constructor; [lia|]). constructor.
Defined.

(** ** The flag of a pass and the end of the loop *)

Section Flags.

Lemma flag_of_advance (g : Grid) (s' : PassState) :
  advance (false, g) s' -> quiet (false, g) s' ->
  (fst s' = true <-> snd s' <> g).
Proof.
  intros (_ & _ & _ & Hlt) Hq. cbn [fst snd] in *. split.
  - intros Ht E. destruct (Hlt Ht) as [H|H]; [discriminate|].
    rewrite E in H. lia.
  - intros Hne. destruct (fst s') eqn:Ef; [reflexivity|exfalso].
    apply Hne. rewrite (Hq Ef). reflexivity.
Qed.

Lemma solve_loop_fixed_point (puzzle : NonogramPuzzle) (rounds : nat) :
  forall g g', solve_loop rounds puzzle g = Returned g' ->
    is_puzzle_solved puzzle g' = Some true \/
    propagation_round puzzle g' = Some (false, g').
Proof.
  induction rounds as [|rounds IH]; intros g g' H; [discriminate|].
  cbn [solve_loop] in H.
  destruct (is_puzzle_solved puzzle g) as [[|]|] eqn:Es; try discriminate.
  - injection H as <-. left. exact Es.
  - destruct (propagation_round puzzle g) as [[ch g1]|] eqn:E; [|discriminate].
    destruct ch; [exact (IH g1 g' H)|].
    injection H as <-. right.
    pose proof (round_quiet _ _ _ E) as ->. exact E.
Qed.

End Flags.

(** The value each pass returns means what its docstring says: on a
    grid of cell states, [apply_overlap_pass] and
    [apply_possibility_pass] return [True] exactly when they changed
    the grid, and so does a round made of both. *)
Theorem pass_flag_means_change (puzzle : NonogramPuzzle) (grid : Grid) :
  grid_states grid ->
  (forall changed grid',
     apply_overlap_pass puzzle grid = Some (changed, grid') ->
     (changed = true <-> grid' <> grid)) /\
  (forall changed grid',
     apply_possibility_pass puzzle grid = Some (changed, grid') ->
     (changed = true <-> grid' <> grid)) /\
  (forall changed grid',
     propagation_round puzzle grid = Some (changed, grid') ->
     (changed = true <-> grid' <> grid)).
Proof.
  intros Hg. split; [|split]; intros changed grid' H.
  - apply (flag_of_advance grid (changed, grid')).
    + exact (overlap_pass_advance _ _ _ Hg H).
    + intros Hf. cbn [fst] in Hf. subst changed.
      rewrite (overlap_pass_quiet _ _ _ H). reflexivity.
  - apply (flag_of_advance grid (changed, grid')).
    + exact (possibility_pass_advance _ _ _ Hg H).
    + intros Hf. cbn [fst] in Hf. subst changed.
      rewrite (possibility_pass_quiet _ _ _ H). reflexivity.
  - destruct (round_advance _ _ _ _ Hg H) as (_ & _ & _ & Hlt). split.
    + intros Ht E. specialize (Hlt Ht). rewrite E in Hlt. lia.
    + intros Hne. destruct changed; [reflexivity|exfalso].
      apply Hne. exact (round_quiet _ _ _ H).
Qed.

(** The grid of size 2 with its first row filled, under the clues
    [[2]; []] and [[]; []]. *)
Lemma pass_flag_means_change_witness :
  (forall changed grid',
     apply_overlap_pass clashing_puzzle [[1; 1]; [-1; 0]]
       = Some (changed, grid') ->
     (changed = true <-> grid' <> [[1; 1]; [-1; 0]])) /\
  (forall changed grid',
     apply_possibility_pass clashing_puzzle [[1; 1]; [-1; 0]]
       = Some (changed, grid') ->
     (changed = true <-> grid' <> [[1; 1]; [-1; 0]])) /\
  (forall changed grid',
     propagation_round clashing_puzzle [[1; 1]; [-1; 0]]
       = Some (changed, grid') ->
     (changed = true <-> grid' <> [[1; 1]; [-1; 0]])).
Proof.
  apply (pass_flag_means_change clashing_puzzle [[1; 1]; [-1; 0]]).
  unfold grid_states, cell_state.
  repeat (constructor; [repeat (constructor; [lia|]); constructor|]).
  constructor.
Defined.

(** [solve_nonogram] gives up only where propagation has nothing left
    to say: when it returns without reporting the puzzle solved, one
    more round on the returned grid changes nothing. *)
Theorem solve_stops_at_fixed_point (puzzle : NonogramPuzzle) (rounds : nat)
  (out : SolveOutput) :
  solve_nonogram rounds puzzle = Returned out ->
  printed_solved out = true \/
  propagation_round puzzle (result out) = Some (false, result out).
Proof.
  unfold solve_nonogram. intros H.
  destruct (solve_loop rounds puzzle (initial_state (size puzzle)))
    as [state| |] eqn:E; try discriminate.
  destruct (is_puzzle_solved puzzle state) as [b|] eqn:Es; [|discriminate].
  injection H as <-. cbn [printed_solved result].
  destruct (solve_loop_fixed_point _ _ _ _ E) as [H|H].
  - left. congruence.
  - right. exact H.
Qed.

(** The puzzle of size 4 on which propagation stalls. *)
Lemma solve_stops_at_fixed_point_witness :
  printed_solved
    (mkOutput false
       [[0; 0; 0; 0]; [0; 0; 0; 0]; [-1; -1; -1; -1]; [-1; -1; -1; -1]])
    = true \/
  propagation_round guess_puzzle
    (result
       (mkOutput false
          [[0; 0; 0; 0]; [0; 0; 0; 0]; [-1; -1; -1; -1]; [-1; -1; -1; -1]]))
  = Some (false,
          result
            (mkOutput false
               [[0; 0; 0; 0]; [0; 0; 0; 0]; [-1; -1; -1; -1]; [-1; -1; -1; -1]])).
Proof.
  apply (solve_stops_at_fixed_point guess_puzzle 2%nat).
  vm_compute. reflexivity.
Defined.

(** ** What one overlap pass writes *)

Section OverlapPass.

Lemma fills_refl (g : Grid) : fills (fun _ _ => False) g g.
Proof.
  intros i j. split; [auto|]. intros v E. right.
  split; [intros (_ & []) |exact E].
Qed.

Lemma fills_trans (T1 T2 : nat -> nat -> Prop) (g g1 g2 : Grid) :
  fills T1 g g1 -> fills T2 g1 g2 ->
  fills (fun i j => T1 i j \/ T2 i j) g g2.
Proof.
  intros H1 H2 i j. destruct (H1 i j) as [N1 S1]. destruct (H2 i j) as [N2 S2].
  split; [auto|]. intros v E.
  destruct (S1 v E) as [(-> & Ht & E1)|(Hn & E1)].
  - left. split; [reflexivity|]. split; [left; exact Ht|].
    destruct (S2 1 E1) as [(Hv & _)|(_ & E2)]; [discriminate|exact E2].
  - destruct (S2 v E1) as [(-> & Ht & E2)|(Hn2 & E2)].
    + left. split; [reflexivity|]. split; [right; exact Ht|exact E2].
    + right. split; [|exact E2]. intros (Hv & [Ht|Ht]); tauto.
Qed.

Lemma fills_weaken (T T' : nat -> nat -> Prop) (g g' : Grid) :
  (forall i j, T i j <-> T' i j) -> fills T g g' -> fills T' g g'.
Proof.
  intros HT H i j. destruct (H i j) as [N S]. split; [exact N|].
  intros v E. destruct (S v E) as [(Hv & Ht & E1)|(Hn & E1)].
  - left. split; [exact Hv|]. split; [apply HT; exact Ht|exact E1].
  - right. split; [|exact E1]. intros (Hv & Ht). apply Hn.
    split; [exact Hv|apply HT; exact Ht].
Qed.

Lemma for_each_fills {A : Type} (T : A -> nat -> nat -> Prop) (xs : list A)
  (body : A -> PassState -> option PassState) :
  (forall x s s', In x xs -> body x s = Some s' ->
     fills (T x) (snd s) (snd s')) ->
  forall s s', for_each xs body s = Some s' ->
    fills (fun i j => exists x, In x xs /\ T x i j) (snd s) (snd s').
Proof.
  induction xs as [|x t IH]; intros Hbody s s' H.
  - injection H as <-. eapply fills_weaken; [|apply fills_refl].
    intros i j. split; [intros []|intros (x & [] & _)].
  - cbn [for_each] in H.
    destruct (body x s) as [s1|] eqn:E; [|discriminate]. cbn [bind] in H.
    pose proof (Hbody x s s1 (or_introl eq_refl) E) as H1.
    pose proof (IH (fun y a b Hy => Hbody y a b (or_intror Hy)) s1 s' H) as H2.
    eapply fills_weaken; [|exact (fills_trans _ _ _ _ _ H1 H2)].
    intros i j. cbv beta. split.
    + intros [Ht|(y & Hy & Ht)]; [exists x|exists y]; split; auto;
        [left; reflexivity|right; exact Hy].
    + intros (y & [<-|Hy] & Ht); [left; exact Ht|right; exists y; auto].
Qed.

Lemma overlap_mark_fills (r c : Z) (s s' : PassState) :
  0 <= r -> 0 <= c -> overlap_mark r c s = Some s' ->
  fills (fun i j => i = Z.to_nat r /\ j = Z.to_nat c) (snd s) (snd s').
Proof.
  destruct s as [ch g]. unfold overlap_mark. intros Hr Hc H.
  destruct (get_cell g r c) as [v|] eqn:Ev; [|discriminate]. cbn [bind] in H.
  destruct (Z.eqb_spec v (-1)) as [->|Hv].
  - destruct (set_cell g r c 1) as [g'|] eqn:Es; [|discriminate].
    cbn [bind] in H. injection H as <-. cbn [snd].
    destruct (set_cell_norm _ _ _ _ _ Es)
      as (i0 & j0 & row & old & Hi & Hrow & Hj & Hold & _ & ->).
    destruct (norm_index_nonneg _ _ _ Hr Hi) as [-> Hrl].
    destruct (norm_index_nonneg _ _ _ Hc Hj) as [-> Hcl].
    rewrite get_cell_nonneg in Ev by lia.
    assert (Hlt : (Z.to_nat c < length row)%nat) by (unfold len in *; lia).
    intros i j. rewrite (cell_update g _ _ row 1 i j Hrow Hlt).
    destruct (Nat.eqb_spec (Z.to_nat r) i) as [<-|Hne]; cbn [andb].
    + destruct (Nat.eqb_spec (Z.to_nat c) j) as [<-|Hne].
      * split; [congruence|]. intros v E. left.
        split; [congruence|]. split; [split; reflexivity|reflexivity].
      * split; [auto|]. intros v E. right. split; [|exact E].
        intros (_ & _ & Hj'). congruence.
    + split; [auto|]. intros v E. right. split; [|exact E].
      intros (_ & Hi' & _). congruence.
  - injection H as <-. cbn [snd]. intros i j. split; [auto|].
    intros v' E. right. split; [|exact E].
    intros (-> & -> & ->). rewrite get_cell_nonneg in Ev by lia. congruence.
Qed.

Variable puzzle : NonogramPuzzle.
Hypothesis Hvalid : valid_puzzle puzzle.

Lemma valid_row_runs (i : nat) (runs : list Z) :
  nth_error (rows puzzle) i = Some runs -> Forall (fun x => 1 <= x) runs.
Proof.
  intros E. destruct Hvalid as (_ & _ & _ & Hr & _).
  rewrite Forall_forall in Hr. apply Hr. eapply nth_error_In. exact E.
Qed.

Lemma valid_col_runs (j : nat) (runs : list Z) :
  nth_error (cols puzzle) j = Some runs -> Forall (fun x => 1 <= x) runs.
Proof.
  intros E. destruct Hvalid as (_ & _ & _ & _ & Hc).
  rewrite Forall_forall in Hc. apply Hc. eapply nth_error_In. exact E.
Qed.

Lemma overlap_row_fills (r : Z) (s s' : PassState) :
  0 <= r -> overlap_row puzzle r s = Some s' ->
  fills (fun i j => i = Z.to_nat r /\
           exists runs, nth_error (rows puzzle) i = Some runs /\
             In (Z.of_nat j) (overlap_fill_line (size puzzle) runs))
        (snd s) (snd s').
Proof.
  intros Hr H. unfold overlap_row in H.
  rewrite getitem_nonneg in H by exact Hr.
  destruct (nth_error (rows puzzle) (Z.to_nat r)) as [runs|] eqn:E;
    [|discriminate].
  cbn [bind] in H. pose proof (valid_row_runs _ _ E) as Hruns.
  eapply fills_weaken;
    [|apply (for_each_fills
               (fun c i j => i = Z.to_nat r /\ j = Z.to_nat c) _ _
               (fun c a b Hc Hm =>
                  overlap_mark_fills r c a b Hr
                    (proj1 (overlap_in_line _ _ c Hruns Hc)) Hm) _ _ H)].
  intros i j. cbv beta. split.
  - intros (c & Hc & -> & ->). split; [reflexivity|].
    exists runs. split; [exact E|].
    pose proof (overlap_in_line _ _ c Hruns Hc).
    rewrite Z2Nat.id by lia. exact Hc.
  - intros (-> & runs' & E' & Hin). rewrite E in E'. injection E' as <-.
    exists (Z.of_nat j). split; [exact Hin|].
    split; [reflexivity|]. rewrite Nat2Z.id. reflexivity.
Qed.

Lemma overlap_col_fills (c : Z) (s s' : PassState) :
  0 <= c -> overlap_col puzzle c s = Some s' ->
  fills (fun i j => j = Z.to_nat c /\
           exists runs, nth_error (cols puzzle) j = Some runs /\
             In (Z.of_nat i) (overlap_fill_line (size puzzle) runs))
        (snd s) (snd s').
Proof.
  intros Hc H. unfold overlap_col in H.
  rewrite getitem_nonneg in H by exact Hc.
  destruct (nth_error (cols puzzle) (Z.to_nat c)) as [runs|] eqn:E;
    [|discriminate].
  cbn [bind] in H. pose proof (valid_col_runs _ _ E) as Hruns.
  eapply fills_weaken;
    [|apply (for_each_fills
               (fun r i j => i = Z.to_nat r /\ j = Z.to_nat c) _ _
               (fun r a b Hr Hm =>
                  overlap_mark_fills r c a b
                    (proj1 (overlap_in_line _ _ r Hruns Hr)) Hc Hm) _ _ H)].
  intros i j. cbv beta. split.
  - intros (r & Hr & -> & ->). split; [reflexivity|].
    exists runs. split; [exact E|].
    pose proof (overlap_in_line _ _ r Hruns Hr).
    rewrite Z2Nat.id by lia. exact Hr.
  - intros (-> & runs' & E' & Hin). rewrite E in E'. injection E' as <-.
    exists (Z.of_nat i). split; [exact Hin|].
    split; [rewrite Nat2Z.id; reflexivity|reflexivity].
Qed.

(** One overlap pass fills the unknown cells that the overlap rule
    forces and leaves every other cell as it was. *)
Lemma overlap_pass_fills (g : Grid) (s' : PassState) :
  apply_overlap_pass puzzle g = Some s' ->
  fills (overlap_forced puzzle) g (snd s').
Proof.
  unfold apply_overlap_pass. intros H.
  destruct (for_each (range 0 (size puzzle)) (overlap_row puzzle) (false, g))
    as [s1|] eqn:E1; [|discriminate]. cbn [bind] in H.
  pose proof (for_each_fills _ _ _
                (fun r a b Hr Hm =>
                   overlap_row_fills r a b
                     (proj1 (proj1 (In_range _ _ _) Hr)) Hm) _ _ E1) as H1.
  pose proof (for_each_fills _ _ _
                (fun c a b Hc Hm =>
                   overlap_col_fills c a b
                     (proj1 (proj1 (In_range _ _ _) Hc)) Hm) _ _ H) as H2.
  cbn [snd] in H1.
  eapply fills_weaken; [|exact (fills_trans _ _ _ _ _ H1 H2)].
  destruct Hvalid as (Hn & Hlr & Hlc & _). unfold len in Hlr, Hlc.
  intros i j. cbv beta. unfold overlap_forced. split.
  - intros [(r & _ & -> & Hrest)|(c & _ & -> & Hrest)];
      [left|right]; exact Hrest.
  - intros [(runs & E & Hin)|(runs & E & Hin)]; [left|right].
    + exists (Z.of_nat i). split; [apply In_range|].
      * assert (i < length (rows puzzle))%nat
          by (apply nth_error_Some; congruence). lia.
      * split; [rewrite Nat2Z.id; reflexivity|].
        exists runs. split; assumption.
    + exists (Z.of_nat j). split; [apply In_range|].
      * assert (j < length (cols puzzle))%nat
          by (apply nth_error_Some; congruence). lia.
      * split; [rewrite Nat2Z.id; reflexivity|].
        exists runs. split; assumption.
Qed.

End OverlapPass.

(** What [apply_overlap_pass] does to a grid, cell by cell: on a valid
    puzzle it writes 1 into every unknown cell that the overlap rule
    forces through the clue of its row or of its column, and changes
    nothing else; it never writes 0 and adds or removes no cell. *)
Theorem overlap_pass_spec (puzzle : NonogramPuzzle) (grid grid' : Grid)
  (changed : bool) :
  valid_puzzle puzzle ->
  apply_overlap_pass puzzle grid = Some (changed, grid') ->
  fills (overlap_forced puzzle) grid grid'.
Proof.
  intros Hv H. exact (overlap_pass_fills puzzle Hv grid _ H).
Qed.

(** The puzzle of size 2 with the clues [[2]; []] and [[1]; [1]] on the
    grid of unknown cells. *)
Lemma overlap_pass_spec_witness :
  fills (overlap_forced (mkPuzzle 2 [[2]; []] [[1]; [1]]))
    [[-1; -1]; [-1; -1]] [[1; 1]; [-1; -1]].
Proof.
  apply (overlap_pass_spec (mkPuzzle 2 [[2]; []] [[1]; [1]])
           [[-1; -1]; [-1; -1]] [[1; 1]; [-1; -1]] true).
  - unfold valid_puzzle. cbn [size rows cols].
    split; [lia|]. split; [reflexivity|]. split; [reflexivity|].
    split; repeat (constructor; [repeat (constructor; [lia|]); constructor|]);
      constructor.
  - reflexivity.
Defined.

(** The overlap pass is idempotent: run on its own result for a valid
    puzzle and a working grid, it reports no change and returns the
    same grid. *)
Theorem overlap_pass_idempotent (puzzle : NonogramPuzzle) (grid grid' : Grid)
  (changed : bool) :
  valid_puzzle puzzle -> working_grid (size puzzle) grid ->
  apply_overlap_pass puzzle grid = Some (changed, grid') ->
  apply_overlap_pass puzzle grid' = Some (false, grid').
Proof.
  intros Hv Hw H.
  destruct (overlap_pass_total puzzle Hv grid Hw) as (s1 & E1 & Hw1).
  rewrite H in E1. injection E1 as <-. cbn [snd] in Hw1.
  destruct (overlap_pass_total puzzle Hv grid' Hw1) as ([ch2 g2] & E2 & Hw2).
  cbn [snd] in Hw2.
  pose proof (overlap_pass_fills puzzle Hv grid _ H) as F1.
  pose proof (overlap_pass_fills puzzle Hv grid' _ E2) as F2.
  cbn [snd] in F1, F2.
  assert (Eg : grid' = g2).
  { apply (square_ext (size puzzle)); [exact (proj1 Hw1)|exact (proj1 Hw2)|].
    intros i j v E. destruct (F2 i j) as [_ S2].
    destruct (S2 v E) as [(-> & Ht & _)|(_ & E')]; [exfalso|exact E'].
    destruct (F1 i j) as [N1 S1].
    destruct (cell grid i j) as [v0|] eqn:E0.
    - destruct (S1 v0 eq_refl) as [(_ & _ & E1)|(Hn & E1)]; [congruence|].
      apply Hn. split; [congruence|exact Ht].
    - rewrite (N1 eq_refl) in E. discriminate. }
  subst g2. rewrite E2. f_equal. f_equal.
  destruct ch2; [exfalso|reflexivity].
  destruct (overlap_pass_advance _ _ _ (proj2 Hw1) E2) as (_ & _ & _ & Hlt).
  cbn [fst snd] in Hlt. destruct (Hlt eq_refl) as [Hf|Hf]; [discriminate|lia].
Qed.

(** The puzzle of size 2 with the clues [[2]; []] and [[1]; [1]]. *)
Lemma overlap_pass_idempotent_witness :
  apply_overlap_pass (mkPuzzle 2 [[2]; []] [[1]; [1]]) [[1; 1]; [-1; -1]]
  = Some (false, [[1; 1]; [-1; -1]]).
Proof.
  apply (overlap_pass_idempotent (mkPuzzle 2 [[2]; []] [[1]; [1]])
           [[-1; -1]; [-1; -1]] [[1; 1]; [-1; -1]] true).
  - unfold valid_puzzle. cbn [size rows cols].
    split; [lia|]. split; [reflexivity|]. split; [reflexivity|].
    split; repeat (constructor; [repeat (constructor; [lia|]); constructor|]);
      constructor.
  - split; [split; [reflexivity|]|].
    + repeat (constructor; [reflexivity|]). constructor.
    + unfold grid_states, cell_state.
      repeat (constructor; [repeat (constructor; [lia|]); constructor|]).
      constructor.
  - reflexivity.
Defined.

(** ** The generator yields every pattern once *)

Section OncePerPattern.

Lemma NoDup_flat_map {A B : Type} (f : A -> list B) (xs : list A) :
  NoDup xs ->
  (forall x, In x xs -> NoDup (f x)) ->
  (forall x y b, In x xs -> In y xs -> In b (f x) -> In b (f y) -> x = y) ->
  NoDup (flat_map f xs).
Proof.
  induction xs as [|x t IH]; intros Hnd Hf Hdisj; [constructor|].
  cbn [flat_map]. apply NoDup_cons_iff in Hnd. destruct Hnd as [Hx Hnd].
  apply NoDup_app.
  - apply Hf. left. reflexivity.
  - apply IH; [exact Hnd| |].
    + intros y Hy. apply Hf. right. exact Hy.
    + intros y z b Hy Hz. apply Hdisj; right; assumption.
  - intros b Hb Hb'. apply in_flat_map in Hb'. destruct Hb' as (y & Hy & Hby).
    apply Hx. rewrite (Hdisj x y b); auto; [left; reflexivity|right; exact Hy].
Qed.

Lemma NoDup_map_injective {A B : Type} (g : A -> B) (l : list A) :
  (forall a b, g a = g b -> a = b) -> NoDup l -> NoDup (map g l).
Proof.
  intros Hg. induction 1 as [|a t Ha Hnd IH]; [constructor|].
  cbn [map]. constructor; [|exact IH].
  intros Hin. apply in_map_iff in Hin. destruct Hin as (b & E & Hb).
  apply Hg in E. subst b. contradiction.
Qed.

(** The offset of the first run can be read off a filling. *)
Lemma first_offset_unique (r off off' : Z) (q q' : list Z) :
  1 <= r -> 0 <= off -> 0 <= off' ->
  replicate 0 off ++ replicate 1 r ++ q
  = replicate 0 off' ++ replicate 1 r ++ q' -> off = off'.
Proof.
  intros Hr Hoff Hoff' E.
  assert (Hlt : forall a b ta tb, 0 <= a < b ->
            replicate 0 a ++ replicate 1 r ++ ta
            <> replicate 0 b ++ replicate 1 r ++ tb).
  { intros a b ta tb Hab Eab.
    pose proof (item_pieces_block [] ta a r a ltac:(lia) ltac:(lia)) as H1.
    pose proof (item_pieces_front [] tb b r a ltac:(lia)) as H0.
    change (len []) with 0 in H1, H0. cbn [app] in H1, H0.
    rewrite Eab in H1. rewrite H0 in H1 by lia. specialize (H1 ltac:(lia)).
    discriminate. }
  destruct (Z.lt_trichotomy off off') as [H|[H|H]]; [exfalso|exact H|exfalso].
  - exact (Hlt off off' q q' ltac:(lia) E).
  - exact (Hlt off' off q' q ltac:(lia) (eq_sym E)).
Qed.

Lemma fillings_NoDup (rs : list Z) :
  Forall (fun r => 1 <= r) rs -> forall n, NoDup (fillings rs n).
Proof.
  induction rs as [|r rest IH]; intros Hruns n.
  - cbn [fillings]. constructor; [intros []|constructor].
  - pose proof (Forall_inv Hruns) as Hr. cbv beta in Hr.
    pose proof (Forall_inv_tail Hruns) as Hrest.
    cbn [fillings]. apply NoDup_flat_map.
    + apply NoDup_range.
    + intros off _. apply NoDup_map_injective.
      * intros a b E. apply app_inv_head in E. apply app_inv_head in E.
        exact E.
      * destruct rest as [|r' rest'].
        -- constructor; [intros []|constructor].
        -- apply NoDup_map_injective; [intros a b E; congruence|].
           apply IH. exact Hrest.
    + intros off off' b Hoff Hoff' Hb Hb'.
      apply In_range in Hoff. apply In_range in Hoff'.
      apply in_map_iff in Hb. destruct Hb as (t & <- & _).
      apply in_map_iff in Hb'. destruct Hb' as (t' & E & _).
      apply (first_offset_unique r off off' t t' Hr); [lia|lia|].
      symmetry. exact E.
Qed.

(** The loop of [_line_groups_of_ones] closes blocks of at least one
    cell, counts every filled cell once, and leaves room for a separator
    after each block. *)
Lemma groups_loop_facts (line : list Z) :
  forall run, 0 <= run ->
    let gs := groups_loop line run [] in
    Forall (fun g => 1 <= g) gs /\
    sum gs = run + Z.of_nat (count_occ Z.eq_dec line 1) /\
    sum gs + len gs <= run + len line + 1.
Proof.
  induction line as [|v t IH]; intros run Hrun; cbv zeta.
  - cbn [groups_loop count_occ]. destruct (Z.eqb_spec run 0) as [->|Hne].
    + split; [constructor|]. rewrite sum_nil. change (len []) with 0.
      split; lia.
    + cbn [app]. split; [constructor; [lia|constructor]|].
      rewrite sum_cons, sum_nil, len_cons. change (len []) with 0.
      split; lia.
  - cbn [groups_loop count_occ]. rewrite len_cons.
    destruct (Z.eqb_spec v 1) as [->|Hv].
    + destruct (Z.eq_dec 1 1) as [_|]; [|contradiction].
      destruct (IH (run + 1) ltac:(lia)) as (H1 & H2 & H3).
      split; [exact H1|]. split; lia.
    + destruct (Z.eq_dec v 1) as [|_]; [contradiction|].
      destruct (Z.eqb_spec run 0) as [->|Hne].
      * destruct (IH 0 ltac:(lia)) as (H1 & H2 & H3).
        split; [exact H1|]. split; lia.
      * cbn [app]. rewrite groups_loop_acc. cbn [app].
        destruct (IH 0 ltac:(lia)) as (H1 & H2 & H3).
        split; [constructor; [lia|exact H1]|].
        rewrite sum_cons, len_cons. split; lia.
Qed.

End OncePerPattern.

(** [_enumerate_line_patterns] yields no pattern twice. *)
Theorem enumerate_line_patterns_once (L : Z) (runs known : list Z) :
  len known = L -> Forall (fun r => 1 <= r) runs ->
  exists ps,
    _enumerate_line_patterns L runs known = Some ps /\ NoDup ps.
Proof.
  intros Hknown Hruns. exists (filter (agrees known) (fillings runs L)).
  split; [apply enumerate_refines; assumption|].
  apply NoDup_filter. apply fillings_NoDup. exact Hruns.
Qed.

(** The clue [[1; 1]] in four cells, the last one known filled. *)
Lemma enumerate_line_patterns_once_witness :
  exists ps,
    _enumerate_line_patterns 4 [1; 1] [-1; -1; -1; 1] = Some ps /\ NoDup ps.
Proof.
  apply (enumerate_line_patterns_once 4 [1; 1] [-1; -1; -1; 1]).
  - reflexivity.
  - repeat (constructor; [lia|]). constructor.
Defined.

(** The generator and the validator agree on what a clue means: on a
    line with no known cell the patterns that
    [_enumerate_line_patterns] yields are the lines of that length that
    [does_line_satisfy_clues] accepts. *)
Theorem generator_agrees_with_validator (n : Z) (runs : list Z) :
  0 <= n -> Forall (fun r => 1 <= r) runs ->
  exists ps,
    _enumerate_line_patterns n runs (replicate (-1) n) = Some ps /\
    forall p, In p ps <->
      len p = n /\ does_line_satisfy_clues p runs = true.
Proof.
  intros Hn Hruns.
  exists (filter (agrees (replicate (-1) n)) (fillings runs n)).
  split; [apply enumerate_refines; [apply len_replicate; exact Hn|exact Hruns]|].
  intros p.
  rewrite (legal_iff n runs (replicate (-1) n) p
             (len_replicate _ _ Hn) Hruns
             (Forall_replicate _ _ _ (or_introl eq_refl))).
  rewrite does_line_satisfy_clues_spec. unfold legal_pattern, meets. split.
  - intros (Hl & Hb & Hg & _). auto.
  - intros (Hl & Hb & Hg). split; [exact Hl|]. split; [exact Hb|].
    split; [exact Hg|]. intros i Hi. rewrite item_replicate by exact Hi.
    split; discriminate.
Qed.

(** The clue [[2]] in five cells. *)
Lemma generator_agrees_with_validator_witness :
  exists ps,
    _enumerate_line_patterns 5 [2] (replicate (-1) 5) = Some ps /\
    forall p, In p ps <->
      len p = 5 /\ does_line_satisfy_clues p [2] = true.
Proof.
  apply (generator_agrees_with_validator 5 [2]); [lia|].
  repeat (constructor; [lia|]). constructor.
Defined.

(** The run lengths that [_line_groups_of_ones] reads off any line are
    at least one, add up to the number of filled cells, and fit the
    line with a separator between consecutive runs: a clue that some
    line satisfies has positive runs and no negative slack. *)
Theorem line_groups_fit (line : list Z) :
  Forall (fun g => 1 <= g) (_line_groups_of_ones line) /\
  sum (_line_groups_of_ones line) = Z.of_nat (count_occ Z.eq_dec line 1) /\
  0 <= slack (len line) (_line_groups_of_ones line) /\
  forall runs, does_line_satisfy_clues line runs = true ->
    Forall (fun r => 1 <= r) runs /\ 0 <= slack (len line) runs.
Proof.
  destruct (groups_loop_facts line 0 ltac:(lia)) as (H1 & H2 & H3).
  fold (_line_groups_of_ones line) in H1, H2, H3.
  assert (Hs : 0 <= slack (len line) (_line_groups_of_ones line))
    by (unfold slack; lia).
  split; [exact H1|]. split; [lia|]. split; [exact Hs|].
  intros runs H. apply does_line_satisfy_clues_spec in H.
  destruct H as [_ <-]. split; assumption.
Qed.

(** ** Learning more cells loses no deduction *)

(** When the cells of a line are known better and the line still has a
    legal pattern, every position [deduce_from_possibilities] marked
    before is marked again. *)
Theorem deduce_keeps_deductions (L : Z)
  (runs known known' mf me mf' me' : list Z) :
  len known = L -> len known' = L ->
  Forall cell_state known -> Forall cell_state known' ->
  Forall (fun r => 1 <= r) runs ->
  (forall i, 0 <= i < L -> item known i = -1 \/ item known' i = item known i) ->
  (exists p, legal_pattern L runs known' p) ->
  deduce_from_possibilities L runs known = Some (mf, me) ->
  deduce_from_possibilities L runs known' = Some (mf', me') ->
  incl mf mf' /\ incl me me'.
Proof.
  intros Hl Hl' Hs Hs' Hruns Href Hex H H'.
  assert (Hmono : forall p, legal_pattern L runs known' p ->
                            legal_pattern L runs known p).
  { intros p (Hp & Hb & Hg & Hk). split; [exact Hp|]. split; [exact Hb|].
    split; [exact Hg|]. intros i Hi. destruct (Hk i Hi) as [H0 H1].
    destruct (Href i Hi) as [E|E].
    - rewrite E. split; discriminate.
    - rewrite <- E. split; assumption. }
  destruct (deduce_exact L runs known Hl Hruns Hs)
    as (a & b & E & Hsome & _).
  rewrite H in E. injection E as <- <-.
  destruct (deduce_exact L runs known' Hl' Hruns Hs')
    as (a' & b' & E' & Hsome' & _).
  rewrite H' in E'. injection E' as <- <-.
  destruct Hex as (p0 & Hp0).
  destruct (Hsome (ex_intro _ p0 (Hmono p0 Hp0))) as [Hmf Hme].
  destruct (Hsome' (ex_intro _ p0 Hp0)) as [Hmf' Hme'].
  split; intros i Hi.
  - apply Hmf'. apply Hmf in Hi. destruct Hi as [Hi Hall].
    split; [exact Hi|]. intros p Hp. apply Hall. apply Hmono. exact Hp.
  - apply Hme'. apply Hme in Hi. destruct Hi as [Hi Hall].
    split; [exact Hi|]. intros p Hp. apply Hall. apply Hmono. exact Hp.
Qed.

(** The clue [[3]] in four cells, before and after the first cell is
    known empty. *)
Lemma deduce_keeps_deductions_witness :
  incl [1; 2] [1; 2; 3] /\ incl [] [0].
Proof.
  apply (deduce_keeps_deductions 4 [3] [-1; -1; -1; -1] [0; -1; -1; -1]
           [1; 2] [] [1; 2; 3] [0]).
  - reflexivity.
  - reflexivity.
  - repeat (constructor; [unfold cell_state; lia|]). constructor.
  - repeat (constructor; [unfold cell_state; lia|]). constructor.
  - repeat (constructor; [lia|]). constructor.
  - intros i Hi.
    assert (Hc : i = 0 \/ i = 1 \/ i = 2 \/ i = 3) by lia.
    destruct Hc as [-> | [-> | [-> | ->]]]; left; reflexivity.
  - exists [0; 1; 1; 1]. split; [reflexivity|].
    split; [repeat (constructor; [unfold bit; lia|]); constructor|].
    split; [reflexivity|]. intros i Hi.
    assert (Hc : i = 0 \/ i = 1 \/ i = 2 \/ i = 3) by lia.
    destruct Hc as [-> | [-> | [-> | ->]]]; split; intros Hk;
      try discriminate Hk; reflexivity.
  - reflexivity.
  - reflexivity.
Defined.

(** ** The printed grid *)

Section Printer.

Lemma symbol_length (v : Z) : length (symbol v) = 1%nat.
Proof.
  unfold symbol. destruct (v =? 1); [reflexivity|].
  destruct (v =? 0); [reflexivity|]. destruct (v =? -1); reflexivity.
Qed.

Lemma symbol_injective (v v' : Z) :
  cell_state v -> cell_state v' -> symbol v = symbol v' -> v = v'.
Proof.
  intros [-> | [-> | ->]] [-> | [-> | ->]] E; try reflexivity; discriminate E.
Qed.

Lemma row_text_length (row : list Z) :
  length (concat (map symbol row)) = length row.
Proof.
  induction row as [|v t IH]; [reflexivity|].
  cbn [map concat]. rewrite length_app, symbol_length, IH. reflexivity.
Qed.

Lemma row_text_injective (row row' : list Z) :
  Forall cell_state row -> Forall cell_state row' ->
  concat (map symbol row) = concat (map symbol row') -> row = row'.
Proof.
  intros H. revert row'. induction H as [|v t Hv Ht IH];
    intros row' H' E.
  - destruct row' as [|v' t']; [reflexivity|].
    pose proof (f_equal (@length Z) E) as El.
    rewrite !row_text_length in El. discriminate.
  - destruct row' as [|v' t'].
    + pose proof (f_equal (@length Z) E) as El.
      rewrite !row_text_length in El. discriminate.
    + pose proof (Forall_inv H') as Hv'. pose proof (Forall_inv_tail H') as Ht'.
      cbn [map concat] in E.
      assert (Es : symbol v = symbol v' /\
                   concat (map symbol t) = concat (map symbol t')).
      { pose proof (symbol_length v) as L1.
        pose proof (symbol_length v') as L2.
        destruct (symbol v) as [|a [|]]; try discriminate L1.
        destruct (symbol v') as [|b [|]]; try discriminate L2.
        cbn [app] in E. injection E as -> E2. split; [reflexivity|exact E2]. }
      destruct Es as [E1 E2].
      f_equal; [exact (symbol_injective v v' Hv Hv' E1)|exact (IH t' Ht' E2)].
Qed.

End Printer.

(** [print_grid] writes one line per row and one character per cell,
    and the text keeps the whole grid: two grids of cell states that
    print alike are the same grid.  A value that is no cell state
    prints as a question mark. *)
Theorem print_grid_lossless (grid grid' : Grid) :
  (length (print_grid grid) = length grid /\
   Forall2 (fun text row => length text = length row)
     (print_grid grid) grid) /\
  (grid_states grid -> grid_states grid' ->
   print_grid grid = print_grid grid' -> grid = grid') /\
  (forall v, ~ cell_state v -> symbol v = [63]).
Proof.
  split; [split|split].
  - unfold print_grid. apply length_map.
  - unfold print_grid. induction grid as [|row t IH]; cbn [map];
      constructor; [apply row_text_length|exact IH].
  - unfold grid_states, print_grid. intros H. revert grid'.
    induction H as [|row t Hrow Ht IH]; intros [|row' t'] H' E;
      try discriminate E; [reflexivity|].
    cbn [map] in E. injection E as E1 E2.
    f_equal.
    + exact (row_text_injective row row' Hrow (Forall_inv H') E1).
    + exact (IH t' (Forall_inv_tail H') E2).
  - intros v Hv. unfold symbol, cell_state in *.
    destruct (Z.eqb_spec v 1); [lia|]. destruct (Z.eqb_spec v 0); [lia|].
    destruct (Z.eqb_spec v (-1)); [lia|]. reflexivity.
Qed.

(** ** How many patterns a line has *)

Section Counting.

Lemma choose_zero (n : nat) : choose n 0 = 1%nat.
Proof. destruct n; reflexivity. Qed.

Lemma choose_above (n : nat) : forall k, (n < k)%nat -> choose n k = 0%nat.
Proof.
  induction n as [|n IH]; intros [|k] H; try lia; [reflexivity|].
  cbn [choose]. rewrite !IH by lia. reflexivity.
Qed.

Lemma choose_diag (n : nat) : choose n n = 1%nat.
Proof.
  induction n as [|n IH]; [reflexivity|].
  cbn [choose]. rewrite IH, choose_above by lia. reflexivity.
Qed.

Lemma length_flat_map_sum {A B : Type} (f : A -> list B) (xs : list A) :
  length (flat_map f xs) = list_sum (map (fun x => length (f x)) xs).
Proof.
  induction xs as [|x t IH]; [reflexivity|].
  cbn [flat_map map list_sum]. rewrite length_app, IH. reflexivity.
Qed.

(** The hockey-stick sum. *)
Lemma choose_sum (k s : nat) :
  forall lo : Z,
    list_sum
      (map (fun off => choose (Z.to_nat (lo + Z.of_nat s - off) + k) k)
         (range lo (lo + Z.of_nat s + 1)))
    = choose (S (s + k)) (S k).
Proof.
  induction s as [|s IH]; intros lo.
  - rewrite range_cons by lia. rewrite range_nil by lia.
    cbn [map list_sum].
    replace (Z.to_nat (lo + Z.of_nat 0 - lo)) with O by lia.
    cbn [Nat.add]. rewrite !choose_diag. reflexivity.
  - rewrite range_cons by lia. cbn [map list_sum].
    replace (Z.to_nat (lo + Z.of_nat (S s) - lo)) with (S s) by lia.
    replace (lo + Z.of_nat (S s) + 1) with (lo + 1 + Z.of_nat s + 1) by lia.
    rewrite (map_ext_in _
               (fun off => choose (Z.to_nat (lo + 1 + Z.of_nat s - off) + k) k));
      [|intros off _; f_equal; lia].
    unfold list_sum in *. cbn [fold_right]. rewrite IH.
    cbn [Nat.add choose]. reflexivity.
Qed.

Lemma fillings_count (rs : list Z) :
  forall n, 0 <= slack n rs ->
    length (fillings rs n)
    = choose (Z.to_nat (slack n rs) + length rs) (length rs).
Proof.
  induction rs as [|r rest IH]; intros n Hs.
  - cbn [fillings length]. rewrite choose_zero. reflexivity.
  - cbn [fillings]. rewrite length_flat_map_sum.
    set (s := Z.to_nat (slack n (r :: rest))).
    assert (Es : n - (sum (r :: rest) + (len (r :: rest) - 1)) + 1
                 = 0 + Z.of_nat s + 1) by (unfold s, slack in *; lia).
    rewrite Es.
    rewrite (map_ext_in _
               (fun off => choose (Z.to_nat (0 + Z.of_nat s - off)
                                   + length rest) (length rest))).
    + rewrite choose_sum. cbn [length]. f_equal. lia.
    + intros off Hoff. apply In_range in Hoff. rewrite length_map.
      assert (Hsl : slack (n - off - r - 1) rest = 0 + Z.of_nat s - off).
      { unfold s. rewrite slack_cons in *. unfold slack. lia. }
      destruct rest as [|r' rest'] eqn:Erest.
      * cbn [length]. rewrite choose_zero. reflexivity.
      * rewrite length_map. rewrite <- Erest in *.
        rewrite IH by lia. rewrite Hsl. reflexivity.
Qed.

Lemma filter_all {A : Type} (f : A -> bool) (l : list A) :
  (forall x, In x l -> f x = true) -> filter f l = l.
Proof.
  induction l as [|x t IH]; intros H; [reflexivity|].
  cbn [filter]. rewrite (H x (or_introl eq_refl)). f_equal.
  apply IH. intros y Hy. apply H. right. exact Hy.
Qed.

End Counting.

(** The work of the possibility deducer on a fresh line: for [k] runs
    with slack [s] in a line with no known cell,
    [_enumerate_line_patterns] yields the binomial coefficient of
    [s + k] over [k] patterns, and none when the slack is negative. *)
Theorem enumerate_line_patterns_count (n : Z) (runs : list Z) :
  0 <= n -> Forall (fun r => 1 <= r) runs ->
  exists ps,
    _enumerate_line_patterns n runs (replicate (-1) n) = Some ps /\
    length ps =
      if slack n runs <? 0 then 0%nat
      else choose (Z.to_nat (slack n runs) + length runs) (length runs).
Proof.
  intros Hn Hruns. exists (fillings runs n). split.
  - rewrite enumerate_refines; [|apply len_replicate; exact Hn|exact Hruns].
    f_equal. apply filter_all. intros p Hp.
    apply agrees_spec. intros i Hi. left.
    rewrite len_replicate in Hi by exact Hn. apply item_replicate. exact Hi.
  - destruct (Z.ltb_spec (slack n runs) 0) as [Hneg|Hpos].
    + destruct (fillings runs n) as [|q t] eqn:E; [reflexivity|exfalso].
      assert (Hq : In q (fillings runs n)) by (rewrite E; left; reflexivity).
      destruct runs as [|r rest]; [unfold slack in Hneg; cbn in Hneg; lia|].
      apply fillings_need_room in Hq. unfold slack in Hneg. lia.
    + apply fillings_count. exact Hpos.
Qed.

(** The clue [[1; 1]] in a line of five cells: slack 2, two runs, six
    patterns. *)
Lemma enumerate_line_patterns_count_witness :
  exists ps,
    _enumerate_line_patterns 5 [1; 1] (replicate (-1) 5) = Some ps /\
    length ps =
      if slack 5 [1; 1] <? 0 then 0%nat
      else choose (Z.to_nat (slack 5 [1; 1]) + length [1; 1]) (length [1; 1]).
Proof.
  apply (enumerate_line_patterns_count 5 [1; 1]); [lia|].
  repeat (constructor; [lia|]). constructor.
Defined.

(** ** The overlap pass after a possibility pass that found nothing *)

Lemma for_each_quiet_all {A : Type} (xs : list A)
  (body : A -> PassState -> option PassState) :
  (forall x a b, body x a = Some b -> quiet a b) ->
  forall s s', for_each xs body s = Some s' -> fst s' = false ->
    s' = s /\ forall x, In x xs -> body x s = Some s.
Proof.
  intros Hq. induction xs as [|x t IH]; intros s s' H Hf.
  - injection H as <-. split; [reflexivity|intros x []].
  - cbn [for_each] in H.
    destruct (body x s) as [s1|] eqn:E; [|discriminate]. cbn [bind] in H.
    destruct (IH s1 s' H Hf) as [E1 Hall]. subst s'.
    pose proof (Hq x s s1 E Hf) as E1. subst s1.
    split; [reflexivity|]. intros y [<-|Hy]; [exact E|exact (Hall y Hy)].
Qed.

Lemma for_each_fixed {A S : Type} (xs : list A) (body : A -> S -> option S)
  (s : S) :
  (forall x, In x xs -> body x s = Some s) -> for_each xs body s = Some s.
Proof.
  induction xs as [|x t IH]; intros H; [reflexivity|].
  cbn [for_each]. rewrite (H x (or_introl eq_refl)). cbn [bind].
  apply IH. intros y Hy. apply H. right. exact Hy.
Qed.

Lemma overlap_in_must_fill (L : Z) (runs known mf me : list Z) :
  len known = L -> Forall (fun r => 1 <= r) runs -> Forall cell_state known ->
  (exists p, legal_pattern L runs known p) ->
  deduce_from_possibilities L runs known = Some (mf, me) ->
  forall x, In x (overlap_fill_line L runs) -> In x mf.
Proof.
  intros Hknown Hruns Hstate Hex Hd x Hx.
  destruct (deduce_exact L runs known Hknown Hruns Hstate)
    as (mf0 & me0 & Ed & Hsome & _).
  rewrite Hd in Ed. injection Ed as <- <-.
  destruct (Hsome Hex) as [Hmf _]. apply Hmf.
  split; [exact (overlap_in_line L runs x Hruns Hx)|].
  intros p Hp. apply (legal_iff L runs known p Hknown Hruns Hstate) in Hp.
  apply filter_In in Hp. destruct Hp as [Hp _].
  destruct runs as [|r0 rest] eqn:Eruns; [destruct Hx|].
  rewrite <- Eruns in *.
  assert (Hne : runs <> []) by (rewrite Eruns; discriminate).
  destruct (overlap_fill_line_members L runs Hne) as [Hpos Hneg].
  destruct (Z_lt_le_dec (slack L runs) 0) as [Hs|Hs].
  { rewrite (Hneg Hs) in Hx. destruct Hx. }
  destruct (Hpos Hs) as [_ Hmem].
  apply Hmem in Hx. destruct Hx as (i & Hi & _ & Hrange).
  exact (proj2 (fillings_overlap runs Hruns L p Hp i x Hi Hrange)).
Qed.

Lemma possibility_mark_fixed (v r c : Z) (g : Grid) :
  possibility_mark v r c (false, g) = Some (false, g) ->
  get_cell g r c = Some v.
Proof.
  unfold possibility_mark. intros H.
  destruct (get_cell g r c) as [x|]; [|discriminate]. cbn [bind] in H.
  destruct (Z.eqb_spec x v) as [Heq|Hne]; [rewrite Heq; reflexivity|].
  cbn [negb] in H. destruct (set_cell g r c v); discriminate.
Qed.

Lemma overlap_mark_fixed (r c : Z) (s : PassState) :
  get_cell (snd s) r c = Some 1 -> overlap_mark r c s = Some s.
Proof.
  destruct s as [ch g]. cbn [snd]. intros H. unfold overlap_mark.
  rewrite H. reflexivity.
Qed.

(** The marks of a line that a quiet deduction step leaves alone. *)
Lemma quiet_line_marks (L : Z) (runs known : list Z) (g : Grid)
  (mark : Z -> Z -> PassState -> option PassState) :
  (forall v t a b, mark v t a = Some b -> quiet a b) ->
  ('(mf, me) <- deduce_from_possibilities L runs known ;;
   s1 <- for_each mf (mark 1) (false, g) ;;
   for_each me (mark 0) s1) = Some (false, g) ->
  exists mf me,
    deduce_from_possibilities L runs known = Some (mf, me) /\
    forall t, In t mf -> mark 1 t (false, g) = Some (false, g).
Proof.
  intros Hq H.
  destruct (deduce_from_possibilities L runs known) as [[mf me]|];
    [|discriminate].
  cbn [bind] in H. cbv beta iota in H.
  destruct (for_each mf (mark 1) (false, g)) as [s1|] eqn:E1; [|discriminate].
  cbn [bind] in H.
  destruct (for_each_quiet_all me (mark 0) (Hq 0) _ _ H eq_refl) as [<- _].
  destruct (for_each_quiet_all mf (mark 1) (Hq 1) _ _ E1 eq_refl) as [_ Hall].
  exists mf, me. split; [reflexivity|exact Hall].
Qed.

Lemma Forall2_nth_error {A B : Type} (R : A -> B -> Prop) (l : list A)
  (l' : list B) :
  Forall2 R l l' ->
  forall i a, nth_error l i = Some a ->
    exists b, nth_error l' i = Some b /\ R a b.
Proof.
  induction 1 as [|x y t t' Hxy Ht IH]; intros [|i] a E; try discriminate E.
  - injection E as <-. exists y. split; [reflexivity|exact Hxy].
  - exact (IH i a E).
Qed.

(** Two grids compared row by row and cell by cell. *)
Lemma compatible_rows (g S : Grid) :
  Forall2 (Forall2 (fun a b => a = -1 \/ a = b)) g S -> compatible g S.
Proof.
  intros H i j v E. unfold cell in *.
  destruct (nth_error g i) as [row|] eqn:Er; [|discriminate].
  destruct (Forall2_nth_error _ _ _ H i row Er) as (row' & Er' & Hrow).
  rewrite Er'.
  destruct (Forall2_nth_error _ _ _ Hrow j v E) as (v' & Ev' & [Hv|Hv]).
  - left. exact Hv.
  - right. rewrite Ev', Hv. reflexivity.
Qed.

Section Subsumed.

Variable puzzle : NonogramPuzzle.
Hypothesis Hvalid : valid_puzzle puzzle.
Variable S : Grid.
Hypothesis Hsol : solution puzzle S.
Variable g : Grid.
Hypothesis Hw : working_grid (size puzzle) g.
Hypothesis Hcomp : compatible g S.

Lemma quiet_row_overlap (r : Z) :
  0 <= r < size puzzle ->
  possibility_row puzzle r (false, g) = Some (false, g) ->
  overlap_row puzzle r (false, g) = Some (false, g).
Proof.
  intros Hr H.
  destruct (solution_row puzzle Hvalid S Hsol r Hr)
    as (Srow & runs & E & Hruns & ES & Hl & Hm).
  destruct (square_row _ g r (proj1 Hw) Hr) as (known & Ek & Hlk).
  unfold possibility_row in H. rewrite Ek in H. cbn [bind] in H.
  rewrite E in H. cbn [bind] in H.
  destruct (quiet_line_marks _ runs known g
              (fun v c => possibility_mark v r c)
              (fun v t a b => possibility_mark_quiet v r t a b) H)
    as (mf & me & Ed & Hfix).
  assert (Hst : Forall cell_state known).
  { destruct Hw as [_ Hgs]. unfold grid_states in Hgs.
    rewrite Forall_forall in Hgs. apply Hgs. eapply getitem_In. exact Ek. }
  assert (Hleg : legal_pattern (size puzzle) runs known Srow).
  { destruct Hm as [Hb Hg]. split; [exact Hl|]. split; [exact Hb|].
    split; [exact Hg|]. intros i Hi.
    assert (Hc : cell g (Z.to_nat r) (Z.to_nat i) = Some (item known i)).
    { unfold cell. rewrite getitem_nonneg in Ek by lia. rewrite Ek.
      apply item_nth_error. lia. }
    destruct (Hcomp _ _ _ Hc) as [E1|E1].
    - rewrite E1. split; discriminate.
    - rewrite (solution_row_cell puzzle S r i Srow ES Hl Hi) in E1.
      injection E1 as E1. rewrite E1. split; auto. }
  unfold overlap_row. rewrite E. cbn [bind].
  apply for_each_fixed. intros c Hc. apply overlap_mark_fixed. cbn [snd].
  apply possibility_mark_fixed. apply Hfix.
  exact (overlap_in_must_fill _ runs known mf me Hlk Hruns Hst
           (ex_intro _ Srow Hleg) Ed c Hc).
Qed.

Lemma quiet_col_overlap (c : Z) :
  0 <= c < size puzzle ->
  possibility_col puzzle c (false, g) = Some (false, g) ->
  overlap_col puzzle c (false, g) = Some (false, g).
Proof.
  intros Hc H.
  destruct (solution_col puzzle Hvalid S Hsol c Hc)
    as (Scol & runs & E & Hruns & ES & Hl & Hm).
  destruct (column_of_total (size puzzle) g c (range 0 (size puzzle)) Hw Hc)
    as (known & Ek & Hlk & Hst).
  { intros r Hr. apply In_range in Hr. exact Hr. }
  assert (Hlenk : len known = size puzzle)
    by (unfold len; rewrite Hlk, length_range; lia).
  unfold possibility_col in H. rewrite Ek in H. cbn [bind] in H.
  rewrite E in H. cbn [bind] in H.
  destruct (quiet_line_marks _ runs known g
              (fun v i => possibility_mark v i c)
              (fun v t a b => possibility_mark_quiet v t c a b) H)
    as (mf & me & Ed & Hfix).
  assert (Hleg : legal_pattern (size puzzle) runs known Scol).
  { destruct Hm as [Hb Hg]. split; [exact Hl|]. split; [exact Hb|].
    split; [exact Hg|]. intros i Hi.
    assert (Hcell : cell g (Z.to_nat i) (Z.to_nat c) = Some (item known i)).
    { rewrite <- get_cell_nonneg by lia.
      rewrite <- (column_of_getitem g c (size puzzle) known i Ek Hi).
      apply getitem_item. lia. }
    destruct (Hcomp _ _ _ Hcell) as [E1|E1].
    - rewrite E1. split; discriminate.
    - rewrite (solution_col_cell puzzle S i c Scol ES Hl Hi
                 ltac:(lia)) in E1.
      injection E1 as E1. rewrite E1. split; auto. }
  unfold overlap_col. rewrite E. cbn [bind].
  apply for_each_fixed. intros r Hr. apply overlap_mark_fixed. cbn [snd].
  apply possibility_mark_fixed. apply Hfix.
  exact (overlap_in_must_fill _ runs known mf me Hlenk Hruns Hst
           (ex_intro _ Scol Hleg) Ed r Hr).
Qed.

Lemma quiet_pass_overlap (g' : Grid) :
  apply_possibility_pass puzzle g = Some (false, g') ->
  apply_overlap_pass puzzle g = Some (false, g).
Proof.
  unfold apply_possibility_pass, apply_overlap_pass. intros H.
  destruct (for_each (range 0 (size puzzle)) (possibility_row puzzle) (false, g))
    as [s1|] eqn:E1; [|discriminate]. cbn [bind] in H.
  destruct (for_each_quiet_all _ _ (possibility_col_quiet puzzle) _ _ H eq_refl)
    as [<- Hcols].
  destruct (for_each_quiet_all _ _ (possibility_row_quiet puzzle) _ _ E1 eq_refl)
    as [Eg Hrows].
  injection Eg as ->.
  rewrite for_each_fixed.
  - cbn [bind]. apply for_each_fixed. intros c Hc.
    apply quiet_col_overlap; [apply In_range in Hc; exact Hc|].
    exact (Hcols c Hc).
  - intros r Hr. apply quiet_row_overlap; [apply In_range in Hr; exact Hr|].
    exact (Hrows r Hr).
Qed.

End Subsumed.

(** The overlap pass adds nothing to the possibility pass: on a valid
    puzzle and a working grid that does not contradict some solution,
    when [apply_possibility_pass] reports no change,
    [apply_overlap_pass] reports none either and leaves the grid as it
    is. *)
Theorem overlap_pass_is_subsumed (puzzle : NonogramPuzzle)
  (S grid grid' : Grid) :
  valid_puzzle puzzle -> solution puzzle S ->
  working_grid (size puzzle) grid -> compatible grid S ->
  apply_possibility_pass puzzle grid = Some (false, grid') ->
  apply_overlap_pass puzzle grid = Some (false, grid).
Proof.
  intros Hv HS Hw Hc H.
  exact (quiet_pass_overlap puzzle Hv S HS grid Hw Hc grid' H).
Qed.

(** The puzzle of size 4 on which propagation stalls, with its first two
    rows known empty. *)
Lemma overlap_pass_is_subsumed_witness :
  apply_overlap_pass guess_puzzle
    [[0; 0; 0; 0]; [0; 0; 0; 0]; [-1; -1; -1; -1]; [-1; -1; -1; -1]]
  = Some (false,
          [[0; 0; 0; 0]; [0; 0; 0; 0]; [-1; -1; -1; -1]; [-1; -1; -1; -1]]).
Proof.
  apply (overlap_pass_is_subsumed guess_puzzle guess_solution
           [[0; 0; 0; 0]; [0; 0; 0; 0]; [-1; -1; -1; -1]; [-1; -1; -1; -1]]
           [[0; 0; 0; 0]; [0; 0; 0; 0]; [-1; -1; -1; -1]; [-1; -1; -1; -1]]).
  - exact valid_guess_puzzle.
  - exact solution_guess_puzzle.
  - split; [split; [reflexivity|]|].
    + repeat (constructor; [reflexivity|]). constructor.
    + unfold grid_states, cell_state.
      repeat (constructor; [repeat (constructor; [lia|]); constructor|]).
      constructor.
  - apply compatible_rows.
    repeat (constructor; [repeat (constructor; [lia|]); constructor|]).
    constructor.
  - vm_compute. reflexivity.
Defined.
